(** * ISIMIP bias adjustment: a shallow embedding of [debias/_isimip.py]

    The embedding follows the Python class [ISIMIP] method by method.
    Numbers are float64 values: a value is NaN, an infinity, or a
    rational.  The infinite sentinels of the bound and threshold fields,
    NaN from 0/0 and comparisons that are false on NaN are modelled.
    Rounding is modelled where an integer is derived from float values,
    in the count of step 6: there every operation rounds its exact
    result with a rounding function [rnd], a parameter of the methods,
    which is [binary64] for the program and [exact] for arithmetic
    without rounding.  Elsewhere arithmetic is exact.  numpy arrays are
    lists; a Python exception is a [Raise].

    The collaborators of the class are parameters of the methods: the
    distribution ([fit], [cdf], [ppf]), [ecdf] and [iecdf],
    [scipy.stats.linregress], [np.argsort], the random generator, the
    time labels.  The [fit] of the distribution may raise (scipy does on
    an empty sample); the other collaborators are total functions.
    [np.argsort] is any function: numpy leaves the order of equal values
    to the sort kind, and what a property needs of it is a hypothesis
    ([is_argsort]). *)

From Stdlib Require Import String.
From Stdlib Require Import QArith Qabs Qround Qpower ZArith List Bool.
From Stdlib Require Import Lia Lqa Permutation Sorted.
Import ListNotations.
Open Scope Q_scope.

(** ** Float values *)

Module Float.

Inductive fl : Set :=
| NaN
| NInf
| Fin (q : Q)
| PInf.

Definition Qltb (x y : Q) : bool := negb (Qle_bool y x).

Definition fneg (a : fl) : fl :=
  match a with
  | NaN => NaN
  | NInf => PInf
  | Fin x => Fin (- x)
  | PInf => NInf
  end.

Definition fadd (a b : fl) : fl :=
  match a, b with
  | NaN, _ | _, NaN => NaN
  | PInf, NInf | NInf, PInf => NaN
  | PInf, _ | _, PInf => PInf
  | NInf, _ | _, NInf => NInf
  | Fin x, Fin y => Fin (x + y)
  end.

Definition fsub (a b : fl) : fl :=
  match a, b with
  | NaN, _ | _, NaN => NaN
  | PInf, PInf | NInf, NInf => NaN
  | PInf, _ | _, NInf => PInf
  | NInf, _ | _, PInf => NInf
  | Fin x, Fin y => Fin (x - y)
  end.

(** The infinity with the sign of [x], NaN for [x = 0]. *)
Definition signed_inf (x : Q) (pos neg : fl) : fl :=
  if Qeq_bool x 0 then NaN else if Qltb 0 x then pos else neg.

Definition fmul (a b : fl) : fl :=
  match a, b with
  | NaN, _ | _, NaN => NaN
  | Fin x, Fin y => Fin (x * y)
  | PInf, PInf | NInf, NInf => PInf
  | PInf, NInf | NInf, PInf => NInf
  | PInf, Fin y | Fin y, PInf => signed_inf y PInf NInf
  | NInf, Fin y | Fin y, NInf => signed_inf y NInf PInf
  end.

(** numpy float64 division: a finite value over zero is an infinity
    (NaN for 0/0), with a warning and no exception. *)
Definition fdiv (a b : fl) : fl :=
  match a, b with
  | NaN, _ | _, NaN => NaN
  | Fin x, Fin y =>
      if Qeq_bool y 0 then signed_inf x PInf NInf else Fin (x / y)
  | Fin _, PInf | Fin _, NInf => Fin 0
  | PInf, Fin y => if Qle_bool 0 y then PInf else NInf
  | NInf, Fin y => if Qle_bool 0 y then NInf else PInf
  | _, _ => NaN
  end.

(** Comparisons are false as soon as one side is NaN. *)
Definition fle (a b : fl) : bool :=
  match a, b with
  | NaN, _ | _, NaN => false
  | NInf, _ => true
  | _, PInf => true
  | Fin x, Fin y => Qle_bool x y
  | _, _ => false
  end.

Definition flt (a b : fl) : bool :=
  match a, b with
  | NaN, _ | _, NaN => false
  | NInf, NInf | PInf, PInf => false
  | NInf, _ => true
  | _, PInf => true
  | Fin x, Fin y => Qltb x y
  | _, _ => false
  end.

Definition fge (a b : fl) : bool := fle b a.
Definition fgt (a b : fl) : bool := flt b a.

Definition feq (a b : fl) : bool :=
  match a, b with
  | NInf, NInf | PInf, PInf => true
  | Fin x, Fin y => Qeq_bool x y
  | _, _ => false
  end.

Definition isnan (a : fl) : bool :=
  match a with NaN => true | _ => false end.

(** [np.minimum] and [np.maximum]: NaN wins. *)
Definition fmin (a b : fl) : fl :=
  match a, b with
  | NaN, _ | _, NaN => NaN
  | _, _ => if fle a b then a else b
  end.

Definition fmax (a b : fl) : fl :=
  match a, b with
  | NaN, _ | _, NaN => NaN
  | _, _ => if fle a b then b else a
  end.

(** [np.isclose(a, b)] with its default tolerances:
    [|a - b| <= atol + rtol * |b|]; equal infinities are close, NaN is
    close to nothing. *)
Definition rtol : Q := 1 # 100000.
Definition atol : Q := 1 # 100000000.

Definition isclose (a b : fl) : bool :=
  match a, b with
  | Fin x, Fin y => Qle_bool (Qabs (x - y)) (atol + rtol * Qabs y)
  | NInf, NInf | PInf, PInf => true
  | _, _ => false
  end.

(** The order that [np.sort] and [np.argsort] use: NaN goes last. *)
Definition sort_le (a b : fl) : bool :=
  match a, b with
  | _, NaN => true
  | NaN, _ => false
  | _, _ => fle a b
  end.

(** Equality of values up to the representation of the rational. *)
Definition fequiv (a b : fl) : Prop :=
  match a, b with
  | NaN, NaN | NInf, NInf | PInf, PInf => True
  | Fin x, Fin y => x == y
  | _, _ => False
  end.

Definition of_nat (n : nat) : fl := Fin (inject_Z (Z.of_nat n)).
Definition of_Z (z : Z) : fl := Fin (inject_Z z).

Definition isfinite (a : fl) : bool :=
  match a with Fin _ => true | _ => false end.

(** *** Rounding

    A float64 operation returns its exact result rounded by [rnd]. *)

Definition round_fl (rnd : Q -> Q) (a : fl) : fl :=
  match a with Fin q => Fin (rnd q) | _ => a end.

Definition rounded (rnd : Q -> Q) (op : fl -> fl -> fl) (a b : fl) : fl :=
  round_fl rnd (op a b).

(** Arithmetic without rounding. *)
Definition exact (q : Q) : Q := q.

(** To the nearest integer, a tie to the even one. *)
Definition round_half_even (q : Q) : Z :=
  let f := Qfloor q in
  let r := q - inject_Z f in
  if Qltb r (1 # 2) then f
  else if Qltb (1 # 2) r then (f + 1)%Z
  else if Z.even f then f else (f + 1)%Z.

(** IEEE 754 binary64, round to nearest, ties to even: the value is
    scaled by a power of two [2 ^ e] so that its significand lies in
    [2 ^ 52, 2 ^ 53), and the significand is rounded to an integer.  The
    exponent range is not modelled (no overflow to an infinity, no
    subnormal numbers). *)
Definition binary64_exponent (q : Q) : Z :=
  let e0 := (Z.log2 (Z.abs (Qnum q)) - Z.log2 (Zpos (Qden q)) - 52)%Z in
  if Qltb (Qabs q * 2 ^ (- e0)) (2 ^ 52) then (e0 - 1)%Z else e0.

Definition binary64 (q : Q) : Q :=
  if Qeq_bool q 0 then 0
  else
    let e := binary64_exponent q in
    inject_Z (round_half_even (q * 2 ^ (- e))) * 2 ^ e.

(** [np.isclose(a, b)] as float64 computes it: the difference, the
    product and the sum are rounded, and so are the literals [1e-05]
    and [1e-08]. *)
Definition isclose_rounded (rnd : Q -> Q) (a b : fl) : bool :=
  match a, b with
  | Fin x, Fin y =>
      Qle_bool (Qabs (rnd (x - y)))
               (rnd (rnd atol + rnd (rnd rtol * Qabs y)))
  | NInf, NInf | PInf, PInf => true
  | _, _ => false
  end.

End Float.
Export Float.

Declare Scope fl_scope.
Delimit Scope fl_scope with fl.
Bind Scope fl_scope with fl.
Infix "+" := fadd : fl_scope.
Infix "-" := fsub : fl_scope.
Infix "*" := fmul : fl_scope.
Infix "/" := fdiv : fl_scope.
Infix "<=?" := fle (at level 70) : fl_scope.
Infix "<?" := flt (at level 70) : fl_scope.
Infix ">=?" := fge (at level 70) : fl_scope.
Infix ">?" := fgt (at level 70) : fl_scope.
Infix "==?" := feq (at level 70) : fl_scope.

(** ** Exceptions *)

Inductive error : Set :=
| InputRangeError (series : string)
    (* ValueError: Values of <series> lie outside the reasonable physical range *)
| ModeError
    (* ValueError: ISIMIP not in running window mode requires time information *)
| ShapeError
    (* ValueError: operands or mask assignment of mismatching shape *)
| UnboundLocalError (name : string)
| NanToIntegerError
    (* ValueError: cannot convert float NaN to integer *)
| OverflowError
    (* OverflowError: cannot convert float infinity to integer *)
| NoneTypeError
    (* an array operation applied to None *)
| FitError.
    (* whatever distribution.fit raises *)

Inductive result (A : Type) : Type :=
| Ok (a : A)
| Raise (e : error).
Arguments Ok {A} a.
Arguments Raise {A} e.

Definition bind {A B} (r : result A) (k : A -> result B) : result B :=
  match r with
  | Ok a => k a
  | Raise e => Raise e
  end.

Notation "x <- c ;; k" := (bind c (fun x => k))
  (at level 61, c at next level, right associativity).
Notation "' p <- c ;; k" := (bind c (fun x => let p := x in k))
  (at level 61, p pattern, c at next level, right associativity).

(** ** numpy arrays as lists *)

Module NP.

Section Generic.
Context {A : Type}.

Definition count_true (m : list bool) : nat := length (filter id m).

(** [x[mask]] *)
Definition mask_select (m : list bool) (x : list A) : list A :=
  map snd (filter fst (combine m x)).

(** [x[mask] = c] for a scalar [c] *)
Definition mask_fill (m : list bool) (c : A) (x : list A) : list A :=
  map (fun bv : bool * A => if fst bv then c else snd bv) (combine m x).

Fixpoint scatter (m : list bool) (v x : list A) : list A :=
  match m, x with
  | b :: m', a :: x' =>
      if b then
        match v with
        | w :: v' => w :: scatter m' v' x'
        | [] => a :: scatter m' [] x'
        end
      else a :: scatter m' v x'
  | _, _ => []
  end.

(** [x[mask] = v] for an array [v]: as many values as the mask has
    true entries, or one value that is broadcast; anything else is
    numpy's shape-mismatch ValueError. *)
Definition mask_assign (m : list bool) (v x : list A) : result (list A) :=
  if Nat.eqb (length v) (count_true m) then Ok (scatter m v x)
  else
    match v with
    | [c] => Ok (mask_fill m c x)
    | _ => Raise ShapeError
    end.

(** [x[idx]] for an integer index array *)
Definition take (d : A) (x : list A) (idx : list nat) : list A :=
  map (fun i => nth i x d) idx.

(** [np.repeat(x, n)] *)
Definition np_repeat (x : list A) (n : nat) : list A :=
  flat_map (fun a => repeat a n) x.

(** Python slice bounds: a negative index counts from the end, and
    both ends are clipped to the array. *)
Definition slice_index (n : nat) (i : Z) : nat :=
  if (i <? 0)%Z then Z.to_nat (Z.max (i + Z.of_nat n) 0)
  else Nat.min (Z.to_nat i) n.

(** [x[start:stop] = c] *)
Definition slice_fill (start stop : nat) (c : A) (x : list A) : list A :=
  map (fun kv : nat * A =>
         if Nat.leb start (fst kv) && Nat.ltb (fst kv) stop then c
         else snd kv)
      (combine (seq 0 (length x)) x).
End Generic.

Section Sorting.
Context {T : Type}.
Variable le : T -> T -> bool.

Fixpoint insert (a : T) (l : list T) : list T :=
  match l with
  | [] => [a]
  | b :: l' => if le a b then a :: l else b :: insert a l'
  end.

Definition isort (l : list T) : list T := fold_right insert [] l.
End Sorting.

(** The index array that sorts [x]: the indices, sorted by the value
    they point to.  Ties keep their input order (numpy leaves the order
    of ties to the sort kind). *)
Definition argsort_by {A} (le : A -> A -> bool) (x : list A) : list nat :=
  map snd
      (isort (fun a b : A * nat => le (fst a) (fst b))
             (combine x (seq 0 (length x)))).

(** [np.sort]: the sorted values do not depend on the sort kind. *)
Definition np_sort (x : list fl) : list fl := isort sort_le x.

(** A stable [np.argsort] of floats. *)
Definition stable_argsort (x : list fl) : list nat := argsort_by sort_le x.

(** [np.argsort] of an integer index array.  Step 6 applies it to a
    permutation of the indices, which has no ties. *)
Definition argsort_idx (p : list nat) : list nat := argsort_by Nat.leb p.

Fixpoint nat_list_eqb (a b : list nat) : bool :=
  match a, b with
  | [], [] => true
  | i :: a', j :: b' => Nat.eqb i j && nat_list_eqb a' b'
  | _, _ => false
  end.

Fixpoint sortedb (x : list fl) : bool :=
  match x with
  | a :: (b :: _) as x' => sort_le a b && sortedb x'
  | _ => true
  end.

(** What [np.argsort(x)] returns, whatever the sort kind: a permutation
    [p] of the indices of [x] such that [x[p]] is sorted. *)
Definition is_argsort (x : list fl) (p : list nat) : bool :=
  nat_list_eqb (isort Nat.leb p) (seq 0 (length x))
  && sortedb (map (fun i => nth i x NaN) p).

Fixpoint map2 {A B C} (f : A -> B -> C) (x : list A) (y : list B) : list C :=
  match x, y with
  | a :: x', b :: y' => f a b :: map2 f x' y'
  | _, _ => []
  end.

(** An elementwise binary operation with numpy's broadcasting of 1-D
    operands: equal lengths, or one operand of length one. *)
Definition broadcast (f : fl -> fl -> fl) (x y : list fl) : result (list fl) :=
  if Nat.eqb (length x) (length y) then Ok (map2 f x y)
  else if Nat.eqb (length y) 1 then Ok (map (fun a => f a (hd NaN y)) x)
  else if Nat.eqb (length x) 1 then Ok (map (f (hd NaN x)) y)
  else Raise ShapeError.

Definition np_sum (x : list fl) : fl := fold_left fadd x (Fin 0).

(** [np.mean]: NaN on an empty array. *)
Definition np_mean (x : list fl) : fl :=
  (np_sum x / of_nat (length x))%fl.

(** [np.arange(n)] *)
Definition arange (n : nat) : list nat := seq 0 n.

(** Python's [round] on a float64: to the nearest integer, a tie to the
    even one; NaN and the infinities raise. *)
Definition py_round (a : fl) : result Z :=
  match a with
  | NaN => Raise NanToIntegerError
  | NInf | PInf => Raise OverflowError
  | Fin q => Ok (round_half_even q)
  end.

End NP.
Export NP.

(** ** Log-odds

    [scipy.special.logit] of a probability is the logarithm of a
    rational, and step 6 only adds, subtracts and compares such values
    before mapping them back with [expit].  A log-odds value is kept as
    the rational whose logarithm it is, which keeps the arithmetic
    exact. *)

Module LogOdds.

Inductive lg : Set :=
| LNaN
| LNInf                (* log 0 *)
| Log (odds : Q)       (* log odds, 0 < odds *)
| LPInf.

Definition logit (p : fl) : lg :=
  match p with
  | Fin x =>
      if Qeq_bool x 0 then LNInf
      else if Qeq_bool x 1 then LPInf
      else if Qltb 0 x && Qltb x 1 then Log (x / (1 - x))
      else LNaN
  | _ => LNaN
  end.

Definition expit (l : lg) : fl :=
  match l with
  | LNaN => NaN
  | LNInf => Fin 0
  | Log o => Fin (o / (1 + o))
  | LPInf => Fin 1
  end.

(** [np.log(10)] and its negation *)
Definition log10 : lg := Log 10.
Definition lneg (l : lg) : lg :=
  match l with
  | LNaN => LNaN
  | LNInf => LPInf
  | Log o => Log (/ o)
  | LPInf => LNInf
  end.

Definition ladd (a b : lg) : lg :=
  match a, b with
  | LNaN, _ | _, LNaN => LNaN
  | LPInf, LNInf | LNInf, LPInf => LNaN
  | LPInf, _ | _, LPInf => LPInf
  | LNInf, _ | _, LNInf => LNInf
  | Log x, Log y => Log (x * y)
  end.

Definition lsub (a b : lg) : lg := ladd a (lneg b).

Definition lle (a b : lg) : bool :=
  match a, b with
  | LNaN, _ | _, LNaN => false
  | LNInf, _ => true
  | _, LPInf => true
  | Log x, Log y => Qle_bool x y
  | _, _ => false
  end.

Definition lmin (a b : lg) : lg :=
  match a, b with
  | LNaN, _ | _, LNaN => LNaN
  | _, _ => if lle a b then a else b
  end.

Definition lmax (a b : lg) : lg :=
  match a, b with
  | LNaN, _ | _, LNaN => LNaN
  | _, _ => if lle a b then b else a
  end.

End LogOdds.
Export LogOdds.

(** ** Collaborators outside the class *)

(** The [fit] / [cdf] / [ppf] interface of the [distribution] field
    (a scipy distribution or a [StatisticalModel]); [fit] returns the
    fitted parameters, or nothing when it raises; [cdf] and [ppf] act
    elementwise on arrays. *)
Record Distribution : Type := mkDistribution {
  params : Type;
  fit : list fl -> option params;
  cdf : params -> fl -> fl;
  ppf : params -> fl -> fl
}.

(** What step 3 reads off [scipy.stats.linregress]. *)
Record LinregressResult : Set := mkLinregress {
  slope : fl;
  pvalue : fl
}.

(** A call [distribution.fit(x)]. *)
Definition distribution_fit (D : Distribution) (x : list fl) : result (params D) :=
  match fit D x with
  | Some theta => Ok theta
  | None => Raise FitError
  end.

(** ** Configuration: the attributes of the class *)

Inductive TrendMethod : Set := additive | multiplicative | mixed | bounded.

Record ISIMIP : Type := mkISIMIP {
  distribution : Distribution;
  trend_preservation_method : TrendMethod;
  detrending : bool;
  reasonable_physical_range : option (fl * fl);
  variable : string;
  lower_bound : fl;
  lower_threshold : fl;
  upper_bound : fl;
  upper_threshold : fl;
  trend_removal_with_significance_test : bool;
  trend_transfer_only_for_values_within_threshold : bool;
  event_likelihood_adjustment : bool;
  ecdf_method : string;
  iecdf_method : string;
  running_window_mode : bool;
  running_window_length : positive;
  running_window_step_length : positive
}.

Definition has_lower_threshold (self : ISIMIP) : bool :=
  (lower_threshold self >? NInf)%fl.
Definition has_lower_bound (self : ISIMIP) : bool :=
  (lower_bound self >? NInf)%fl.
Definition has_upper_threshold (self : ISIMIP) : bool :=
  (upper_threshold self <? PInf)%fl.
Definition has_upper_bound (self : ISIMIP) : bool :=
  (upper_bound self <? PInf)%fl.

Definition _get_mask_for_values_beyond_lower_threshold
    (self : ISIMIP) (x : list fl) : list bool :=
  map (fun v => (v <=? lower_threshold self)%fl) x.

Definition _get_mask_for_values_beyond_upper_threshold
    (self : ISIMIP) (x : list fl) : list bool :=
  map (fun v => (v >=? upper_threshold self)%fl) x.

Definition _get_mask_for_values_between_thresholds
    (self : ISIMIP) (x : list fl) : list bool :=
  map (fun v => (v >? lower_threshold self)%fl && (v <? upper_threshold self)%fl) x.

Definition _get_values_between_thresholds (self : ISIMIP) (x : list fl) : list fl :=
  mask_select (_get_mask_for_values_between_thresholds self x) x.

Definition outside_range (lo hi : fl) (v : fl) : bool :=
  (v <? lo)%fl || (v >? hi)%fl.

Definition _check_reasonable_physical_range
    (self : ISIMIP) (obs_hist cm_hist cm_future : list fl) : result unit :=
  match reasonable_physical_range self with
  | None => Ok tt
  | Some (lo, hi) =>
      if existsb (outside_range lo hi) obs_hist
      then Raise (InputRangeError "obs_hist")
      else if existsb (outside_range lo hi) cm_hist
      then Raise (InputRangeError "cm_hist")
      else if existsb (outside_range lo hi) cm_future
      then Raise (InputRangeError "cm_future")
      else Ok tt
  end.

(** ** Helpers of [utils], which is not among the sources *)

(** Modelled from the spec: [utils.get_chunked_mean] is missing; the
    spec partitions the series into fixed-length chunks of [n] samples
    (the last one may be shorter) and takes the mean of each chunk. *)
Definition get_chunked_mean (x : list fl) (n : nat) : list fl :=
  map (fun c => np_mean (firstn n (skipn (c * n) x)))
      (seq 0 ((length x + n - 1) / n)).

Fixpoint dedup (l : list Z) : list Z :=
  match l with
  | [] => []
  | a :: l' =>
      match l' with
      | [] => [a]
      | b :: _ => if Z.eqb a b then dedup l' else a :: dedup l'
      end
  end.

(** Modelled from the spec: [utils.get_yearly_mean] is missing; the
    spec partitions the series by the provided year labels and takes
    the mean of each year, in the order of the years. *)
Definition get_yearly_mean (x : list fl) (years : list Z) : list fl :=
  map (fun y => np_mean (mask_select (map (Z.eqb y) years) x))
      (dedup (isort Z.leb years)).

(** Modelled from the spec: [utils.sort_array_like_another_one] is
    missing; the spec re-assigns the sorted samples [x] so that they
    have the relative rank order of [y]. *)
Definition sort_array_like_another_one (x y : list fl) : list fl :=
  take NaN (np_sort x) (argsort_idx (stable_argsort y)).

(** Modelled from the spec: [utils.threshold_cdf_vals] is missing; the
    spec clamps cdf values away from exactly 0 and 1.  The margin is a
    parameter. *)
Definition threshold_cdf_vals (cdf_threshold : Q) (cdf_vals : list fl) : list fl :=
  map (fun c => fmax (fmin c (Fin (1 - cdf_threshold))) (Fin cdf_threshold))
      cdf_vals.

Definition interp_at (vals : list fl) (t : Q) : fl :=
  let j := Z.to_nat (Qfloor t) in
  let frac := t - inject_Z (Qfloor t) in
  if Nat.ltb (S j) (length vals)
  then (nth j vals NaN + Fin frac * (nth (S j) vals NaN - nth j vals NaN))%fl
  else nth (length vals - 1) vals NaN.

(** Modelled from the spec: [utils.interp_sorted_cdf_vals_on_given_length]
    is missing; the spec interpolates the sorted cdf values onto the
    given length by position-proportional (linear) interpolation: the
    first and last values are kept and the positions in between are
    evenly spaced. *)
Definition interp_sorted_cdf_vals_on_given_length
    (cdf_vals : list fl) (given_length : nat) : list fl :=
  map (fun i =>
         interp_at cdf_vals
           (if Nat.eqb given_length 1 then 0
            else inject_Z (Z.of_nat i)
                 * inject_Z (Z.of_nat (length cdf_vals) - 1)
                 / inject_Z (Z.of_nat given_length - 1)))
      (seq 0 given_length).

(** ** The methods of the class *)

Section Methods.

(** [utils.ecdf(x, y, method)] and [utils.iecdf(x, p, method)]: the
    empirical cdf of the sample [x] at a point, and its inverse at a
    probability; both are applied elementwise.  [None] is the default
    method. *)
Variable ecdf : string -> list fl -> fl -> fl.
Variable iecdf : option string -> list fl -> fl -> fl.

(** [np.cos] and [np.pi] *)
Variable cos : fl -> fl.
Variable pi : fl.

(** [scipy.stats.linregress(x, y)] *)
Variable linregress : list fl -> list fl -> LinregressResult.

(** The shared generator behind [np.random.uniform(low, high, size)] *)
Variable Rng : Type.
Variable uniform : Rng -> fl -> fl -> nat -> list fl * Rng.

(** Time labels with [utils.month] and [utils.year] *)
Variable Time : Type.
Variable month : Time -> Z.
Variable year : Time -> Z.

(** The rounding of float64 arithmetic *)
Variable rnd : Q -> Q.

(** [np.argsort] on floats *)
Variable argsort : list fl -> list nat.

(** The margin of [utils.threshold_cdf_vals] *)
Variable cdf_threshold : Q.

Variable self : ISIMIP.

Definition _step3_remove_trend (x : list fl) (years : option (list Z))
  : result (list fl * list fl) :=
  let annual_means :=
    match years with
    | None => get_chunked_mean x (Pos.to_nat (running_window_length self))
    | Some years => get_yearly_mean x years
    end in
  let years := arange (length annual_means) in
  let regression := linregress (map of_nat years) annual_means in
  let annual_trend :=
    if (pvalue regression <? Fin (5 # 100))%fl
       && trend_removal_with_significance_test self
    then map (fun y => (slope regression
                        * (of_nat y - np_mean (map of_nat years)))%fl) years
    else repeat (Fin 0) (length years) in
  let trend :=
    firstn (length x)
           (np_repeat annual_trend (Pos.to_nat (running_window_length self))) in
  x <- broadcast fsub x trend ;;
  Ok (x, trend).

Definition delta_mult_of (q_cm_hist q_cm_future : list fl) : list fl :=
  let delta_star_mult :=
    map2 (fun h f => if (h ==? Fin 0)%fl then Fin 1 else (f / h)%fl)
         q_cm_hist q_cm_future in
  map (fun d => fmax (Fin (1 # 100)) (fmin (Fin 100) d)) delta_star_mult.

Definition _step5_transfer_trend (obs_hist cm_hist cm_future : list fl)
  : result (list fl) :=
  let p := map (ecdf (ecdf_method self) obs_hist) obs_hist in
  let q_obs_hist := obs_hist in
  let q_cm_future := map (iecdf (Some (iecdf_method self)) cm_future) p in
  let q_cm_hist := map (iecdf (Some (iecdf_method self)) cm_hist) p in
  match trend_preservation_method self with
  | additive =>
      let delta_add := map2 fsub q_cm_future q_cm_hist in
      Ok (map2 fadd obs_hist delta_add)
  | multiplicative =>
      let delta_mult := delta_mult_of q_cm_hist q_cm_future in
      Ok (map2 fmul obs_hist delta_mult)
  | mixed =>
      let condition1 := map2 fge q_cm_hist q_obs_hist in
      let condition2 :=
        map2 (fun h o => (h <? o)%fl && (o <? Fin 9 * h)%fl)
             q_cm_hist q_obs_hist in
      let gamma := repeat (Fin 0) (length obs_hist) in
      let gamma := mask_fill condition1 (Fin 1) gamma in
      gamma <-
        mask_assign condition2
          (map2 (fun o h =>
                   (Fin (1 # 2)
                    * (Fin 1 + cos (o / h - Fin 1) * pi / Fin 8))%fl)
                (mask_select condition2 q_obs_hist)
                (mask_select condition2 q_cm_hist))
          gamma ;;
      let delta_add := map2 fsub q_cm_future q_cm_hist in
      let delta_mult := delta_mult_of q_cm_hist q_cm_future in
      Ok (map2 fadd
            (map2 fmul (map2 fmul gamma obs_hist) delta_mult)
            (map2 fmul (map (fun g => (Fin 1 - g)%fl) gamma)
                       (map2 fadd obs_hist delta_add)))
  | bounded =>
      let a := lower_bound self in
      let b := upper_bound self in
      let condition1 := map2 fgt q_cm_hist q_cm_future in
      let condition2 := map2 isclose q_cm_hist q_cm_future in
      let return_vals :=
        map2 (fun o hf => (b - (b - o) * (b - snd hf) / (b - fst hf))%fl)
             obs_hist (combine q_cm_hist q_cm_future) in
      return_vals <-
        mask_assign condition1
          (map2 (fun o hf => (a + (o - a) * (snd hf - a) / (fst hf - a))%fl)
                (mask_select condition1 obs_hist)
                (combine (mask_select condition1 q_cm_hist)
                         (mask_select condition1 q_cm_future)))
          return_vals ;;
      mask_assign condition2 (mask_select condition2 obs_hist) return_vals
  end.

(** The float64 operations of the count of step 6 *)
Local Abbreviation radd := (rounded rnd fadd).
Local Abbreviation rsub := (rounded rnd fsub).
Local Abbreviation rmul := (rounded rnd fmul).
Local Abbreviation rdiv := (rounded rnd fdiv).

Definition _step6_calculate_percent_values_beyond_threshold
    (mask_for_values_beyond_threshold : list bool) : fl :=
  rdiv (of_nat (count_true mask_for_values_beyond_threshold))
       (of_nat (length mask_for_values_beyond_threshold)).

Definition _step6_get_P_obs_future (P_obs_hist P_cm_hist P_cm_future : fl) : fl :=
  if isclose_rounded rnd P_cm_hist P_obs_hist then P_cm_future
  else if (P_cm_future <=? P_cm_hist)%fl && (P_cm_hist >? P_obs_hist)%fl
  then rdiv (rmul P_obs_hist P_cm_future) P_cm_hist
  else if (P_cm_future >=? P_cm_hist)%fl && (P_cm_hist <? P_obs_hist)%fl
  then rsub (Fin 1)
            (rdiv (rmul (rsub (Fin 1) P_obs_hist) (rsub (Fin 1) P_cm_future))
                  (rsub (Fin 1) P_cm_hist))
  else rsub (radd P_obs_hist P_cm_future) P_cm_hist.

Definition _step6_get_nr_of_entries_to_set_to_bound
    (mask_for_values_beyond_threshold_obs_hist_sorted
     mask_for_values_beyond_threshold_cm_hist_sorted
     mask_for_values_beyond_threshold_cm_future_sorted : list bool)
  : result Z :=
  let P_obs_hist :=
    _step6_calculate_percent_values_beyond_threshold
      mask_for_values_beyond_threshold_obs_hist_sorted in
  let P_cm_hist :=
    _step6_calculate_percent_values_beyond_threshold
      mask_for_values_beyond_threshold_cm_hist_sorted in
  let P_cm_future :=
    _step6_calculate_percent_values_beyond_threshold
      mask_for_values_beyond_threshold_cm_future_sorted in
  let P_obs_future := _step6_get_P_obs_future P_obs_hist P_cm_hist P_cm_future in
  py_round
    (rmul (of_nat (length mask_for_values_beyond_threshold_cm_future_sorted))
          P_obs_future).

Definition _step6_transform_nr_of_entries_to_set_to_lower_bound_to_mask_for_cm_future
    (nr : Z) (cm_future_sorted : list fl) : list bool :=
  let n := length cm_future_sorted in
  let mask := repeat false n in
  slice_fill (slice_index n 0) (slice_index n nr) true mask.

Definition _step6_get_mask_for_entries_to_set_to_lower_bound
    (obs_hist_sorted cm_hist_sorted cm_future_sorted : list fl)
  : result (list bool) :=
  nr_of_entries_to_set_to_lower_bound <-
    _step6_get_nr_of_entries_to_set_to_bound
      (_get_mask_for_values_beyond_lower_threshold self obs_hist_sorted)
      (_get_mask_for_values_beyond_lower_threshold self cm_hist_sorted)
      (_get_mask_for_values_beyond_lower_threshold self cm_future_sorted) ;;
  Ok (_step6_transform_nr_of_entries_to_set_to_lower_bound_to_mask_for_cm_future
        nr_of_entries_to_set_to_lower_bound cm_future_sorted).

Definition _step6_transform_nr_of_entries_to_set_to_upper_bound_to_mask_for_cm_future
    (nr : Z) (cm_future_sorted : list fl) : list bool :=
  let n := length cm_future_sorted in
  let mask := repeat false n in
  slice_fill (slice_index n (Z.of_nat n - nr)) n true mask.

Definition _step6_get_mask_for_entries_to_set_to_upper_bound
    (obs_hist_sorted cm_hist_sorted cm_future_sorted : list fl)
  : result (list bool) :=
  nr_of_entries_to_set_to_upper_bound <-
    _step6_get_nr_of_entries_to_set_to_bound
      (_get_mask_for_values_beyond_upper_threshold self obs_hist_sorted)
      (_get_mask_for_values_beyond_upper_threshold self cm_hist_sorted)
      (_get_mask_for_values_beyond_upper_threshold self cm_future_sorted) ;;
  Ok (_step6_transform_nr_of_entries_to_set_to_upper_bound_to_mask_for_cm_future
        nr_of_entries_to_set_to_upper_bound cm_future_sorted).

Definition _step6_adjust_values_between_thresholds
    (obs_hist_sorted obs_future_sorted cm_hist_sorted cm_future_sorted : list fl)
  : result (list fl) :=
  let D := distribution self in
  fit_cm_future <- distribution_fit D cm_future_sorted ;;
  fit_obs_hist <- distribution_fit D obs_hist_sorted ;;
  fit_obs_future <- distribution_fit D obs_future_sorted ;;
  fit_cm_hist <- distribution_fit D cm_hist_sorted ;;
  let cdf_vals_cm_future :=
    threshold_cdf_vals cdf_threshold (map (cdf D fit_cm_future) cm_future_sorted) in
  let cdf_vals_obs_hist :=
    interp_sorted_cdf_vals_on_given_length
      (threshold_cdf_vals cdf_threshold (map (cdf D fit_obs_hist) obs_hist_sorted))
      (length cdf_vals_cm_future) in
  let cdf_vals_cm_hist :=
    interp_sorted_cdf_vals_on_given_length
      (threshold_cdf_vals cdf_threshold (map (cdf D fit_cm_hist) cm_hist_sorted))
      (length cdf_vals_cm_future) in
  if negb (event_likelihood_adjustment self) then
    Ok (map (ppf D fit_obs_future) cdf_vals_cm_future)
  else
    let L_obs_hist := map logit cdf_vals_obs_hist in
    let L_cm_hist := map logit cdf_vals_cm_hist in
    let L_cm_future := map logit cdf_vals_cm_future in
    let delta_log_odds :=
      map2 (fun f h => lmax (lneg log10) (lmin log10 (lsub f h)))
           L_cm_future L_cm_hist in
    Ok (map (ppf D fit_obs_future)
            (map expit (map2 ladd L_obs_hist delta_log_odds))).

(** *** The eight steps *)

Definition step1 (obs_hist cm_hist cm_future : list fl)
  : list fl * list fl * list fl * option fl :=
  let scale := None in
  (obs_hist, cm_hist, cm_future, scale).

Definition impute (rng : Rng) (x : list fl) : list fl * Rng :=
  let (u, rng) := uniform rng (Fin 0) (Fin 1) (length x) in
  (map2 (fun v p => if isnan v then iecdf None x p else v) x u, rng).

Definition step2 (rng : Rng) (obs_hist cm_hist cm_future : list fl)
  : list fl * list fl * list fl * Rng :=
  if String.eqb (variable self) "prsnratio" then
    let (obs_hist, rng) := impute rng obs_hist in
    let (cm_hist, rng) := impute rng cm_hist in
    let (cm_future, rng) := impute rng cm_future in
    (obs_hist, cm_hist, cm_future, rng)
  else (obs_hist, cm_hist, cm_future, rng).

Definition step3 (obs_hist cm_hist cm_future : list fl)
    (years_obs_hist years_cm_hist years_cm_future : option (list Z))
  : result (list fl * list fl * list fl * list fl) :=
  let trend_cm_future := repeat (Fin 0) (length cm_future) in
  if detrending self then
    '(obs_hist, _) <- _step3_remove_trend obs_hist years_obs_hist ;;
    '(cm_hist, _) <- _step3_remove_trend cm_hist years_cm_hist ;;
    '(cm_future, trend_cm_future) <-
      _step3_remove_trend cm_future years_cm_future ;;
    Ok (obs_hist, cm_hist, cm_future, trend_cm_future)
  else Ok (obs_hist, cm_hist, cm_future, trend_cm_future).

(** Step 4 writes into [cm_future] in place and returns it.  The
    local [mask_cm_future_values_beyond_lower_threshold] is bound by
    the lower branch only; the state after that branch carries it as
    an option. *)
Definition step4 (rng : Rng) (cm_future : list fl) : result (list fl * Rng) :=
  '(cm_future, mask_cm_future_values_beyond_lower_threshold, rng) <-
    (if has_lower_bound self && has_lower_threshold self then
       let mask_cm_future_values_beyond_lower_threshold :=
         _get_mask_for_values_beyond_lower_threshold self cm_future in
       let (u, rng) :=
         uniform rng (lower_bound self) (lower_threshold self)
                 (count_true mask_cm_future_values_beyond_lower_threshold) in
       let randomised_values_between_threshold_and_bound := np_sort u in
       cm_future <-
         mask_assign mask_cm_future_values_beyond_lower_threshold
           (sort_array_like_another_one
              randomised_values_between_threshold_and_bound
              (mask_select mask_cm_future_values_beyond_lower_threshold cm_future))
           cm_future ;;
       Ok (cm_future, Some mask_cm_future_values_beyond_lower_threshold, rng)
     else Ok (cm_future, None, rng)) ;;
  if has_upper_bound self && has_upper_threshold self then
    let mask_cm_future_values_beyond_upper_threshold :=
      _get_mask_for_values_beyond_upper_threshold self cm_future in
    let (u, rng) :=
      uniform rng (upper_threshold self) (upper_bound self)
              (count_true mask_cm_future_values_beyond_upper_threshold) in
    let randomised_values_between_threshold_and_bound := np_sort u in
    match mask_cm_future_values_beyond_lower_threshold with
    | None =>
        Raise (UnboundLocalError "mask_cm_future_values_beyond_lower_threshold")
    | Some mask_cm_future_values_beyond_lower_threshold =>
        cm_future <-
          mask_assign mask_cm_future_values_beyond_lower_threshold
            (sort_array_like_another_one
               randomised_values_between_threshold_and_bound
               (mask_select mask_cm_future_values_beyond_upper_threshold cm_future))
            cm_future ;;
        Ok (cm_future, rng)
    end
  else Ok (cm_future, rng).

(** Step 5 returns a pair: what the Python call returns ([None] when
    the function ends without a [return]) and the array [obs_hist]
    after the call, which the second branch writes into through the
    alias [obs_future]. *)
Definition step5 (obs_hist cm_hist cm_future : list fl)
  : result (option (list fl) * list fl) :=
  if trend_transfer_only_for_values_within_threshold self then
    r <- _step5_transfer_trend obs_hist cm_hist cm_future ;;
    Ok (Some r, obs_hist)
  else
    let mask_for_values_between_thresholds_obs_hist :=
      _get_mask_for_values_between_thresholds self obs_hist in
    let obs_future := obs_hist in
    v <- _step5_transfer_trend
           (mask_select mask_for_values_between_thresholds_obs_hist obs_hist)
           (_get_values_between_thresholds self cm_hist)
           (_get_values_between_thresholds self cm_future) ;;
    obs_future <-
      mask_assign mask_for_values_between_thresholds_obs_hist v obs_future ;;
    Ok (None, obs_future).

Definition step6 (obs_hist : list fl) (obs_future : option (list fl))
    (cm_hist cm_future : list fl) : result (list fl) :=
  let cm_future_argsort := argsort cm_future in
  let cm_future_sorted := take NaN cm_future cm_future_argsort in
  let obs_hist_sorted := np_sort obs_hist in
  obs_future_sorted <-
    match obs_future with
    | Some obs_future => Ok (np_sort obs_future)
    | None => Raise NoneTypeError
    end ;;
  let cm_hist_sorted := np_sort cm_hist in
  mask_for_entries_to_set_to_lower_bound <-
    (if has_lower_threshold self then
       _step6_get_mask_for_entries_to_set_to_lower_bound
         obs_hist_sorted cm_hist_sorted cm_future_sorted
     else Ok (repeat false (length cm_future_sorted))) ;;
  mask_for_entries_to_set_to_upper_bound <-
    (if has_upper_threshold self then
       _step6_get_mask_for_entries_to_set_to_upper_bound
         obs_hist_sorted cm_hist_sorted cm_future_sorted
     else Ok (repeat false (length cm_future_sorted))) ;;
  let cm_future_sorted :=
    mask_fill mask_for_entries_to_set_to_lower_bound (lower_bound self)
              cm_future_sorted in
  let cm_future_sorted :=
    mask_fill mask_for_entries_to_set_to_upper_bound (upper_bound self)
              cm_future_sorted in
  let mask_for_entries_not_set_to_either_bound :=
    map2 (fun l u => negb l && negb u)
         mask_for_entries_to_set_to_lower_bound
         mask_for_entries_to_set_to_upper_bound in
  mapped_vals <-
    _step6_adjust_values_between_thresholds
      (_get_values_between_thresholds self obs_hist_sorted)
      (_get_values_between_thresholds self obs_future_sorted)
      (_get_values_between_thresholds self cm_hist_sorted)
      (mask_select mask_for_entries_not_set_to_either_bound cm_future_sorted) ;;
  cm_future_sorted <-
    mask_assign mask_for_entries_not_set_to_either_bound mapped_vals
                cm_future_sorted ;;
  let reverse_sorting_idx := argsort_idx cm_future_argsort in
  Ok (take NaN cm_future_sorted reverse_sorting_idx).

Definition step7 (cm_future trend_cm_future : list fl) : result (list fl) :=
  if detrending self then broadcast fadd cm_future trend_cm_future
  else Ok cm_future.

Definition step8 (cm_future : list fl) (scale : option fl) : list fl :=
  cm_future.

Definition _apply_on_window (rng : Rng) (obs_hist cm_hist cm_future : list fl)
    (years_obs_hist years_cm_hist years_cm_future : option (list Z))
  : result (list fl * Rng) :=
  let '(obs_hist, cm_hist, cm_future, scale) :=
    step1 obs_hist cm_hist cm_future in
  let '(obs_hist, cm_hist, cm_future, rng) :=
    step2 rng obs_hist cm_hist cm_future in
  '(obs_hist, cm_hist, cm_future, trend_cm_future) <-
    step3 obs_hist cm_hist cm_future
          years_obs_hist years_cm_hist years_cm_future ;;
  '(cm_future, rng) <- step4 rng cm_future ;;
  '(obs_future, obs_hist) <- step5 obs_hist cm_hist cm_future ;;
  cm_future <- step6 obs_hist obs_future cm_hist cm_future ;;
  cm_future <- step7 cm_future trend_cm_future ;;
  let cm_future := step8 cm_future scale in
  Ok (cm_future, rng).

Definition month_mask (i_month : Z) (time : list Time) : list bool :=
  map (fun t => Z.eqb (month t) i_month) time.

Definition apply_location (rng : Rng) (obs_hist cm_hist cm_future : list fl)
    (time_obs_hist time_cm_hist time_cm_future : option (list Time))
  : result (list fl * Rng) :=
  _ <- _check_reasonable_physical_range self obs_hist cm_hist cm_future ;;
  if running_window_mode self then Ok (cm_future, rng)
  else
    match time_obs_hist, time_cm_hist, time_cm_future with
    | Some time_obs_hist, Some time_cm_hist, Some time_cm_future =>
        let debiased_cm_future := repeat (Fin 0) (length cm_future) in
        fold_left
          (fun (acc : result (list fl * Rng)) (i_month : Z) =>
             '(debiased_cm_future, rng) <- acc ;;
             let mask_i_month_in_obs_hist := month_mask i_month time_obs_hist in
             let mask_i_month_in_cm_hist := month_mask i_month time_cm_hist in
             let mask_i_month_in_cm_future := month_mask i_month time_cm_future in
             '(window, rng) <-
               _apply_on_window rng
                 (mask_select mask_i_month_in_obs_hist obs_hist)
                 (mask_select mask_i_month_in_cm_hist cm_hist)
                 (mask_select mask_i_month_in_cm_future cm_future)
                 (Some (map year (mask_select mask_i_month_in_obs_hist time_obs_hist)))
                 (Some (map year (mask_select mask_i_month_in_cm_hist time_cm_hist)))
                 (Some (map year (mask_select mask_i_month_in_cm_future time_cm_future))) ;;
             debiased_cm_future <-
               mask_assign mask_i_month_in_cm_future window debiased_cm_future ;;
             Ok (debiased_cm_future, rng))
          (map Z.of_nat (seq 1 12))
          (Ok (debiased_cm_future, rng))
    | _, _, _ => Raise ModeError
    end.

End Methods.

(** ** The target-fraction rule in the words of the specification *)

Definition approximately_equal (a b : Q) : bool :=
  Qle_bool (Qabs (a - b)) (atol + rtol * Qabs b).

Definition P_obs_future_rule (P_obs_hist P_cm_hist P_cm_future : Q) : Q :=
  if approximately_equal P_cm_hist P_obs_hist then P_cm_future
  else if Qle_bool P_cm_future P_cm_hist && Qltb P_obs_hist P_cm_hist
  then P_obs_hist * P_cm_future / P_cm_hist
  else if Qle_bool P_cm_hist P_cm_future && Qltb P_cm_hist P_obs_hist
  then 1 - (1 - P_obs_hist) * (1 - P_cm_future) / (1 - P_cm_hist)
  else P_obs_hist + P_cm_future - P_cm_hist.

(** The fraction of true entries of a mask. *)
Definition fraction_beyond (mask : list bool) : Q :=
  inject_Z (Z.of_nat (count_true mask)) / inject_Z (Z.of_nat (length mask)).

(** The same rule and fraction as float64 evaluates them, every
    operation rounded by [rnd]; with [exact] they are the two above. *)
Definition approximately_equal_rounded (rnd : Q -> Q) (a b : Q) : bool :=
  Qle_bool (Qabs (rnd (a - b))) (rnd (rnd atol + rnd (rnd rtol * Qabs b))).

Definition P_obs_future_rule_rounded (rnd : Q -> Q)
    (P_obs_hist P_cm_hist P_cm_future : Q) : Q :=
  if approximately_equal_rounded rnd P_cm_hist P_obs_hist then P_cm_future
  else if Qle_bool P_cm_future P_cm_hist && Qltb P_obs_hist P_cm_hist
  then rnd (rnd (P_obs_hist * P_cm_future) / P_cm_hist)
  else if Qle_bool P_cm_hist P_cm_future && Qltb P_cm_hist P_obs_hist
  then rnd (1 - rnd (rnd (rnd (1 - P_obs_hist) * rnd (1 - P_cm_future))
                     / rnd (1 - P_cm_hist)))
  else rnd (rnd (P_obs_hist + P_cm_future) - P_cm_hist).

Definition fraction_beyond_rounded (rnd : Q -> Q) (mask : list bool) : Q :=
  rnd (fraction_beyond mask).


(** What the properties below need of a rounding: it keeps the sign
    and does not cross 1. *)
Definition keeps_unit_interval (rnd : Q -> Q) : Prop :=
  (forall q, 0 <= q -> 0 <= rnd q)
  /\ (forall q, 0 < q -> 0 < rnd q)
  /\ (forall q, q <= 1 -> rnd q <= 1).

(** ** Concrete collaborators, to run the methods on examples *)

Module Instances.

(** [scipy.stats.uniform]: the fit is [loc = min], [scale = max - min];
    it raises a ValueError on an empty sample and on data that are not
    all finite. *)
Definition uniform_fit (x : list fl) : option (fl * fl) :=
  match x with
  | [] => None
  | a :: l =>
      if forallb isfinite x then
        let lo := fold_left fmin l a in
        let hi := fold_left fmax l a in
        Some (lo, (hi - lo)%fl)
      else None
  end.

Definition uniform_cdf (theta : fl * fl) (x : fl) : fl :=
  let z := ((x - fst theta) / snd theta)%fl in
  if isnan z then NaN
  else if (z <? Fin 0)%fl then Fin 0
  else if (z >? Fin 1)%fl then Fin 1
  else z.

Definition uniform_ppf (theta : fl * fl) (q : fl) : fl :=
  if (Fin 0 <=? q)%fl && (q <=? Fin 1)%fl
  then (fst theta + snd theta * q)%fl
  else NaN.

Definition scipy_uniform : Distribution :=
  mkDistribution (fl * fl) uniform_fit uniform_cdf uniform_ppf.

(** A custom [StatisticalModel]: the uniform distribution centred at the
    sample mean, as wide as twice the range of the sample; the range of
    an empty sample raises. *)
Definition centred_fit (x : list fl) : option (fl * fl) :=
  match x with
  | [] => None
  | a :: l =>
      let w := (fold_left fmax l a - fold_left fmin l a)%fl in
      Some ((np_mean x - w)%fl, (Fin 2 * w)%fl)
  end.

Definition centred_uniform : Distribution :=
  mkDistribution (fl * fl) centred_fit uniform_cdf uniform_ppf.

(** [scipy.stats.linregress] on two points: the line through them, with
    p-value 1 for equal ordinates and 0 otherwise.  Other sizes are not
    covered by this instance. *)
Definition linregress_two_points (x y : list fl) : LinregressResult :=
  match x, y with
  | [x0; x1], [y0; y1] =>
      mkLinregress ((y1 - y0) / (x1 - x0))%fl
                   (if (y0 ==? y1)%fl then Fin 1 else Fin 0)
  | _, _ => mkLinregress NaN NaN
  end.

(** A generator that reads its unit draws off a tape:
    [uniform(low, high, size)] is [low + (high - low) * u]. *)
Definition tape_uniform (rng : list Q) (low high : fl) (size : nat)
  : list fl * list Q :=
  (map (fun u => (low + (high - low) * Fin u)%fl) (firstn size rng),
   skipn size rng).

(** A generator that derives its unit draws from a counter. *)
Definition counter_uniform (rng : nat) (low high : fl) (size : nat)
  : list fl * nat :=
  (map (fun i => (low + (high - low)
                        * Fin (inject_Z (Z.of_nat ((rng + i) mod 7)) / 8))%fl)
       (seq 0 size),
   (rng + size)%nat).

(** The step-function empirical cdf and the inverted-cdf quantile. *)
Definition ecdf_step (_ : string) (x : list fl) (y : fl) : fl :=
  (of_nat (count_true (map (fun v => (v <=? y)%fl) x)) / of_nat (length x))%fl.

Definition iecdf_inverted (_ : option string) (x : list fl) (p : fl) : fl :=
  match (p * of_nat (length x))%fl with
  | Fin k => nth (Z.to_nat (Qceiling k) - 1) (np_sort x) NaN
  | _ => NaN
  end.

(** Rational stand-ins for [np.cos] (a Taylor polynomial) and [np.pi]. *)
Definition cos_poly (a : fl) : fl :=
  (Fin 1 - a * a / Fin 2 + a * a * a * a / Fin 24)%fl.
Definition pi_approx : fl := Fin (355 # 113).

(** Time labels as (year, month). *)
Definition Time : Set := (Z * Z)%type.
Definition month (t : Time) : Z := snd t.
Definition year (t : Time) : Z := fst t.

Definition cdf_threshold : Q := 1 # 10000000000.

(** Unit draws for the examples. *)
Definition tape : list Q := [1 # 4; 3 # 4; 1 # 8; 5 # 8; 1 # 2; 1 # 3].

End Instances.

(** A result that is not the range error of the input check. *)
Definition no_range_error {A} (r : result A) : Prop :=
  forall series, r <> Raise (InputRangeError series).

(** ** Example configurations *)

Module Examples.
Import Instances.

(** An unbounded variable: no threshold and no bound on either side. *)
Definition unbounded : ISIMIP :=
  mkISIMIP scipy_uniform additive false (Some (Fin 0, Fin 100)) "tas"
           NInf NInf PInf PInf true true false
           "step_function" "inverted_cdf" true 31 1.

(** A variable with detrending, with or without the significance test
    of step 3, and with the given window length. *)
Definition detrended (significance_test : bool) (window : positive) : ISIMIP :=
  mkISIMIP scipy_uniform additive true None "tas"
           NInf NInf PInf PInf significance_test true false
           "step_function" "inverted_cdf" true window 1.

(** A variable bounded on both sides: bounds 0 and 10, thresholds 1
    and 9. *)
Definition bounded_both : ISIMIP :=
  mkISIMIP scipy_uniform additive false None "hurs"
           (Fin 0) (Fin 1) (Fin 10) (Fin 9) true true false
           "step_function" "inverted_cdf" true 31 1.

(** A variable bounded above only: no lower bound, no lower threshold. *)
Definition bounded_above : ISIMIP :=
  mkISIMIP scipy_uniform additive false None "hurs"
           NInf NInf (Fin 10) (Fin 9) true true false
           "step_function" "inverted_cdf" true 31 1.

(** Thresholds 1 and 9, and the trend transfer of step 5 not applied
    to every value. *)
Definition transfer_between_thresholds : ISIMIP :=
  mkISIMIP scipy_uniform additive false None "hurs"
           (Fin 0) (Fin 1) (Fin 10) (Fin 9) true false false
           "step_function" "inverted_cdf" true 31 1.

(** An unbounded variable with the event likelihood adjustment of
    step 6 switched on. *)
Definition likelihood_adjusted : ISIMIP :=
  mkISIMIP scipy_uniform additive false None "tas"
           NInf NInf PInf PInf true true true
           "step_function" "inverted_cdf" true 31 1.

(** A variable with the lower bound 7/4 and the lower threshold 9/5,
    unbounded above, fitted with [centred_uniform]. *)
Definition bounded_below : ISIMIP :=
  mkISIMIP centred_uniform additive false None "pr"
           (Fin (7 # 4)) (Fin (9 # 5)) PInf PInf true true false
           "step_function" "inverted_cdf" true 31 1.

(** The defaults of the class for the bound and threshold fields:
    [lower_bound = lower_threshold = inf] and
    [upper_bound = upper_threshold = -inf]. *)
Definition class_defaults : ISIMIP :=
  mkISIMIP scipy_uniform additive false None "unknown"
           PInf PInf NInf NInf true true false
           "step_function" "inverted_cdf" true 31 1.

(** A variable bounded below only: bound 0, threshold 1. *)
Definition bounded_below_only : ISIMIP :=
  mkISIMIP scipy_uniform additive false None "pr"
           (Fin 0) (Fin 1) PInf PInf true true false
           "step_function" "inverted_cdf" true 31 1.

(** The snowfall ratio, whose missing values step 2 imputes. *)
Definition snowfall_ratio : ISIMIP :=
  mkISIMIP scipy_uniform additive false None "prsnratio"
           NInf NInf PInf PInf true true false
           "step_function" "inverted_cdf" true 31 1.

(** An unbounded variable with the given trend preservation method,
    and with the bounds 0 and 10 for the bounded method. *)
Definition with_method (method : TrendMethod) : ISIMIP :=
  mkISIMIP scipy_uniform method false None "hurs"
           (Fin 0) NInf (Fin 10) PInf true true false
           "step_function" "inverted_cdf" true 31 1.

(** Monthly mode for an unbounded variable. *)
Definition monthly (transfer_flag : bool) : ISIMIP :=
  mkISIMIP scipy_uniform additive false None "tas"
           NInf NInf PInf PInf true transfer_flag false
           "step_function" "inverted_cdf" false 31 1.

End Examples.

(** ** Reading results *)

(** A value with its rational in lowest terms. *)
Definition canon (a : fl) : fl :=
  match a with Fin q => Fin (Qred q) | _ => a end.

Definition canon_step3 (r : result (list fl * list fl))
  : result (list fl * list fl) :=
  match r with
  | Ok (x, trend) => Ok (map canon x, map canon trend)
  | Raise e => Raise e
  end.

Definition canon_step4 {Rng} (r : result (list fl * Rng)) : result (list fl) :=
  match r with
  | Ok (x, _) => Ok (map canon x)
  | Raise e => Raise e
  end.

Definition canon_step5 (r : result (option (list fl) * list fl))
  : result (option (list fl) * list fl) :=
  match r with
  | Ok (ret, obs_hist) => Ok (option_map (map canon) ret, map canon obs_hist)
  | Raise e => Raise e
  end.

(** ** Step 6 in two parts

    The masks of the entries that step 6 sets to a bound, and the
    sorted array after its three assignments; [step6] is the first,
    then the second, then the reverse sorting
    ([step6_in_two_parts]). *)

Definition step6_bound_masks (rnd : Q -> Q) (argsort : list fl -> list nat)
    (self : ISIMIP) (obs_hist cm_hist cm_future : list fl)
  : result (list bool * list bool) :=
  let cm_future_sorted := take NaN cm_future (argsort cm_future) in
  mask_for_entries_to_set_to_lower_bound <-
    (if has_lower_threshold self then
       _step6_get_mask_for_entries_to_set_to_lower_bound rnd self
         (np_sort obs_hist) (np_sort cm_hist) cm_future_sorted
     else Ok (repeat false (length cm_future_sorted))) ;;
  mask_for_entries_to_set_to_upper_bound <-
    (if has_upper_threshold self then
       _step6_get_mask_for_entries_to_set_to_upper_bound rnd self
         (np_sort obs_hist) (np_sort cm_hist) cm_future_sorted
     else Ok (repeat false (length cm_future_sorted))) ;;
  Ok (mask_for_entries_to_set_to_lower_bound,
      mask_for_entries_to_set_to_upper_bound).

Definition not_set_to_either_bound (masks : list bool * list bool) : list bool :=
  map2 (fun l u => negb l && negb u) (fst masks) (snd masks).

Definition step6_sorted_output (argsort : list fl -> list nat)
    (cdf_threshold : Q) (self : ISIMIP)
    (obs_hist obs_future cm_hist cm_future : list fl)
    (masks : list bool * list bool) : result (list fl) :=
  let cm_future_sorted := take NaN cm_future (argsort cm_future) in
  let cm_future_sorted := mask_fill (fst masks) (lower_bound self) cm_future_sorted in
  let cm_future_sorted := mask_fill (snd masks) (upper_bound self) cm_future_sorted in
  mapped_vals <-
    _step6_adjust_values_between_thresholds cdf_threshold self
      (_get_values_between_thresholds self (np_sort obs_hist))
      (_get_values_between_thresholds self (np_sort obs_future))
      (_get_values_between_thresholds self (np_sort cm_hist))
      (mask_select (not_set_to_either_bound masks) cm_future_sorted) ;;
  mask_assign (not_set_to_either_bound masks) mapped_vals cm_future_sorted.

(** The sorted rank of the sample at position [i] of [cm_future]. *)
Definition rank_of (argsort : list fl -> list nat) (cm_future : list fl) (i : nat)
  : nat :=
  nth i (argsort_idx (argsort cm_future)) 0%nat.

(** The samples that step 6 fits the distribution to: the entries of
    [cm_future] that are not set to a bound, and the values between the
    thresholds of the other three series. *)
Definition mapped_cm_future (argsort : list fl -> list nat) (self : ISIMIP)
    (cm_future : list fl) (masks : list bool * list bool) : list fl :=
  mask_select (not_set_to_either_bound masks)
    (mask_fill (snd masks) (upper_bound self)
       (mask_fill (fst masks) (lower_bound self)
          (take NaN cm_future (argsort cm_future)))).

Definition fit_cm_future (argsort : list fl -> list nat) (self : ISIMIP)
    (cm_future : list fl) (masks : list bool * list bool)
  : result (params (distribution self)) :=
  distribution_fit (distribution self)
                   (mapped_cm_future argsort self cm_future masks).

Definition fit_between (self : ISIMIP) (x : list fl)
  : result (params (distribution self)) :=
  distribution_fit (distribution self)
                   (_get_values_between_thresholds self (np_sort x)).

Definition fit_obs_future (self : ISIMIP) (obs_future : list fl)
  : result (params (distribution self)) :=
  fit_between self obs_future.

(** Without the event likelihood adjustment step 6 maps every entry on
    its own: through the cdf of the [cm_future] fit, clamped, and the
    ppf of the [obs_future] fit. *)
Definition quantile_map (cdf_threshold : Q) (self : ISIMIP)
    (fit_cf fit_of : params (distribution self)) (v : fl) : fl :=
  ppf (distribution self) fit_of
      (fmax (fmin (cdf (distribution self) fit_cf v) (Fin (1 - cdf_threshold)))
            (Fin cdf_threshold)).

(** ** The trend transfer of step 5, sample by sample

    What [_step5_transfer_trend] computes for one observation [o] with
    the quantiles [h] of [cm_hist] and [f] of [cm_future] at the
    probability of [o] ([transfer_trend_samplewise]). *)

Definition delta_mult_one (h f : fl) : fl :=
  fmax (Fin (1 # 100))
       (fmin (Fin 100) (if (h ==? Fin 0)%fl then Fin 1 else (f / h)%fl)).

Definition transfer_one (cos : fl -> fl) (pi : fl) (self : ISIMIP) (o h f : fl)
  : fl :=
  match trend_preservation_method self with
  | additive => (o + (f - h))%fl
  | multiplicative => (o * delta_mult_one h f)%fl
  | mixed =>
      let gamma :=
        if (h <? o)%fl && (o <? Fin 9 * h)%fl
        then (Fin (1 # 2) * (Fin 1 + cos (o / h - Fin 1) * pi / Fin 8))%fl
        else if (h >=? o)%fl then Fin 1 else Fin 0 in
      (gamma * o * delta_mult_one h f + (Fin 1 - gamma) * (o + (f - h)))%fl
  | bounded =>
      let a := lower_bound self in
      let b := upper_bound self in
      if isclose h f then o
      else if (h >? f)%fl then (a + (o - a) * (f - a) / (h - a))%fl
      else (b - (b - o) * (b - f) / (b - h))%fl
  end.

(** The quantiles that step 5 reads off [cm_hist] or [cm_future] at
    the probabilities of [obs_hist]. *)
Definition transfer_quantiles
    (ecdf : string -> list fl -> fl -> fl)
    (iecdf : option string -> list fl -> fl -> fl)
    (self : ISIMIP) (obs_hist cm : list fl) : list fl :=
  map (iecdf (Some (iecdf_method self)) cm)
      (map (ecdf (ecdf_method self) obs_hist) obs_hist).

(** ** Rank order *)

Definition monotone (f : fl -> fl) : Prop :=
  forall a b, (a <? b)%fl = true -> (f a <=? f b)%fl = true.

Definition monotone_on_unit (f : fl -> fl) : Prop :=
  forall p q : Q, 0 <= p -> p <= q -> q <= 1 ->
                  (f (Fin p) <=? f (Fin q))%fl = true.

Definition rank_order_preserved (x out : list fl) : Prop :=
  forall i j, (i < length x)%nat -> (j < length x)%nat ->
              (nth i x NaN <? nth j x NaN)%fl = true ->
              (nth i out NaN <=? nth j out NaN)%fl = true.

(** The property of the output of step 6 as the specification states
    it: under a monotone [ppf] of the fitted distribution, the result
    has the length of [cm_future] and keeps its rank order. *)
Definition step6_keeps_rank_order (rnd : Q -> Q) (argsort : list fl -> list nat)
    (cdf_threshold : Q) (self : ISIMIP)
    (obs_hist obs_future cm_hist cm_future : list fl) : Prop :=
  (forall fit_of, fit_obs_future self obs_future = Ok fit_of ->
                  monotone_on_unit (ppf (distribution self) fit_of)) ->
  exists out,
    step6 rnd argsort cdf_threshold self obs_hist (Some obs_future) cm_hist
          cm_future = Ok out
    /\ length out = length cm_future
    /\ rank_order_preserved cm_future out.

(** The value that the count rounds to an integer. *)
Definition count_before_rounding (rnd : Q -> Q) (mo mh mf : list bool) : Q :=
  rnd (inject_Z (Z.of_nat (length mf))
       * P_obs_future_rule_rounded rnd
           (fraction_beyond_rounded rnd mo) (fraction_beyond_rounded rnd mh)
           (fraction_beyond_rounded rnd mf)).

(** No value of [x] lies strictly between the thresholds. *)
Definition none_between_thresholds (self : ISIMIP) (x : list fl) : Prop :=
  Forall (fun v => ((v >? lower_threshold self)
                    && (v <? upper_threshold self))%fl = false) x.

(** The yearly means that step 3 regresses. *)
Definition annual_means_of (self : ISIMIP) (x : list fl) (years : option (list Z))
  : list fl :=
  match years with
  | None => get_chunked_mean x (Pos.to_nat (running_window_length self))
  | Some years => get_yearly_mean x years
  end.

(** Year labels, when given, come one per sample. *)
Definition aligned (x : list fl) (years : option (list Z)) : Prop :=
  match years with
  | None => True
  | Some years => length years = length x
  end.

(** * Properties *)

(** ** Comparisons on rationals *)

Lemma Qltb_lt (x y : Q) : Qltb x y = true <-> x < y.
Proof.
  unfold Qltb. rewrite negb_true_iff.
  destruct (Qle_bool y x) eqn:E.
  - apply Qle_bool_iff in E. split; [discriminate | lra].
  - split; [intros _ | reflexivity].
    destruct (Qlt_le_dec x y) as [L | L]; [exact L |].
    apply Qle_bool_iff in L. congruence.
Qed.

Lemma Qltb_ge (x y : Q) : Qltb x y = false <-> y <= x.
Proof.
  destruct (Qltb x y) eqn:E.
  - apply Qltb_lt in E. split; [discriminate | lra].
  - split; [intros _ | reflexivity].
    destruct (Qlt_le_dec x y) as [L | L]; [| exact L].
    apply Qltb_lt in L. congruence.
Qed.

Lemma Qle_bool_gt (x y : Q) : Qle_bool x y = false <-> y < x.
Proof.
  destruct (Qle_bool x y) eqn:E.
  - apply Qle_bool_iff in E. split; [discriminate | lra].
  - split; [intros _ | reflexivity].
    destruct (Qlt_le_dec y x) as [L | L]; [exact L |].
    apply Qle_bool_iff in L. congruence.
Qed.

Lemma Qeq_bool_false (x y : Q) : Qeq_bool x y = false <-> ~ x == y.
Proof.
  split.
  - apply Qeq_bool_neq.
  - intros N. destruct (Qeq_bool x y) eqn:E; [| reflexivity].
    apply Qeq_bool_iff in E. contradiction.
Qed.

(** Turn every boolean comparison of the context into its proposition. *)
Ltac bool_to_Q :=
  repeat match goal with
  | H : _ && _ = true |- _ => apply andb_true_iff in H; destruct H
  | H : _ && _ = false |- _ => apply andb_false_iff in H
  | H : Qle_bool _ _ = true |- _ => apply Qle_bool_iff in H
  | H : Qle_bool _ _ = false |- _ => apply Qle_bool_gt in H
  | H : Qltb _ _ = true |- _ => apply Qltb_lt in H
  | H : Qltb _ _ = false |- _ => apply Qltb_ge in H
  | H : Qeq_bool _ _ = true |- _ => apply Qeq_bool_iff in H
  | H : Qeq_bool _ _ = false |- _ => apply Qeq_bool_false in H
  end.

Lemma unit_quotient (a b c : Q) :
  0 <= a <= 1 -> 0 <= b -> b <= c -> 0 < c -> 0 <= a * b / c <= 1.
Proof.
  intros Ha Hb Hbc Hc. split.
  - apply Qle_shift_div_l; [exact Hc | nra].
  - apply Qle_shift_div_r; [exact Hc | nra].
Qed.

(** ** Rounding *)

(** Rounding to an integer does not cross an integer. *)
Lemma round_half_even_le (q : Q) (z : Z) :
  q <= inject_Z z -> (round_half_even q <= z)%Z.
Proof.
  intros H. unfold round_half_even.
  pose proof (Qfloor_le q) as Hfl.
  assert (Fz : (Qfloor q <= z)%Z).
  { rewrite <- (Qfloor_Z z). apply Qfloor_resp_le. exact H. }
  assert (Up : 0 < q - inject_Z (Qfloor q) -> (Qfloor q + 1 <= z)%Z).
  { intros Hr. assert (L : inject_Z (Qfloor q) < inject_Z z) by lra.
    rewrite <- Zlt_Qlt in L. lia. }
  destruct (Qltb (q - inject_Z (Qfloor q)) (1 # 2)) eqn:E1; [lia |].
  assert (0 < q - inject_Z (Qfloor q)).
  { destruct (Qlt_le_dec (q - inject_Z (Qfloor q)) (1 # 2)) as [L | L].
    - apply Qltb_lt in L. congruence.
    - lra. }
  specialize (Up H0).
  destruct (Qltb (1 # 2) (q - inject_Z (Qfloor q))); [lia |].
  destruct (Z.even (Qfloor q)); lia.
Qed.

Lemma round_half_even_ge (q : Q) (z : Z) :
  inject_Z z <= q -> (z <= round_half_even q)%Z.
Proof.
  intros H. unfold round_half_even.
  assert (Fz : (z <= Qfloor q)%Z).
  { rewrite <- (Qfloor_Z z). apply Qfloor_resp_le. exact H. }
  destruct (Qltb (q - inject_Z (Qfloor q)) (1 # 2)); [lia |].
  destruct (Qltb (1 # 2) (q - inject_Z (Qfloor q))); [lia |].
  destruct (Z.even (Qfloor q)); lia.
Qed.

Lemma two_power_pos (e : Z) : 0 < 2 ^ e.
Proof. apply Qpower_0_lt. reflexivity. Qed.

Lemma two_power_succ (e : Z) : 2 ^ (e + 1) == 2 * 2 ^ e.
Proof.
  rewrite Qpower_plus by discriminate. rewrite Qpower_1_r. ring.
Qed.

Lemma two_power_cancel (e : Z) : 2 ^ (- e) * 2 ^ e == 1.
Proof.
  rewrite <- Qpower_plus by discriminate.
  replace (- e + e)%Z with 0%Z by lia. reflexivity.
Qed.

(** The first guess of the exponent leaves the significand above 2^51. *)
Lemma first_exponent_bound (q : Q) :
  0 < q ->
  2 ^ 51
  < q * 2 ^ (- (Z.log2 (Z.abs (Qnum q)) - Z.log2 (Zpos (Qden q)) - 52)).
Proof.
  intros Hq. destruct q as [n d]. cbn [Qnum Qden].
  assert (Hn : (0 < n)%Z).
  { unfold Qlt in Hq. cbn in Hq. lia. }
  rewrite Z.abs_eq by lia.
  set (a := Z.log2 n). set (b := Z.log2 (Z.pos d)).
  assert (Ha : (0 <= a)%Z) by apply Z.log2_nonneg.
  assert (Hb : (0 <= b)%Z) by apply Z.log2_nonneg.
  destruct (Z.log2_spec n Hn) as [A1 _]. fold a in A1.
  destruct (Z.log2_spec (Z.pos d) (Pos2Z.is_pos d)) as [_ B2]. fold b in B2.
  replace (- (a - b - 52))%Z with (52 + b + - a)%Z by lia.
  rewrite !Qpower_plus by discriminate. rewrite Qpower_opp.
  assert (EX : 2 ^ a == inject_Z (2 ^ a)) by (rewrite Zpower_Qpower by exact Ha; reflexivity).
  assert (EY : 2 ^ b == inject_Z (2 ^ b)) by (rewrite Zpower_Qpower by exact Hb; reflexivity).
  assert (PX : 0 < 2 ^ a) by apply two_power_pos.
  assert (PY : 0 < 2 ^ b) by apply two_power_pos.
  assert (NX : 2 ^ a <= inject_Z n) by (rewrite EX, <- Zle_Qle; exact A1).
  assert (DY : inject_Z (Z.pos d) < 2 * 2 ^ b).
  { rewrite EY. change 2 with (inject_Z 2). rewrite <- inject_Z_mult, <- Zlt_Qlt.
    rewrite Z.pow_succ_r in B2 by exact Hb. exact B2. }
  assert (PD : 0 < inject_Z (Z.pos d)) by (change 0 with (inject_Z 0); rewrite <- Zlt_Qlt; lia).
  rewrite (Qmake_Qdiv n d).
  set (X := 2 ^ a) in *. set (Y := 2 ^ b) in *.
  set (N := inject_Z n) in *. set (D := inject_Z (Z.pos d)) in *.
  assert (K : 2 ^ 52 == 2 * 2 ^ 51) by reflexivity.
  set (c := 2 ^ 51) in *. assert (Pc : 0 < c) by reflexivity.
  rewrite K.
  assert (E : N / D * (2 * c * Y * / X) == (2 * c * Y * N) / (D * X)).
  { field. split; lra. }
  rewrite E. apply Qlt_shift_div_l; [nra |].
  assert (c * (D * X) < c * (2 * Y * N)); [| lra].
  apply Qmult_lt_l; [exact Pc |]. nra.
Qed.

Lemma binary64_significand_bound (q : Q) :
  0 < q -> 2 ^ 51 < q * 2 ^ (- binary64_exponent q).
Proof.
  intros Hq. pose proof (first_exponent_bound q Hq) as H.
  unfold binary64_exponent.
  set (e0 := (Z.log2 (Z.abs (Qnum q)) - Z.log2 (Z.pos (Qden q)) - 52)%Z) in *.
  destruct (Qltb _ _); [| exact H].
  replace (- (e0 - 1))%Z with (- e0 + 1)%Z by lia.
  rewrite two_power_succ.
  pose proof (two_power_pos (- e0)). nra.
Qed.

Lemma binary64_exponent_of_unit (q : Q) :
  0 < q -> q <= 1 -> (binary64_exponent q <= 0)%Z.
Proof.
  intros H0 H1. unfold binary64_exponent.
  assert (L : (Z.log2 (Z.abs (Qnum q)) <= Z.log2 (Z.pos (Qden q)))%Z).
  { apply Z.log2_le_mono. destruct q as [n d]. unfold Qlt, Qle in *.
    cbn in *. lia. }
  destruct (Qltb _ _); lia.
Qed.

Lemma binary64_pos (q : Q) : 0 < q -> 0 < binary64 q.
Proof.
  intros Hq. unfold binary64.
  destruct (Qeq_bool q 0) eqn:E; [apply Qeq_bool_iff in E; lra |].
  pose proof (binary64_significand_bound q Hq) as B.
  set (e := binary64_exponent q) in *.
  assert (M : (1 <= round_half_even (q * 2 ^ (- e)))%Z).
  { apply round_half_even_ge. assert (1 <= 2 ^ 51) by discriminate.
    change (inject_Z 1) with 1. lra. }
  pose proof (two_power_pos e).
  assert (1 <= inject_Z (round_half_even (q * 2 ^ (- e)))).
  { change 1 with (inject_Z 1). rewrite <- Zle_Qle. exact M. }
  nra.
Qed.

Lemma binary64_le_1 (q : Q) : q <= 1 -> binary64 q <= 1.
Proof.
  intros Hq. unfold binary64.
  destruct (Qeq_bool q 0) eqn:E; [discriminate |].
  set (e := binary64_exponent q).
  pose proof (two_power_pos e) as Pe.
  pose proof (two_power_pos (- e)) as Pe'.
  destruct (Qlt_le_dec 0 q) as [H0 | H0].
  - pose proof (binary64_exponent_of_unit q H0 Hq) as He. fold e in He.
    assert (EZ : 2 ^ (- e) == inject_Z (2 ^ (- e))).
    { rewrite Zpower_Qpower by lia. reflexivity. }
    assert (M : (round_half_even (q * 2 ^ (- e)) <= 2 ^ (- e))%Z).
    { apply round_half_even_le. rewrite <- EZ. nra. }
    rewrite Zle_Qle, <- EZ in M.
    pose proof (two_power_cancel e) as C. nra.
  - assert (M : (round_half_even (q * 2 ^ (- e)) <= 0)%Z).
    { apply round_half_even_le. change (inject_Z 0) with 0. nra. }
    rewrite Zle_Qle in M. change (inject_Z 0) with 0 in M. nra.
Qed.

Lemma binary64_keeps_unit_interval : keeps_unit_interval binary64.
Proof.
  split; [| split].
  - intros q H. destruct (Qeq_bool q 0) eqn:E.
    + unfold binary64. rewrite E. lra.
    + apply Qlt_le_weak, binary64_pos.
      apply Qeq_bool_neq in E. lra.
  - apply binary64_pos.
  - apply binary64_le_1.
Qed.

Lemma exact_keeps_unit_interval : keeps_unit_interval exact.
Proof. unfold exact. repeat split; intros q H; exact H. Qed.

(** Rounding a value of [0, n] stays in [0, n]. *)
Lemma round_half_even_bounds (q : Q) (n : Z) :
  0 <= q <= inject_Z n -> (0 <= round_half_even q <= n)%Z.
Proof.
  intros [H0 Hn]. unfold round_half_even.
  pose proof (Qfloor_le q) as Hfl.
  pose proof (Qlt_floor q) as Hfu.
  assert (F0 : (0 <= Qfloor q)%Z).
  { change 0%Z with (Qfloor 0). apply Qfloor_resp_le. exact H0. }
  assert (Fn : (Qfloor q <= n)%Z).
  { rewrite <- (Qfloor_Z n). apply Qfloor_resp_le. exact Hn. }
  assert (Up : 0 < q - inject_Z (Qfloor q) -> (Qfloor q + 1 <= n)%Z).
  { intros Hr. assert (L : inject_Z (Qfloor q) < inject_Z n) by lra.
    rewrite <- Zlt_Qlt in L. lia. }
  destruct (Qltb (q - inject_Z (Qfloor q)) (1 # 2)) eqn:E1; [lia |].
  destruct (Qltb (1 # 2) (q - inject_Z (Qfloor q))) eqn:E2.
  - bool_to_Q. assert (0 < q - inject_Z (Qfloor q)) by lra.
    specialize (Up H). lia.
  - bool_to_Q. assert (0 < q - inject_Z (Qfloor q)) by lra.
    specialize (Up H). destruct (Z.even (Qfloor q)); lia.
Qed.


(** ** Step 6: the target fraction *)

(** On fractions the float rule computes the rule of the specification
    with every operation rounded, with no zero divisor on the way. *)
Lemma P_obs_future_is_rule_rounded (rnd : Q -> Q) (o h f : Q) :
  keeps_unit_interval rnd ->
  0 <= o <= 1 -> 0 <= h <= 1 -> 0 <= f <= 1 ->
  _step6_get_P_obs_future rnd (Fin o) (Fin h) (Fin f)
  = Fin (P_obs_future_rule_rounded rnd o h f).
Proof.
  intros (_ & Rpos & _) Ho Hh Hf.
  unfold _step6_get_P_obs_future, P_obs_future_rule_rounded,
    approximately_equal_rounded, isclose_rounded, rounded.
  cbn [fle flt fge fgt fmul fadd fsub round_fl].
  destruct (Qle_bool (Qabs (rnd (h - o))) _); [reflexivity |].
  destruct (Qle_bool f h && Qltb o h) eqn:B2.
  - bool_to_Q.
    assert (N : Qeq_bool h 0 = false) by (apply Qeq_bool_false; lra).
    cbn [fdiv]. rewrite N. reflexivity.
  - destruct (Qle_bool h f && Qltb h o) eqn:B3; [| reflexivity].
    bool_to_Q.
    assert (P : 0 < rnd (1 - h)) by (apply Rpos; lra).
    assert (N : Qeq_bool (rnd (1 - h)) 0 = false) by (apply Qeq_bool_false; lra).
    cbn [fdiv]. rewrite N. reflexivity.
Qed.

Lemma P_obs_future_is_rule (o h f : Q) :
  0 <= o <= 1 -> 0 <= h <= 1 -> 0 <= f <= 1 ->
  _step6_get_P_obs_future exact (Fin o) (Fin h) (Fin f)
  = Fin (P_obs_future_rule o h f).
Proof.
  exact (P_obs_future_is_rule_rounded exact o h f exact_keeps_unit_interval).
Qed.

Lemma P_obs_future_rule_bounds (o h f : Q) :
  0 <= o <= 1 -> 0 <= h <= 1 -> 0 <= f <= 1 ->
  0 <= P_obs_future_rule o h f <= 1.
Proof.
  intros Ho Hh Hf. unfold P_obs_future_rule, approximately_equal.
  destruct (Qle_bool (Qabs (h - o)) (atol + rtol * Qabs o)) eqn:B1; [exact Hf |].
  destruct (Qle_bool f h && Qltb o h) eqn:B2.
  - bool_to_Q. apply unit_quotient; lra.
  - destruct (Qle_bool h f && Qltb h o) eqn:B3.
    + bool_to_Q.
      assert (0 <= (1 - o) * (1 - f) / (1 - h) <= 1)
        by (apply unit_quotient; lra).
      lra.
    + bool_to_Q.
      assert (Hne : ~ h == o).
      { intros E. revert B1. rewrite E.
        setoid_replace (o - o) with 0 by ring. cbn [Qabs Z.abs Qnum Qden].
        assert (0 <= Qabs o) by apply Qabs_nonneg.
        unfold atol, rtol. lra. }
      assert (Hlt : o < h \/ h < o).
      { destruct (Qlt_le_dec o h) as [L | L]; [left; exact L | right].
        apply Qle_lteq in L. destruct L as [L | L]; [exact L |].
        exfalso. apply Hne. exact L. }
      destruct Hlt, B2 as [B2 | B2], B3 as [B3 | B3]; bool_to_Q; lra.
Qed.

Lemma count_true_le (m : list bool) : (count_true m <= length m)%nat.
Proof. unfold count_true. apply filter_length_le. Qed.

Lemma inject_nat_pos (n : nat) : (0 < n)%nat -> 0 < inject_Z (Z.of_nat n).
Proof.
  intros H. change 0 with (inject_Z 0). rewrite <- Zlt_Qlt. lia.
Qed.

Lemma fraction_beyond_unit (m : list bool) :
  m <> [] -> 0 <= fraction_beyond m <= 1.
Proof.
  intros Hm. unfold fraction_beyond.
  assert (Hn : (0 < length m)%nat) by (destruct m; [congruence | cbn; lia]).
  pose proof (inject_nat_pos _ Hn) as Hpos.
  pose proof (count_true_le m) as Hc.
  assert (0 <= inject_Z (Z.of_nat (count_true m)))
    by (change 0 with (inject_Z 0); rewrite <- Zle_Qle; lia).
  assert (inject_Z (Z.of_nat (count_true m)) <= inject_Z (Z.of_nat (length m)))
    by (rewrite <- Zle_Qle; lia).
  split.
  - apply Qle_shift_div_l; [exact Hpos | lra].
  - apply Qle_shift_div_r; [exact Hpos | lra].
Qed.

Lemma fraction_beyond_rounded_unit (rnd : Q -> Q) (m : list bool) :
  keeps_unit_interval rnd -> m <> [] -> 0 <= fraction_beyond_rounded rnd m <= 1.
Proof.
  intros (R0 & _ & R1) Hm. pose proof (fraction_beyond_unit m Hm) as [H0 H1].
  unfold fraction_beyond_rounded. split; [apply R0 | apply R1]; assumption.
Qed.

Lemma percent_is_fraction (rnd : Q -> Q) (m : list bool) :
  m <> [] ->
  _step6_calculate_percent_values_beyond_threshold rnd m
  = Fin (fraction_beyond_rounded rnd m).
Proof.
  intros Hm.
  unfold _step6_calculate_percent_values_beyond_threshold, rounded, of_nat.
  cbn [fdiv].
  assert (Hn : (0 < length m)%nat) by (destruct m; [congruence | cbn; lia]).
  pose proof (inject_nat_pos _ Hn) as Hpos.
  assert (N : Qeq_bool (inject_Z (Z.of_nat (length m))) 0 = false)
    by (apply Qeq_bool_false; lra).
  rewrite N. reflexivity.
Qed.

(** The number of entries to set to a bound, for non-empty masks. *)
Lemma nr_of_entries_is_rounded (rnd : Q -> Q) (mo mh mf : list bool) :
  keeps_unit_interval rnd ->
  mo <> [] -> mh <> [] -> mf <> [] ->
  _step6_get_nr_of_entries_to_set_to_bound rnd mo mh mf
  = Ok (round_half_even (count_before_rounding rnd mo mh mf)).
Proof.
  intros R Ho Hh Hf. unfold _step6_get_nr_of_entries_to_set_to_bound.
  rewrite !percent_is_fraction by assumption.
  rewrite P_obs_future_is_rule_rounded
    by (try exact R; apply fraction_beyond_rounded_unit; assumption).
  reflexivity.
Qed.

(** ** Slices of a mask *)

Lemma slice_fill_length {A} (a b : nat) (c : A) (x : list A) :
  length (slice_fill a b c x) = length x.
Proof.
  unfold slice_fill. rewrite length_map, length_combine, length_seq. lia.
Qed.






(** C10. For fractions [P_obs_hist], [P_cm_hist] and [P_cm_future] in
    [0, 1], the value of [_step6_get_P_obs_future] is again a fraction
    in [0, 1]: it is finite, not negative and not above 1.  No branch
    divides by zero: the divisor [P_cm_hist] of the second branch and
    the divisor [1 - P_cm_hist] of the third are non-zero whenever the
    branch condition holds. *)
Theorem step6_P_obs_future_in_unit_interval (P_obs_hist P_cm_hist P_cm_future : Q) :
  0 <= P_obs_hist <= 1 -> 0 <= P_cm_hist <= 1 -> 0 <= P_cm_future <= 1 ->
  (exists p,
      _step6_get_P_obs_future exact
        (Fin P_obs_hist) (Fin P_cm_hist) (Fin P_cm_future)
      = Fin p
      /\ 0 <= p <= 1)
  /\ (((Fin P_cm_future <=? Fin P_cm_hist)
       && (Fin P_cm_hist >? Fin P_obs_hist))%fl = true
      -> ~ P_cm_hist == 0)
  /\ (((Fin P_cm_future >=? Fin P_cm_hist)
       && (Fin P_cm_hist <? Fin P_obs_hist))%fl = true
      -> ~ 1 - P_cm_hist == 0).
Proof.
  intros Ho Hh Hf. split; [| split].
  - exists (P_obs_future_rule P_obs_hist P_cm_hist P_cm_future). split.
    + apply P_obs_future_is_rule; assumption.
    + apply P_obs_future_rule_bounds; assumption.
  - cbn [fle fgt flt]. intros B. bool_to_Q. lra.
  - cbn [fge fle flt]. intros B. bool_to_Q. lra.
Qed.

Lemma step6_P_obs_future_in_unit_interval_witness :
  (exists p,
      _step6_get_P_obs_future exact (Fin (1 # 2)) (Fin (1 # 4)) (Fin (1 # 8))
      = Fin p
      /\ 0 <= p <= 1)
  /\ (((Fin (1 # 8) <=? Fin (1 # 4)) && (Fin (1 # 4) >? Fin (1 # 2)))%fl = true
      -> ~ (1 # 4) == 0)
  /\ (((Fin (1 # 8) >=? Fin (1 # 4)) && (Fin (1 # 4) <? Fin (1 # 2)))%fl = true
      -> ~ 1 - (1 # 4) == 0).
Proof.
  apply (step6_P_obs_future_in_unit_interval (1 # 2) (1 # 4) (1 # 8));
    split; discriminate.
Defined.



(** Rounding decides the count: for the fractions 1, 1/2 and 3/9 the
    exact product is 9 * 5/6 = 7.5, which rounds to 8; the float64
    product lies below 7.5, and the count is 7. *)
Lemma count_depends_on_rounding :
  let mo := [true] in
  let mh := [true; false] in
  let mf := [true; true; true; false; false; false; false; false; false] in
  _step6_get_nr_of_entries_to_set_to_bound binary64 mo mh mf = Ok 7%Z
  /\ _step6_get_nr_of_entries_to_set_to_bound exact mo mh mf = Ok 8%Z.
Proof. split; vm_compute; reflexivity. Qed.

(** ** The input check and the entry point *)

Lemma nre_ok {A} (a : A) : no_range_error (Ok a).
Proof. intros s. discriminate. Qed.

Lemma nre_bind {A B} (r : result A) (k : A -> result B) :
  no_range_error r -> (forall a, no_range_error (k a)) ->
  no_range_error (bind r k).
Proof.
  intros Hr Hk. destruct r as [a | e]; cbn; [apply Hk |].
  intros s E. apply (Hr s). congruence.
Qed.

Lemma nre_mask_assign {A} (m : list bool) (v x : list A) :
  no_range_error (mask_assign m v x).
Proof.
  unfold mask_assign. intros s.
  destruct (Nat.eqb (length v) (count_true m)); [discriminate |].
  destruct v as [| c [| c' v]]; discriminate.
Qed.

Lemma nre_broadcast (f : fl -> fl -> fl) (x y : list fl) :
  no_range_error (broadcast f x y).
Proof.
  unfold broadcast. intros s.
  destruct (Nat.eqb (length x) (length y)); [discriminate |].
  destruct (Nat.eqb (length y) 1); [discriminate |].
  destruct (Nat.eqb (length x) 1); discriminate.
Qed.

Lemma nre_py_round (a : fl) : no_range_error (py_round a).
Proof. intros s. destruct a; discriminate. Qed.

Lemma nre_distribution_fit (D : Distribution) (x : list fl) :
  no_range_error (distribution_fit D x).
Proof. unfold distribution_fit. intros s. destruct (fit D x); discriminate. Qed.

(** Decompose a goal [no_range_error] along the structure of the code. *)
Ltac nre :=
  repeat first
    [ apply nre_ok
    | apply nre_mask_assign
    | apply nre_distribution_fit
    | apply nre_broadcast
    | apply nre_py_round
    | apply nre_bind; [| intros ?]
    | match goal with
      | |- no_range_error (Raise _) => intros ?; discriminate
      | |- no_range_error (let (_, _) := ?p in _) => destruct p
      | |- no_range_error (if ?c then _ else _) => destruct c
      | |- no_range_error (match ?x with _ => _ end) => destruct x
      end ].

Section EntryPoint.
Variable ecdf : string -> list fl -> fl -> fl.
Variable iecdf : option string -> list fl -> fl -> fl.
Variable cos : fl -> fl.
Variable pi : fl.
Variable linregress : list fl -> list fl -> LinregressResult.
Variable Rng : Type.
Variable uniform : Rng -> fl -> fl -> nat -> list fl * Rng.
Variable Time : Type.
Variable month : Time -> Z.
Variable year : Time -> Z.
Variable rnd : Q -> Q.
Variable argsort : list fl -> list nat.
Variable cdf_threshold : Q.
Variable self : ISIMIP.

Lemma nre_step3_remove_trend x years :
  no_range_error (_step3_remove_trend linregress self x years).
Proof. unfold _step3_remove_trend. nre. Qed.

Lemma nre_step3 oh ch cf y1 y2 y3 :
  no_range_error (step3 linregress self oh ch cf y1 y2 y3).
Proof.
  unfold step3. destruct (detrending self); [| apply nre_ok].
  repeat (apply nre_bind; [apply nre_step3_remove_trend | intros [? ?]]).
  apply nre_ok.
Qed.

Lemma nre_step4 rng cf : no_range_error (step4 Rng uniform self rng cf).
Proof. unfold step4. nre. Qed.

Lemma nre_step5_transfer_trend oh ch cf :
  no_range_error (_step5_transfer_trend ecdf iecdf cos pi self oh ch cf).
Proof. unfold _step5_transfer_trend. nre. Qed.

Lemma nre_step5 oh ch cf :
  no_range_error (step5 ecdf iecdf cos pi self oh ch cf).
Proof.
  unfold step5.
  destruct (trend_transfer_only_for_values_within_threshold self);
    (apply nre_bind; [apply nre_step5_transfer_trend | intros ?]); nre.
Qed.

Lemma nre_step6 oh ofut ch cf :
  no_range_error (step6 rnd argsort cdf_threshold self oh ofut ch cf).
Proof.
  unfold step6, _step6_get_mask_for_entries_to_set_to_lower_bound,
    _step6_get_mask_for_entries_to_set_to_upper_bound,
    _step6_get_nr_of_entries_to_set_to_bound,
    _step6_adjust_values_between_thresholds.
  nre.
Qed.

Lemma nre_step7 cf tr : no_range_error (step7 self cf tr).
Proof. unfold step7. nre. Qed.

Lemma nre_apply_on_window rng oh ch cf y1 y2 y3 :
  no_range_error
    (_apply_on_window ecdf iecdf cos pi linregress Rng uniform rnd argsort cdf_threshold
                      self rng oh ch cf y1 y2 y3).
Proof.
  unfold _apply_on_window, step1.
  destruct (step2 iecdf Rng uniform self rng oh ch cf) as [[[oh' ch'] cf'] rng'].
  apply nre_bind; [apply nre_step3 | intros [[[? ?] ?] ?]].
  apply nre_bind; [apply nre_step4 | intros [? ?]].
  apply nre_bind; [apply nre_step5 | intros [? ?]].
  apply nre_bind; [apply nre_step6 | intros ?].
  apply nre_bind; [apply nre_step7 | intros ?].
  apply nre_ok.
Qed.
End EntryPoint.

Lemma check_ok_iff self obs_hist cm_hist cm_future lo hi :
  reasonable_physical_range self = Some (lo, hi) ->
  (_check_reasonable_physical_range self obs_hist cm_hist cm_future = Ok tt
   <-> existsb (outside_range lo hi) (obs_hist ++ cm_hist ++ cm_future) = false).
Proof.
  intros Hr. unfold _check_reasonable_physical_range. rewrite Hr.
  rewrite !existsb_app.
  destruct (existsb (outside_range lo hi) obs_hist),
    (existsb (outside_range lo hi) cm_hist),
    (existsb (outside_range lo hi) cm_future); cbn; split;
    (reflexivity || discriminate).
Qed.

Lemma check_raises_range_error self obs_hist cm_hist cm_future e :
  _check_reasonable_physical_range self obs_hist cm_hist cm_future = Raise e ->
  exists lo hi,
    reasonable_physical_range self = Some (lo, hi)
    /\ ((e = InputRangeError "obs_hist"
         /\ existsb (outside_range lo hi) obs_hist = true)
        \/ (e = InputRangeError "cm_hist"
            /\ existsb (outside_range lo hi) cm_hist = true)
        \/ (e = InputRangeError "cm_future"
            /\ existsb (outside_range lo hi) cm_future = true)).
Proof.
  unfold _check_reasonable_physical_range.
  destruct (reasonable_physical_range self) as [[lo hi] |]; [| discriminate].
  intros H. exists lo, hi. split; [reflexivity |].
  destruct (existsb (outside_range lo hi) obs_hist);
    [left; split; [congruence | reflexivity] |].
  destruct (existsb (outside_range lo hi) cm_hist);
    [right; left; split; [congruence | reflexivity] |].
  destruct (existsb (outside_range lo hi) cm_future);
    [right; right; split; [congruence | reflexivity] | discriminate].
Qed.

Section ApplyLocation.
Variable ecdf : string -> list fl -> fl -> fl.
Variable iecdf : option string -> list fl -> fl -> fl.
Variable cos : fl -> fl.
Variable pi : fl.
Variable linregress : list fl -> list fl -> LinregressResult.
Variable Rng : Type.
Variable uniform : Rng -> fl -> fl -> nat -> list fl * Rng.
Variable Time : Type.
Variable month : Time -> Z.
Variable year : Time -> Z.
Variable rnd : Q -> Q.
Variable argsort : list fl -> list nat.
Variable cdf_threshold : Q.
Variable self : ISIMIP.

Local Abbreviation run :=
  (apply_location ecdf iecdf cos pi linregress Rng uniform Time month year
                  rnd argsort cdf_threshold self).

(** Past the input check the entry point raises no range error. *)
Lemma nre_after_check rng obs_hist cm_hist cm_future t1 t2 t3 :
  _check_reasonable_physical_range self obs_hist cm_hist cm_future = Ok tt ->
  no_range_error (run rng obs_hist cm_hist cm_future t1 t2 t3).
Proof.
  intros Hc. unfold apply_location. rewrite Hc.
  cbn [bind].
  destruct (running_window_mode self); [apply nre_ok |].
  destruct t1 as [t1 |], t2 as [t2 |], t3 as [t3 |];
    try (intros s; discriminate).
  generalize (Ok (repeat (Fin 0) (length cm_future), rng)
              : result (list fl * Rng)) (nre_ok (repeat (Fin 0) (length cm_future), rng)).
  generalize (map Z.of_nat (seq 1 12)).
  intros months. induction months as [| i months IH]; intros acc Hacc;
    cbn [fold_left]; [exact Hacc |].
  apply IH. apply nre_bind; [exact Hacc | intros [? ?]].
  apply nre_bind; [apply nre_apply_on_window | intros [? ?]].
  apply nre_bind; [apply nre_mask_assign | intros ?]. apply nre_ok.
Qed.

(** C8. With [reasonable_physical_range] configured as [lo, hi],
    [apply_location] raises the range error exactly when a value of
    [obs_hist], [cm_hist] or [cm_future] lies outside [lo, hi]; the
    error names a series that holds such a value; and the error is the
    result of the input check itself, whatever the stages would do, so
    the call returns no debiased output. *)
Theorem apply_location_range_error
    rng obs_hist cm_hist cm_future t1 t2 t3 lo hi :
  reasonable_physical_range self = Some (lo, hi) ->
  ((exists series,
       run rng obs_hist cm_hist cm_future t1 t2 t3
       = Raise (InputRangeError series))
   <-> (exists v, In v (obs_hist ++ cm_hist ++ cm_future)
                  /\ outside_range lo hi v = true))
  /\ (forall series,
         run rng obs_hist cm_hist cm_future t1 t2 t3
         = Raise (InputRangeError series) ->
         (series = "obs_hist"%string
          /\ existsb (outside_range lo hi) obs_hist = true)
         \/ (series = "cm_hist"%string
             /\ existsb (outside_range lo hi) cm_hist = true)
         \/ (series = "cm_future"%string
             /\ existsb (outside_range lo hi) cm_future = true))
  /\ ((exists v, In v (obs_hist ++ cm_hist ++ cm_future)
                 /\ outside_range lo hi v = true) ->
      forall out,
        run rng obs_hist cm_hist cm_future t1 t2 t3 <> Ok out).
Proof.
  intros Hr.
  assert (Raised : forall e,
             _check_reasonable_physical_range self obs_hist cm_hist cm_future
             = Raise e ->
             run rng obs_hist cm_hist cm_future t1 t2 t3 = Raise e).
  { intros e He. unfold apply_location.
    rewrite He. reflexivity. }
  assert (Outside :
            (exists v, In v (obs_hist ++ cm_hist ++ cm_future)
                       /\ outside_range lo hi v = true) ->
            exists series,
              _check_reasonable_physical_range self obs_hist cm_hist cm_future
              = Raise (InputRangeError series)).
  { intros Hv. apply existsb_exists in Hv.
    destruct (_check_reasonable_physical_range self obs_hist cm_hist cm_future)
      as [[] | e] eqn:Hc.
    - apply (check_ok_iff _ _ _ _ _ _ Hr) in Hc. congruence.
    - destruct (check_raises_range_error _ _ _ _ _ Hc)
        as (lo' & hi' & _ & [[-> _] | [[-> _] | [-> _]]]); eexists; reflexivity. }
  assert (Named : forall series,
             run rng obs_hist cm_hist cm_future t1 t2 t3
             = Raise (InputRangeError series) ->
             _check_reasonable_physical_range self obs_hist cm_hist cm_future
             = Raise (InputRangeError series)).
  { intros series H.
    destruct (_check_reasonable_physical_range self obs_hist cm_hist cm_future)
      as [[] | e] eqn:Hc.
    - exfalso. exact (nre_after_check rng _ _ _ t1 t2 t3 Hc series H).
    - rewrite (Raised e eq_refl) in H. congruence. }
  split; [split |]; [| | split].
  - intros [series H]. apply Named in H.
    destruct (check_raises_range_error _ _ _ _ _ H)
      as (lo' & hi' & Hr' & Hcase).
    rewrite Hr in Hr'. injection Hr' as <- <-.
    apply existsb_exists. rewrite !existsb_app.
    destruct Hcase as [[_ ->] | [[_ ->] | [_ ->]]];
      rewrite ?orb_true_r; reflexivity.
  - intros Hv. destruct (Outside Hv) as [series Hc].
    exists series. apply Raised. exact Hc.
  - intros series H. apply Named in H.
    destruct (check_raises_range_error _ _ _ _ _ H)
      as (lo' & hi' & Hr' & Hcase).
    rewrite Hr in Hr'. injection Hr' as <- <-.
    destruct Hcase as [[E X] | [[E X] | [E X]]]; injection E as ->; auto.
  - intros Hv out. destruct (Outside Hv) as [series Hc].
    rewrite (Raised _ Hc). discriminate.
Qed.

(** C9. In running-window mode, on input that passes the check of the
    physical range, [apply_location] returns [cm_future] as it is: the
    eight stages are not run (the result does not depend on them, nor
    on the time labels) and the generator is left untouched. *)
Theorem apply_location_running_window_passthrough
    rng obs_hist cm_hist cm_future t1 t2 t3 :
  running_window_mode self = true ->
  _check_reasonable_physical_range self obs_hist cm_hist cm_future = Ok tt ->
  run rng obs_hist cm_hist cm_future t1 t2 t3 = Ok (cm_future, rng).
Proof.
  intros Hm Hc. unfold apply_location.
  rewrite Hc, Hm. reflexivity.
Qed.

End ApplyLocation.

Lemma apply_location_range_error_witness :
  reasonable_physical_range Examples.unbounded = Some (Fin 0, Fin 100)
  /\ forall out,
      apply_location Instances.ecdf_step Instances.iecdf_inverted
        Instances.cos_poly Instances.pi_approx Instances.linregress_two_points
        (list Q) Instances.tape_uniform Instances.Time Instances.month
        Instances.year
        binary64 stable_argsort Instances.cdf_threshold Examples.unbounded
        [] [Fin 1] [Fin 2] [Fin 3; Fin 200] None None None
      <> Ok out.
Proof.
  split; [reflexivity |].
  apply (apply_location_range_error Instances.ecdf_step Instances.iecdf_inverted
           Instances.cos_poly Instances.pi_approx Instances.linregress_two_points
           (list Q) Instances.tape_uniform Instances.Time Instances.month
           Instances.year
           binary64 stable_argsort Instances.cdf_threshold Examples.unbounded
           [] [Fin 1] [Fin 2] [Fin 3; Fin 200] None None None
           (Fin 0) (Fin 100) eq_refl).
  exists (Fin 200). split; [cbn; auto | reflexivity].
Defined.

Lemma apply_location_running_window_passthrough_witness :
  running_window_mode Examples.unbounded = true
  /\ apply_location Instances.ecdf_step Instances.iecdf_inverted
       Instances.cos_poly Instances.pi_approx Instances.linregress_two_points
       (list Q) Instances.tape_uniform Instances.Time Instances.month
       Instances.year binary64 stable_argsort Instances.cdf_threshold Examples.unbounded
       [1 # 2] [Fin 1; Fin 5] [Fin 2; Fin 6] [Fin 3; Fin 7; Fin 4]
       None None None
     = Ok ([Fin 3; Fin 7; Fin 4], [1 # 2]).
Proof.
  split; [reflexivity |].
  apply (apply_location_running_window_passthrough Instances.ecdf_step
           Instances.iecdf_inverted Instances.cos_poly Instances.pi_approx
           Instances.linregress_two_points (list Q) Instances.tape_uniform
           Instances.Time Instances.month Instances.year
           binary64 stable_argsort Instances.cdf_threshold
           Examples.unbounded);
    reflexivity.
Defined.

(** ** Step 3 and step 7: the trend *)

Lemma np_repeat_length {A} (x : list A) (n : nat) :
  length (np_repeat x n) = (length x * n)%nat.
Proof.
  unfold np_repeat. induction x as [| a x IH]; cbn; [reflexivity |].
  rewrite length_app, repeat_length, IH. reflexivity.
Qed.

Lemma np_repeat_Forall {A} (P : A -> Prop) (x : list A) (n : nat) :
  Forall P x -> Forall P (np_repeat x n).
Proof.
  unfold np_repeat. induction 1 as [| a x Ha _ IH]; cbn; [constructor |].
  apply Forall_app. split; [| exact IH].
  apply Forall_forall. intros b Hb. apply repeat_spec in Hb. subst. exact Ha.
Qed.

Lemma firstn_Forall {A} (P : A -> Prop) (n : nat) (x : list A) :
  Forall P x -> Forall P (firstn n x).
Proof.
  intros H. rewrite <- (firstn_skipn n x) in H.
  apply Forall_app in H. exact (proj1 H).
Qed.

Lemma chunk_count_covers (len n : nat) :
  (0 < n)%nat -> (len <= (len + n - 1) / n * n)%nat.
Proof.
  intros Hn.
  pose proof (Nat.div_mod_eq (len + n - 1) n) as E.
  pose proof (Nat.mod_upper_bound (len + n - 1) n) as U.
  nia.
Qed.

Lemma get_chunked_mean_length (x : list fl) (n : nat) :
  length (get_chunked_mean x n) = ((length x + n - 1) / n)%nat.
Proof. unfold get_chunked_mean. rewrite length_map, length_seq. reflexivity. Qed.

Lemma np_sum_finite (l : list fl) :
  Forall (fun a => isfinite a = true) l -> isfinite (np_sum l) = true.
Proof.
  unfold np_sum. generalize 0. induction l as [| a l IH]; intros q H; cbn;
    [reflexivity |].
  inversion H as [| ? ? Ha Hl]; subst.
  destruct a as [| | x |]; try discriminate. cbn. apply IH. exact Hl.
Qed.

Lemma np_mean_finite (l : list fl) :
  l <> [] -> Forall (fun a => isfinite a = true) l -> isfinite (np_mean l) = true.
Proof.
  intros Hne H. unfold np_mean, of_nat.
  pose proof (np_sum_finite l H) as Hs.
  destruct (np_sum l) as [| | q |]; try discriminate. cbn [fdiv].
  assert (Hn : (0 < length l)%nat) by (destruct l; [congruence | cbn; lia]).
  pose proof (inject_nat_pos _ Hn) as Hpos.
  assert (N : Qeq_bool (inject_Z (Z.of_nat (length l))) 0 = false)
    by (apply Qeq_bool_false; lra).
  rewrite N. reflexivity.
Qed.

Section Trend.
Variable linregress : list fl -> list fl -> LinregressResult.
Variable self : ISIMIP.

Local Abbreviation window := (Pos.to_nat (running_window_length self)).

(** The value that step 3 repeats per year. *)
Lemma step3_remove_trend_unfold (x : list fl) (years : option (list Z)) :
  exists annual_trend,
    length annual_trend = length (annual_means_of self x years)
    /\ (isfinite
          (slope (linregress
                    (map of_nat (arange (length (annual_means_of self x years))))
                    (annual_means_of self x years))) = true ->
        Forall (fun a => isfinite a = true) annual_trend)
    /\ (trend_removal_with_significance_test self = false ->
        Forall (eq (Fin 0)) annual_trend)
    /\ _step3_remove_trend linregress self x years
       = (x' <- broadcast fsub x
                  (firstn (length x) (np_repeat annual_trend window)) ;;
          Ok (x', firstn (length x) (np_repeat annual_trend window))).
Proof.
  unfold _step3_remove_trend. fold (annual_means_of self x years).
  set (means := annual_means_of self x years).
  set (reg := linregress (map of_nat (arange (length means))) means).
  exists (if (pvalue reg <? Fin (5 # 100))%fl
             && trend_removal_with_significance_test self
          then map (fun y => (slope reg
                              * (of_nat y
                                 - np_mean (map of_nat (arange (length means)))))%fl)
                   (arange (length means))
          else repeat (Fin 0) (length (arange (length means)))).
  split; [| split; [| split; [| reflexivity]]].
  - destruct ((pvalue reg <? Fin (5 # 100))%fl
              && trend_removal_with_significance_test self).
    + rewrite length_map. unfold arange. apply length_seq.
    + rewrite repeat_length. unfold arange. apply length_seq.
  - intros Hs.
    destruct ((pvalue reg <? Fin (5 # 100))%fl
              && trend_removal_with_significance_test self).
    + apply Forall_forall. intros a Ha. apply in_map_iff in Ha.
      destruct Ha as (y & <- & Hy).
      assert (Hm : isfinite (np_mean (map of_nat (arange (length means)))) = true).
      { apply np_mean_finite.
        - unfold arange in *. destruct (length means); [destruct Hy | discriminate].
        - apply Forall_forall. intros b Hb. apply in_map_iff in Hb.
          destruct Hb as (? & <- & _). reflexivity. }
      destruct (slope reg); try discriminate.
      destruct (np_mean (map of_nat (arange (length means)))); try discriminate.
      reflexivity.
    + apply Forall_forall. intros a Ha. apply repeat_spec in Ha. subst.
      reflexivity.
  - intros Ht. rewrite Ht, andb_false_r.
    apply Forall_forall. intros a Ha. apply repeat_spec in Ha. auto.
Qed.

(** Without year labels the trend has one entry per sample. *)
Lemma chunked_trend_length (x : list fl) (annual_trend : list fl) :
  length annual_trend = length (annual_means_of self x None) ->
  length (firstn (length x) (np_repeat annual_trend window)) = length x.
Proof.
  intros H. rewrite length_firstn, np_repeat_length, H. cbn [annual_means_of].
  rewrite get_chunked_mean_length.
  pose proof (chunk_count_covers (length x) window ltac:(lia)). lia.
Qed.

Lemma step3_remove_trend_total (x : list fl) :
  exists x' trend,
    _step3_remove_trend linregress self x None = Ok (x', trend)
    /\ length trend = length x.
Proof.
  destruct (step3_remove_trend_unfold x None) as (at_ & Hlen & _ & _ & ->).
  pose proof (chunked_trend_length x at_ Hlen) as HL.
  unfold broadcast. rewrite HL, Nat.eqb_refl. cbn [bind].
  eexists _, _. split; [reflexivity | exact HL].
Qed.

End Trend.

Lemma map2_length {A B C} (f : A -> B -> C) (x : list A) (y : list B) :
  length (map2 f x y) = Nat.min (length x) (length y).
Proof.
  revert y. induction x as [| a x IH]; intros [| b y]; cbn; try reflexivity.
  rewrite IH. reflexivity.
Qed.

Lemma sub_add_elementwise (x t : list fl) :
  length x = length t ->
  Forall (fun a => isfinite a = true) x ->
  Forall (fun a => isfinite a = true) t ->
  Forall2 fequiv (map2 fadd (map2 fsub x t) t) x.
Proof.
  revert t. induction x as [| a x IH]; intros [| b t] L Hx Ht; cbn in *;
    try discriminate; [constructor |].
  inversion Hx; inversion Ht; subst.
  constructor; [| apply IH; [lia | assumption | assumption]].
  destruct a, b; try discriminate. cbn. ring.
Qed.

Lemma sub_add_scalar (x : list fl) (b : fl) :
  Forall (fun a => isfinite a = true) x -> isfinite b = true ->
  Forall2 fequiv (map (fun a => (a + b)%fl) (map (fun a => (a - b)%fl) x)) x.
Proof.
  intros Hx Hb. induction Hx as [| a x Ha _ IH]; cbn; constructor; [| exact IH].
  destruct a, b; try discriminate. cbn. ring.
Qed.

(** Subtracting a trend and adding it back, under numpy's broadcasting. *)
Lemma broadcast_sub_add_roundtrip (x t cf : list fl) :
  Forall (fun a => isfinite a = true) x ->
  Forall (fun a => isfinite a = true) t ->
  (x <> [] -> t <> []) ->
  (length t <= length x)%nat ->
  broadcast fsub x t = Ok cf ->
  exists out, broadcast fadd cf t = Ok out /\ Forall2 fequiv out x.
Proof.
  intros Hx Ht Hne Hle. unfold broadcast.
  destruct (Nat.eqb (length x) (length t)) eqn:E.
  - apply Nat.eqb_eq in E. intros [= <-].
    rewrite map2_length, E, Nat.min_id, Nat.eqb_refl.
    eexists. split; [reflexivity |]. apply sub_add_elementwise; assumption.
  - apply Nat.eqb_neq in E.
    destruct t as [| b [| b' t]].
    + destruct x as [| a x]; [cbn in E; congruence |].
      exfalso. apply Hne; [discriminate | reflexivity].
    + cbn [length hd Nat.eqb]. intros [= <-]. rewrite length_map.
      apply Nat.eqb_neq in E. cbn [length] in E. rewrite E.
      eexists. split; [reflexivity |].
      apply sub_add_scalar; [exact Hx |]. inversion Ht; assumption.
    + cbn [length Nat.eqb] in *.
      destruct (Nat.eqb (length x) 1) eqn:E1; [| discriminate].
      apply Nat.eqb_eq in E1. lia.
Qed.

Lemma insert_nonempty {A} (le : A -> A -> bool) (a : A) (l : list A) :
  insert le a l <> [].
Proof. destruct l as [| b l]; cbn; [| destruct (le a b)]; discriminate. Qed.

Lemma dedup_nonempty (l : list Z) : l <> [] -> dedup l <> [].
Proof.
  induction l as [| a l IH]; [congruence |]. intros _.
  destruct l as [| b l]; [discriminate |].
  change (dedup (a :: b :: l))
    with (if Z.eqb a b then dedup (b :: l) else a :: dedup (b :: l)).
  destruct (Z.eqb a b); [apply IH |]; discriminate.
Qed.

Section RoundTrip.
Variable linregress : list fl -> list fl -> LinregressResult.
Variable self : ISIMIP.

Lemma annual_means_nonempty (x : list fl) (years : option (list Z)) :
  aligned x years -> x <> [] -> annual_means_of self x years <> [].
Proof.
  intros Ha Hx. destruct years as [ys |]; cbn in *.
  - unfold get_yearly_mean. intros E. apply map_eq_nil in E.
    revert E. apply dedup_nonempty.
    destruct ys as [| y ys]; [destruct x; [congruence | discriminate] |].
    apply insert_nonempty.
  - intros E. apply (f_equal (@length fl)) in E.
    rewrite get_chunked_mean_length in E. cbn in E.
    pose proof (chunk_count_covers (length x)
                  (Pos.to_nat (running_window_length self)) ltac:(lia)).
    destruct x; [congruence | cbn in *; lia].
Qed.

Lemma remove_trend_then_add (x : list fl) (years : option (list Z)) cf tr :
  Forall (fun a => isfinite a = true) x ->
  aligned x years ->
  isfinite
    (slope (linregress
              (map of_nat (arange (length (annual_means_of self x years))))
              (annual_means_of self x years))) = true ->
  _step3_remove_trend linregress self x years = Ok (cf, tr) ->
  exists out, broadcast fadd cf tr = Ok out /\ Forall2 fequiv out x.
Proof.
  intros Hx Ha Hs.
  destruct (step3_remove_trend_unfold linregress self x years)
    as (at_ & Hlen & Hfin & _ & ->).
  set (trend := firstn (length x)
                  (np_repeat at_ (Pos.to_nat (running_window_length self)))).
  destruct (broadcast fsub x trend) as [cf' |] eqn:B; [| discriminate].
  cbn [bind]. intros [= <- <-].
  apply (broadcast_sub_add_roundtrip x trend cf'); try assumption.
  - apply firstn_Forall, np_repeat_Forall, Hfin, Hs.
  - intros Hne E. apply (f_equal (@length fl)) in E. unfold trend in E.
    rewrite length_firstn, np_repeat_length, Hlen in E. cbn [length] in E.
    pose proof (annual_means_nonempty x years Ha Hne) as Hm.
    destruct (annual_means_of self x years); [congruence |].
    destruct x; [congruence |]. cbn [length] in E. lia.
  - unfold trend. rewrite length_firstn. lia.
Qed.

(** C6. With detrending enabled, removing the trend of [cm_future] in
    step 3 and adding the recorded trend back in step 7 gives the
    original [cm_future], value for value (over exact arithmetic, for
    finite values and a finite fitted slope).  This holds for a
    significant trend, where the fitted line is removed, and equally
    when step 3 records a zero trend.  Without year labels step 3
    always returns; with year labels the round trip holds whenever
    step 3 returns. *)
Theorem step3_step7_roundtrip
    (obs_hist cm_hist cm_future : list fl) (y1 y2 y3 : option (list Z)) :
  detrending self = true ->
  Forall (fun a => isfinite a = true) cm_future ->
  aligned cm_future y3 ->
  isfinite
    (slope (linregress
              (map of_nat
                   (arange (length (annual_means_of self cm_future y3))))
              (annual_means_of self cm_future y3))) = true ->
  (forall oh ch cf tr,
      step3 linregress self obs_hist cm_hist cm_future y1 y2 y3
      = Ok (oh, ch, cf, tr) ->
      exists out, step7 self cf tr = Ok out /\ Forall2 fequiv out cm_future)
  /\ (y1 = None -> y2 = None -> y3 = None ->
      exists oh ch cf tr,
        step3 linregress self obs_hist cm_hist cm_future y1 y2 y3
        = Ok (oh, ch, cf, tr)).
Proof.
  intros Hd Hx Ha Hs. split.
  - intros oh ch cf tr. unfold step3, step7. rewrite Hd.
    destruct (_step3_remove_trend linregress self obs_hist y1)
      as [[oh' t1] |]; [| discriminate].
    destruct (_step3_remove_trend linregress self cm_hist y2)
      as [[ch' t2] |]; [| discriminate].
    destruct (_step3_remove_trend linregress self cm_future y3)
      as [[cf' t3] |] eqn:E; [| discriminate].
    cbn [bind]. intros [= <- <- <- <-].
    eapply remove_trend_then_add; eassumption.
  - intros -> -> ->. unfold step3. rewrite Hd.
    destruct (step3_remove_trend_total linregress self obs_hist)
      as (oh & t1 & -> & _).
    destruct (step3_remove_trend_total linregress self cm_hist)
      as (ch & t2 & -> & _).
    destruct (step3_remove_trend_total linregress self cm_future)
      as (cf & t3 & -> & _).
    cbn [bind]. eexists _, _, _, _. reflexivity.
Qed.

End RoundTrip.

Lemma step3_step7_roundtrip_witness :
  let self := Examples.detrended true 2 in
  let cm_future := [Fin 0; Fin 0; Fin 10; Fin 10] in
  (forall oh ch cf tr,
      step3 Instances.linregress_two_points self
            [Fin 1; Fin 2] [Fin 3; Fin 4] cm_future None None None
      = Ok (oh, ch, cf, tr) ->
      exists out, step7 self cf tr = Ok out /\ Forall2 fequiv out cm_future)
  /\ (@None (list Z) = None -> @None (list Z) = None -> @None (list Z) = None ->
      exists oh ch cf tr,
        step3 Instances.linregress_two_points self
              [Fin 1; Fin 2] [Fin 3; Fin 4] cm_future None None None
        = Ok (oh, ch, cf, tr)).
Proof.
  apply (step3_step7_roundtrip Instances.linregress_two_points
           (Examples.detrended true 2)
           [Fin 1; Fin 2] [Fin 3; Fin 4] [Fin 0; Fin 0; Fin 10; Fin 10]
           None None None).
  - reflexivity.
  - repeat constructor.
  - exact I.
  - reflexivity.
Defined.

(** With the significance test switched off, step 3 records a zero
    trend for every series and every regression result. *)
Lemma step3_trend_zero_without_test linregress self x years x' trend :
  trend_removal_with_significance_test self = false ->
  _step3_remove_trend linregress self x years = Ok (x', trend) ->
  Forall (eq (Fin 0)) trend.
Proof.
  intros Ht.
  destruct (step3_remove_trend_unfold linregress self x years)
    as (at_ & _ & _ & Hz & ->).
  destruct (broadcast fsub x _); [| discriminate].
  cbn [bind]. intros [= _ <-].
  apply firstn_Forall, np_repeat_Forall, Hz, Ht.
Qed.

(** C3 (the code against the specification).  A series whose two yearly means
    are 0 and 10: the fitted slope is 10 with p-value 0, a significant
    trend.  With [trend_removal_with_significance_test = False] the
    code records the zero trend and returns the series as it is, where
    the specification has the trend [-5, -5, 5, 5] removed; the fitted trend is
    removed only with the test switched on. *)
Theorem step3_without_significance_test_keeps_trend :
  let x := [Fin 0; Fin 0; Fin 10; Fin 10] in
  Instances.linregress_two_points [Fin 0; Fin 1] [Fin 0; Fin 10]
  = mkLinregress (Fin 10) (Fin 0)
  /\ canon_step3
       (_step3_remove_trend Instances.linregress_two_points
          (Examples.detrended false 2) x None)
     = Ok (x, [Fin 0; Fin 0; Fin 0; Fin 0])
  /\ canon_step3
       (_step3_remove_trend Instances.linregress_two_points
          (Examples.detrended true 2) x None)
     = Ok ([Fin 5; Fin 5; Fin 5; Fin 5], [Fin (-5); Fin (-5); Fin 5; Fin 5]).
Proof. repeat split; vm_compute; reflexivity. Qed.

(** C7 (the code against the specification).  Four samples labelled with two
    years, two samples each, and [running_window_length = 1]: the trend
    is one value per year repeated once, two values for four samples,
    and the subtraction [x - trend] raises numpy's shape error.  With
    [running_window_length = 3] the lengths agree, but the third
    sample, of the second year, gets the first year's trend. *)
Theorem step3_labelled_trend_length_mismatch :
  let x := [Fin 1; Fin 2; Fin 3; Fin 4] in
  let years := Some [2000; 2000; 2001; 2001]%Z in
  _step3_remove_trend Instances.linregress_two_points
    (Examples.detrended true 1) x years
  = Raise ShapeError
  /\ canon_step3
       (_step3_remove_trend Instances.linregress_two_points
          (Examples.detrended true 3) x years)
     = Ok ([Fin 2; Fin 3; Fin 4; Fin 3], [Fin (-1); Fin (-1); Fin (-1); Fin 1])
  /\ canon_step3
       (_step3_remove_trend Instances.linregress_two_points
          (Examples.detrended true 2) x years)
     = Ok ([Fin 2; Fin 3; Fin 2; Fin 3], [Fin (-1); Fin (-1); Fin 1; Fin 1]).
Proof. repeat split; vm_compute; reflexivity. Qed.

(** ** Step 4: randomisation next to the bounds *)

(** C4 (the code against the specification).  Bounds 0 and 10, thresholds 1 and
    9.  The upper branch assigns its samples through the mask of the
    lower branch:
    - [0.5, 5, 9.5, 0.2]: the value 9.5 beyond the upper threshold stays
      as it is, and the one upper sample 9.125 lands on the two
      positions beyond the lower threshold;
    - [0.5, 5, 9.5, 0.2, 9]: the two values beyond the upper threshold
      stay, and the two upper samples land on positions 0 and 3;
    - [0.5, 5, 9.5, 9]: two upper samples for one position beyond the
      lower threshold, numpy's shape error;
    - without a lower bound and threshold the lower mask is unbound. *)
Theorem step4_upper_side_writes_lower_positions :
  canon_step4
    (step4 (list Q) Instances.tape_uniform Examples.bounded_both Instances.tape
           [Fin (1 # 2); Fin 5; Fin (19 # 2); Fin (1 # 5)])
  = Ok [Fin (73 # 8); Fin 5; Fin (19 # 2); Fin (73 # 8)]
  /\ canon_step4
       (step4 (list Q) Instances.tape_uniform Examples.bounded_both Instances.tape
              [Fin (1 # 2); Fin 5; Fin (19 # 2); Fin (1 # 5); Fin 9])
     = Ok [Fin (77 # 8); Fin 5; Fin (19 # 2); Fin (73 # 8); Fin 9]
  /\ step4 (list Q) Instances.tape_uniform Examples.bounded_both Instances.tape
           [Fin (1 # 2); Fin 5; Fin (19 # 2); Fin 9]
     = Raise ShapeError
  /\ step4 (list Q) Instances.tape_uniform Examples.bounded_above Instances.tape
           [Fin (1 # 2); Fin 5; Fin (19 # 2); Fin (1 # 5); Fin 9]
     = Raise (UnboundLocalError "mask_cm_future_values_beyond_lower_threshold").
Proof. repeat split; vm_compute; reflexivity. Qed.

(** Whatever the generator and the series: with an upper bound and
    threshold but no lower ones, step 4 raises. *)
Lemma step4_upper_only_raises Rng uniform self rng cm_future :
  has_lower_bound self && has_lower_threshold self = false ->
  has_upper_bound self && has_upper_threshold self = true ->
  step4 Rng uniform self rng cm_future
  = Raise (UnboundLocalError "mask_cm_future_values_beyond_lower_threshold").
Proof.
  intros Hl Hu. unfold step4. rewrite Hl, Hu. cbn [bind].
  destruct (uniform rng (upper_threshold self) (upper_bound self) _).
  reflexivity.
Qed.

(** ** Step 5: pseudo future observations *)

(** With [trend_transfer_only_for_values_within_threshold = False] the
    call never returns a series. *)
Lemma step5_returns_none ecdf iecdf cos pi self obs_hist cm_hist cm_future r :
  trend_transfer_only_for_values_within_threshold self = false ->
  step5 ecdf iecdf cos pi self obs_hist cm_hist cm_future = Ok r ->
  fst r = None.
Proof.
  intros Hf. unfold step5. rewrite Hf.
  destruct (_step5_transfer_trend _ _ _ _ _ _ _ _); [| discriminate].
  cbn [bind]. destruct (mask_assign _ _ _); [| discriminate].
  cbn [bind]. intros [= <-]. reflexivity.
Qed.

(** C5 (the code against the specification).  Thresholds 1 and 9, additive
    transfer, [trend_transfer_only_for_values_within_threshold = False]
    and [obs_hist = [0.5, 2, 4, 9.5]]: the two values between the
    thresholds are transferred (to 4 and 7) inside the array [obs_hist]
    itself, and the call returns [None], not a series; step 6 then
    fails on it.  The sibling branch returns its series. *)
Theorem step5_without_flag_returns_none :
  let obs_hist := [Fin (1 # 2); Fin 2; Fin 4; Fin (19 # 2)] in
  let cm_hist := [Fin 2; Fin 3] in
  let cm_future := [Fin 4; Fin 6] in
  canon_step5
    (step5 Instances.ecdf_step Instances.iecdf_inverted Instances.cos_poly
           Instances.pi_approx Examples.transfer_between_thresholds
           obs_hist cm_hist cm_future)
  = Ok (None, [Fin (1 # 2); Fin 4; Fin 7; Fin (19 # 2)])
  /\ step6
  binary64 stable_argsort Instances.cdf_threshold Examples.transfer_between_thresholds
           obs_hist None cm_hist cm_future
     = Raise NoneTypeError
  /\ canon_step5
       (step5 Instances.ecdf_step Instances.iecdf_inverted Instances.cos_poly
              Instances.pi_approx Examples.bounded_both
              obs_hist cm_hist cm_future)
     = Ok (Some [Fin (5 # 2); Fin 4; Fin 7; Fin (25 # 2)], obs_hist).
Proof. repeat split; vm_compute; reflexivity. Qed.

(** ** Sorting and index arrays *)

Section InsertionSort.
Context {T : Type}.
Variable le : T -> T -> bool.

Lemma insert_perm (a : T) (l : list T) : Permutation (insert le a l) (a :: l).
Proof.
  induction l as [| b l IH]; cbn; [reflexivity |].
  destruct (le a b); [reflexivity |].
  rewrite IH. apply perm_swap.
Qed.

Lemma isort_perm (l : list T) : Permutation (isort le l) l.
Proof.
  induction l as [| a l IH]; cbn; [reflexivity |].
  rewrite insert_perm. constructor. exact IH.
Qed.

Lemma isort_length (l : list T) : length (isort le l) = length l.
Proof. apply Permutation_length, isort_perm. Qed.

Hypothesis le_total : forall a b, le a b = false -> le b a = true.
Hypothesis le_trans : forall a b c, le a b = true -> le b c = true -> le a c = true.

Lemma insert_sorted (a : T) (l : list T) :
  StronglySorted (fun x y => le x y = true) l ->
  StronglySorted (fun x y => le x y = true) (insert le a l).
Proof.
  induction 1 as [| b l Hs IH Hb]; cbn; [repeat constructor |].
  destruct (le a b) eqn:E.
  - constructor; [constructor; assumption |].
    constructor; [exact E |].
    eapply Forall_impl; [| exact Hb]. intros c Hc. eapply le_trans; eassumption.
  - constructor; [exact IH |].
    eapply Permutation_Forall; [symmetry; apply insert_perm |].
    constructor; [apply le_total; exact E | exact Hb].
Qed.

Lemma isort_sorted (l : list T) :
  StronglySorted (fun x y => le x y = true) (isort le l).
Proof.
  induction l as [| a l IH]; cbn; [constructor | apply insert_sorted, IH].
Qed.
End InsertionSort.

Section IndexArrays.
Local Open Scope nat_scope.

Lemma seq_strongly_sorted (s n : nat) : StronglySorted Nat.le (seq s n).
Proof.
  revert s. induction n as [| n IH]; intros s; cbn; constructor; [apply IH |].
  apply Forall_forall. intros x Hx. apply in_seq in Hx. lia.
Qed.

(** A sorted list is determined by its elements. *)
Lemma sorted_perm_unique (l1 l2 : list nat) :
  StronglySorted Nat.le l1 -> StronglySorted Nat.le l2 ->
  Permutation l1 l2 -> l1 = l2.
Proof.
  intros H1. revert l2. induction H1 as [| a l1 Hs1 IH Ha]; intros l2 H2 P.
  - apply Permutation_nil in P. congruence.
  - destruct H2 as [| b l2 Hs2 Hb].
    + symmetry in P. apply Permutation_nil in P. discriminate.
    + assert (E : a = b).
      { assert (Ia : In a (b :: l2))
          by (eapply Permutation_in; [exact P | left; reflexivity]).
        assert (Ib : In b (a :: l1))
          by (eapply Permutation_in; [symmetry; exact P | left; reflexivity]).
        destruct Ia as [-> | Ia]; [reflexivity |].
        destruct Ib as [-> | Ib]; [reflexivity |].
        pose proof (proj1 (Forall_forall _ _) Hb a Ia).
        pose proof (proj1 (Forall_forall _ _) Ha b Ib).
        unfold Nat.le in *. lia. }
      subst b. f_equal. apply IH; [exact Hs2 |].
      eapply Permutation_cons_inv; exact P.
Qed.

Lemma combine_seq_fst {A} (x : list A) (s : nat) :
  map fst (combine x (seq s (length x))) = x.
Proof.
  revert s. induction x as [| a x IH]; intros s; cbn; [reflexivity |].
  rewrite IH. reflexivity.
Qed.

Lemma combine_seq_snd {A} (x : list A) (s : nat) :
  map snd (combine x (seq s (length x))) = seq s (length x).
Proof.
  revert s. induction x as [| a x IH]; intros s; cbn; [reflexivity |].
  rewrite IH. reflexivity.
Qed.

Lemma combine_seq_In {A} (d : A) (x : list A) (v : A) (j : nat) :
  In (v, j) (combine x (seq 0 (length x))) ->
  (j < length x)%nat /\ nth j x d = v.
Proof.
  assert (G : forall s, In (v, j) (combine x (seq s (length x))) ->
                        (s <= j < s + length x)%nat /\ nth (j - s) x d = v).
  { induction x as [| a x IH]; intros s; cbn; [intros [] |].
    intros [E | H].
    - injection E as -> ->. rewrite Nat.sub_diag. split; [lia | reflexivity].
    - apply IH in H. destruct H as [Hj Hn]. split; [lia |].
      replace (j - s)%nat with (S (j - S s)) by lia. exact Hn. }
  intros H. apply G in H. rewrite Nat.sub_0_r in H. destruct H. split; [lia | assumption].
Qed.

Lemma argsort_by_perm {A} (le : A -> A -> bool) (x : list A) :
  Permutation (argsort_by le x) (seq 0 (length x)).
Proof.
  unfold argsort_by. rewrite <- (combine_seq_snd x 0) at 2.
  apply Permutation_map, isort_perm.
Qed.

Lemma argsort_by_length {A} (le : A -> A -> bool) (x : list A) :
  length (argsort_by le x) = length x.
Proof.
  rewrite (Permutation_length (argsort_by_perm le x)). apply length_seq.
Qed.

Lemma argsort_by_bound {A} (le : A -> A -> bool) (x : list A) (k : nat) :
  (k < length x)%nat -> (nth k (argsort_by le x) 0 < length x)%nat.
Proof.
  intros Hk.
  assert (I : In (nth k (argsort_by le x) 0%nat) (argsort_by le x))
    by (apply nth_In; rewrite argsort_by_length; exact Hk).
  eapply Permutation_in in I; [| apply argsort_by_perm].
  apply in_seq in I. lia.
Qed.

Lemma leb_fst_total (a b : nat * nat) :
  Nat.leb (fst a) (fst b) = false -> Nat.leb (fst b) (fst a) = true.
Proof. rewrite Nat.leb_gt, Nat.leb_le. lia. Qed.

Lemma leb_fst_trans (a b c : nat * nat) :
  Nat.leb (fst a) (fst b) = true -> Nat.leb (fst b) (fst c) = true ->
  Nat.leb (fst a) (fst c) = true.
Proof. rewrite !Nat.leb_le. lia. Qed.

Lemma strongly_sorted_map_fst (l : list (nat * nat)) :
  StronglySorted (fun a b => Nat.leb (fst a) (fst b) = true) l ->
  StronglySorted Nat.le (map fst l).
Proof.
  induction 1 as [| a l Hs IH Ha]; cbn; constructor; [exact IH |].
  apply Forall_map. eapply Forall_impl; [| exact Ha].
  intros b Hb. apply Nat.leb_le. exact Hb.
Qed.

(** The argsort of a permutation of [0 .. n-1] is its inverse. *)
Lemma argsort_idx_right_inverse (p : list nat) (i : nat) :
  Permutation p (seq 0 (length p)) -> (i < length p)%nat ->
  nth (nth i (argsort_idx p) 0) p 0 = i.
Proof.
  intros Hp Hi. unfold argsort_idx, argsort_by.
  set (S := isort (fun a b : nat * nat => Nat.leb (fst a) (fst b))
                  (combine p (seq 0 (length p)))).
  assert (PS : Permutation S (combine p (seq 0 (length p))))
    by apply isort_perm.
  assert (LS : length S = length p).
  { rewrite (Permutation_length PS), length_combine, length_seq. lia. }
  assert (F : map fst S = seq 0 (length p)).
  { apply sorted_perm_unique.
    - apply strongly_sorted_map_fst, isort_sorted;
        [exact leb_fst_total | exact leb_fst_trans].
    - apply seq_strongly_sorted.
    - rewrite (Permutation_map fst PS), combine_seq_fst. exact Hp. }
  assert (I : In (nth i S (0, 0)%nat) (combine p (seq 0 (length p)))).
  { eapply Permutation_in; [exact PS |]. apply nth_In. lia. }
  destruct (nth i S (0, 0)%nat) as [v j] eqn:E.
  apply (combine_seq_In 0%nat) in I. destruct I as [_ Hn].
  assert (Ev : v = i).
  { change v with (fst (v, j)). rewrite <- E.
    rewrite <- (map_nth fst), F. cbn [fst]. rewrite seq_nth by lia.
    reflexivity. }
  assert (Ej : nth i (map snd S) 0 = j).
  { change 0 with (snd (0, 0)) at 1. rewrite map_nth, E. reflexivity. }
  rewrite Ej, Hn. exact Ev.
Qed.

Lemma argsort_idx_left_inverse (p : list nat) (k : nat) :
  Permutation p (seq 0 (length p)) -> (k < length p)%nat ->
  nth (nth k p 0) (argsort_idx p) 0 = k.
Proof.
  intros Hp Hk.
  assert (ND : NoDup p)
    by (eapply Permutation_NoDup; [symmetry; exact Hp | apply seq_NoDup]).
  assert (Bk : (nth k p 0 < length p)%nat).
  { assert (I : In (nth k p 0%nat) p) by (apply nth_In; exact Hk).
    eapply Permutation_in in I; [| exact Hp]. apply in_seq in I. lia. }
  pose proof (argsort_by_bound Nat.leb p _ Bk) as Bq.
  fold (argsort_idx p) in Bq.
  apply (proj1 (NoDup_nth p 0%nat) ND); [exact Bq | exact Hk |].
  apply argsort_idx_right_inverse; assumption.
Qed.

End IndexArrays.

(** ** Index arrays and masks *)

Lemma take_length {A} (d : A) (x : list A) (idx : list nat) :
  length (take d x idx) = length idx.
Proof. apply length_map. Qed.

Lemma nth_take {A} (d : A) (x : list A) (idx : list nat) (k : nat) :
  (k < length idx)%nat ->
  nth k (take d x idx) d = nth (nth k idx 0%nat) x d.
Proof.
  intros Hk. unfold take.
  rewrite (nth_indep _ d (nth 0 x d)) by (rewrite length_map; exact Hk).
  apply (map_nth (fun i => nth i x d)).
Qed.

Lemma mask_fill_length {A} (m : list bool) (c : A) (x : list A) :
  length m = length x -> length (mask_fill m c x) = length x.
Proof.
  intros H. unfold mask_fill. rewrite length_map, length_combine. lia.
Qed.

Lemma nth_mask_fill {A} (m : list bool) (c d : A) (x : list A) (k : nat) :
  length m = length x -> (k < length x)%nat ->
  nth k (mask_fill m c x) d = if nth k m false then c else nth k x d.
Proof.
  revert x k. induction m as [| b m IH]; intros [| a x] k L Hk; cbn in *;
    try lia.
  destruct k as [| k]; [reflexivity |]. apply IH; lia.
Qed.

Lemma mask_select_length {A} (m : list bool) (x : list A) :
  length m = length x -> length (mask_select m x) = count_true m.
Proof.
  unfold mask_select, count_true. revert x.
  induction m as [| b m IH]; intros [| a x] L; cbn in *; try lia.
  destruct b; cbn; rewrite IH by lia; reflexivity.
Qed.

Lemma scatter_map_select {A} (g : A -> A) (m : list bool) (y : list A) :
  length m = length y ->
  scatter m (map g (mask_select m y)) y
  = map2 (fun (b : bool) v => if b then g v else v) m y.
Proof.
  unfold mask_select. revert y.
  induction m as [| b m IH]; intros [| a y] L; cbn in *; try lia;
    [reflexivity |].
  destruct b; cbn; rewrite IH by lia; reflexivity.
Qed.

Lemma scatter_length {A} (m : list bool) (v x : list A) :
  length m = length x -> length (scatter m v x) = length x.
Proof.
  revert v x. induction m as [| b m IH]; intros v [| a x] L; cbn in *;
    try lia.
  destruct b; [destruct v |]; cbn; rewrite IH by lia; reflexivity.
Qed.

Lemma mask_assign_length {A} (m : list bool) (v x out : list A) :
  length m = length x -> mask_assign m v x = Ok out -> length out = length x.
Proof.
  intros L. unfold mask_assign.
  destruct (Nat.eqb (length v) (count_true m)).
  - intros [= <-]. apply scatter_length, L.
  - destruct v as [| c [| c' v]]; try discriminate.
    intros [= <-]. apply mask_fill_length, L.
Qed.

Lemma nth_map2 {A B C} (f : A -> B -> C) (x : list A) (y : list B)
    (da : A) (db : B) (dc : C) (k : nat) :
  length x = length y -> (k < length x)%nat ->
  nth k (map2 f x y) dc = f (nth k x da) (nth k y db).
Proof.
  revert y k. induction x as [| a x IH]; intros [| b y] k L Hk; cbn in *;
    try lia.
  destruct k as [| k]; [reflexivity |]. apply IH; lia.
Qed.

(** ** Step 6: the output *)

Lemma np_sort_length (x : list fl) : length (np_sort x) = length x.
Proof. apply isort_length. Qed.

Lemma nat_list_eqb_eq (a b : list nat) : nat_list_eqb a b = true -> a = b.
Proof.
  revert b. induction a as [| i a IH]; intros [| j b]; cbn; try discriminate;
    [reflexivity |].
  intros H. apply andb_true_iff in H. destruct H as [E H].
  apply Nat.eqb_eq in E. subst j. f_equal. apply IH, H.
Qed.

(** An argsort is a permutation of the indices. *)
Lemma is_argsort_perm (x : list fl) (p : list nat) :
  is_argsort x p = true -> Permutation p (seq 0 (length x)).
Proof.
  unfold is_argsort. intros H. apply andb_true_iff in H. destruct H as [H _].
  apply nat_list_eqb_eq in H. rewrite <- H. symmetry. apply isort_perm.
Qed.

Lemma is_argsort_length (x : list fl) (p : list nat) :
  is_argsort x p = true -> length p = length x.
Proof.
  intros H. rewrite (Permutation_length (is_argsort_perm _ _ H)).
  apply length_seq.
Qed.

Lemma stable_argsort_length (x : list fl) : length (stable_argsort x) = length x.
Proof. apply argsort_by_length. Qed.

Lemma mask_nonempty (f : fl -> bool) (x : list fl) : x <> [] -> map f x <> [].
Proof. destruct x; [congruence | discriminate]. Qed.

Lemma np_sort_nonempty (x : list fl) : x <> [] -> np_sort x <> [].
Proof.
  intros H E. apply (f_equal (@length fl)) in E.
  rewrite np_sort_length in E. destruct x; [congruence | discriminate].
Qed.

Lemma clamp_monotone (eps : Q) (c1 c2 : fl) :
  eps <= 1 - eps -> (c1 <=? c2)%fl = true ->
  exists p q,
    fmax (fmin c1 (Fin (1 - eps))) (Fin eps) = Fin p
    /\ fmax (fmin c2 (Fin (1 - eps))) (Fin eps) = Fin q
    /\ eps <= p /\ p <= q /\ q <= 1 - eps.
Proof.
  intros He H.
  destruct c1 as [| | x |], c2 as [| | y |]; try discriminate;
    cbn [fle] in H;
    repeat (cbn [fmin fmax fle];
            match goal with
            | |- context [Qle_bool ?a ?b] => destruct (Qle_bool a b) eqn:?
            end);
    cbn [fmin fmax fle];
    eexists _, _; (split; [reflexivity | split; [reflexivity |]]);
    bool_to_Q; repeat split; lra.
Qed.

Section Step6.
Variable rnd : Q -> Q.
Variable argsort : list fl -> list nat.
Variable cdf_threshold : Q.
Variable self : ISIMIP.

Local Abbreviation D := (distribution self).

Lemma sorted_cm_future_length (cm_future : list fl) :
  length (argsort cm_future) = length cm_future ->
  length (take NaN cm_future (argsort cm_future)) = length cm_future.
Proof. intros H. rewrite take_length. exact H. Qed.

Lemma sorted_cm_future_nonempty (x : list fl) :
  length (argsort x) = length x -> x <> [] -> take NaN x (argsort x) <> [].
Proof.
  intros L H E. apply (f_equal (@length fl)) in E.
  rewrite sorted_cm_future_length in E by exact L.
  destruct x; [congruence | discriminate].
Qed.

(** What a returning call of the quantile mapping has done: the four
    fits have returned, and the result has one value per entry; without
    the event likelihood adjustment every entry is mapped on its own. *)
Lemma adjust_inversion (oh ofut ch sub v : list fl) :
  _step6_adjust_values_between_thresholds cdf_threshold self oh ofut ch sub
  = Ok v ->
  exists fit_cf fit_oh fit_of fit_ch,
    distribution_fit D sub = Ok fit_cf
    /\ distribution_fit D oh = Ok fit_oh
    /\ distribution_fit D ofut = Ok fit_of
    /\ distribution_fit D ch = Ok fit_ch
    /\ length v = length sub
    /\ (event_likelihood_adjustment self = false ->
        v = map (quantile_map cdf_threshold self fit_cf fit_of) sub).
Proof.
  unfold _step6_adjust_values_between_thresholds. cbv zeta.
  destruct (distribution_fit D sub) as [fcf |]; [| discriminate].
  destruct (distribution_fit D oh) as [foh |]; [| discriminate].
  destruct (distribution_fit D ofut) as [fof |]; [| discriminate].
  destruct (distribution_fit D ch) as [fch |]; [| discriminate].
  cbn [bind]. intros H. exists fcf, foh, fof, fch.
  repeat (split; [reflexivity |]).
  split.
  - unfold threshold_cdf_vals, interp_sorted_cdf_vals_on_given_length in H.
    destruct (negb (event_likelihood_adjustment self)); injection H as <-.
    + rewrite !length_map. reflexivity.
    + repeat (rewrite ?length_map, ?map2_length, ?length_seq). lia.
  - intros He. rewrite He in H. cbn [negb] in H. injection H as <-.
    unfold quantile_map, threshold_cdf_vals. rewrite !map_map. reflexivity.
Qed.

(** The quantile mapping returns as soon as the four fits do. *)
Lemma adjust_total (oh ofut ch sub : list fl) (fit_cf fit_oh fit_of fit_ch : params D) :
  distribution_fit D sub = Ok fit_cf ->
  distribution_fit D oh = Ok fit_oh ->
  distribution_fit D ofut = Ok fit_of ->
  distribution_fit D ch = Ok fit_ch ->
  exists v,
    _step6_adjust_values_between_thresholds cdf_threshold self oh ofut ch sub
    = Ok v.
Proof.
  intros H1 H2 H3 H4. unfold _step6_adjust_values_between_thresholds. cbv zeta.
  rewrite H1, H2, H3, H4. cbn [bind].
  destruct (negb (event_likelihood_adjustment self)); eexists; reflexivity.
Qed.

(** It raises as soon as one of them does. *)
Lemma adjust_raises (oh ofut ch sub : list fl) :
  fit D sub = None \/ fit D oh = None \/ fit D ofut = None \/ fit D ch = None ->
  _step6_adjust_values_between_thresholds cdf_threshold self oh ofut ch sub
  = Raise FitError.
Proof.
  intros H. unfold _step6_adjust_values_between_thresholds, distribution_fit.
  cbv zeta.
  destruct (fit D sub); [| reflexivity]. cbn [bind].
  destruct (fit D oh); [| reflexivity]. cbn [bind].
  destruct (fit D ofut); [| reflexivity]. cbn [bind].
  destruct (fit D ch); [| reflexivity].
  destruct H as [H | [H | [H | H]]]; discriminate.
Qed.

Lemma step6_in_two_parts (obs_hist obs_future cm_hist cm_future : list fl) :
  step6 rnd argsort cdf_threshold self obs_hist (Some obs_future) cm_hist cm_future
  = (masks <- step6_bound_masks rnd argsort self obs_hist cm_hist cm_future ;;
     sorted_output <-
       step6_sorted_output argsort cdf_threshold self obs_hist obs_future cm_hist
                           cm_future masks ;;
     Ok (take NaN sorted_output (argsort_idx (argsort cm_future)))).
Proof.
  unfold step6, step6_bound_masks, step6_sorted_output, not_set_to_either_bound.
  cbn [bind].
  destruct (if has_lower_threshold self then _ else _) as [ml |];
    [| reflexivity].
  cbn [bind].
  destruct (if has_upper_threshold self then _ else _) as [mu |];
    [| reflexivity].
  cbn [bind fst snd].
  destruct (_step6_adjust_values_between_thresholds _ _ _ _ _ _);
    reflexivity.
Qed.

Lemma bound_masks_length (obs_hist cm_hist cm_future : list fl) ml mu :
  length (argsort cm_future) = length cm_future ->
  step6_bound_masks rnd argsort self obs_hist cm_hist cm_future = Ok (ml, mu) ->
  length ml = length cm_future /\ length mu = length cm_future.
Proof.
  unfold step6_bound_masks, _step6_get_mask_for_entries_to_set_to_lower_bound,
    _step6_get_mask_for_entries_to_set_to_upper_bound,
    _step6_transform_nr_of_entries_to_set_to_lower_bound_to_mask_for_cm_future,
    _step6_transform_nr_of_entries_to_set_to_upper_bound_to_mask_for_cm_future.
  intros La H.
  destruct (if has_lower_threshold self then _ else _) as [ml' |] eqn:El;
    [| discriminate].
  cbn [bind] in H.
  destruct (if has_upper_threshold self then _ else _) as [mu' |] eqn:Eu;
    [| discriminate].
  cbn [bind] in H. injection H as <- <-. split.
  - clear Eu. destruct (has_lower_threshold self).
    + destruct (_step6_get_nr_of_entries_to_set_to_bound _ _ _ _);
        [| discriminate].
      cbn [bind] in El. injection El as <-.
      rewrite slice_fill_length, repeat_length.
      apply sorted_cm_future_length, La.
    + injection El as <-. rewrite repeat_length.
      apply sorted_cm_future_length, La.
  - clear El. destruct (has_upper_threshold self).
    + destruct (_step6_get_nr_of_entries_to_set_to_bound _ _ _ _);
        [| discriminate].
      cbn [bind] in Eu. injection Eu as <-.
      rewrite slice_fill_length, repeat_length.
      apply sorted_cm_future_length, La.
    + injection Eu as <-. rewrite repeat_length.
      apply sorted_cm_future_length, La.
Qed.

(** On non-empty series the counts of step 6 are defined. *)
Lemma bound_masks_total (obs_hist cm_hist cm_future : list fl) :
  keeps_unit_interval rnd ->
  length (argsort cm_future) = length cm_future ->
  obs_hist <> [] -> cm_hist <> [] -> cm_future <> [] ->
  exists ml mu,
    step6_bound_masks rnd argsort self obs_hist cm_hist cm_future = Ok (ml, mu).
Proof.
  intros R La Ho Hh Hf.
  unfold step6_bound_masks, _step6_get_mask_for_entries_to_set_to_lower_bound,
    _step6_get_mask_for_entries_to_set_to_upper_bound,
    _get_mask_for_values_beyond_lower_threshold,
    _get_mask_for_values_beyond_upper_threshold.
  rewrite !nr_of_entries_is_rounded
    by (try exact R; apply mask_nonempty;
        first [apply np_sort_nonempty | apply sorted_cm_future_nonempty];
        assumption).
  destruct (has_lower_threshold self), (has_upper_threshold self);
    cbn [bind]; eexists _, _; reflexivity.
Qed.

Lemma mapped_mask_length (cm_future : list fl) ml mu :
  length (argsort cm_future) = length cm_future ->
  length ml = length cm_future -> length mu = length cm_future ->
  length (not_set_to_either_bound (ml, mu))
  = length (mask_fill mu (upper_bound self)
              (mask_fill ml (lower_bound self)
                 (take NaN cm_future (argsort cm_future))))
  /\ length (mask_fill mu (upper_bound self)
               (mask_fill ml (lower_bound self)
                  (take NaN cm_future (argsort cm_future))))
     = length cm_future.
Proof.
  intros La Ll Lu.
  assert (L2 : length (mask_fill mu (upper_bound self)
                         (mask_fill ml (lower_bound self)
                            (take NaN cm_future (argsort cm_future))))
               = length cm_future).
  { rewrite !mask_fill_length; rewrite ?mask_fill_length;
      rewrite ?sorted_cm_future_length; auto. }
  split; [| exact L2].
  unfold not_set_to_either_bound. cbn [fst snd].
  rewrite map2_length, Ll, Lu, L2. apply Nat.min_id.
Qed.

(** The sorted output is defined as soon as the four fits return. *)
Lemma sorted_output_total (obs_hist obs_future cm_hist cm_future : list fl) ml mu
    (fit_cf fit_oh fit_of fit_ch : params D) :
  length (argsort cm_future) = length cm_future ->
  length ml = length cm_future -> length mu = length cm_future ->
  fit_cm_future argsort self cm_future (ml, mu) = Ok fit_cf ->
  fit_between self obs_hist = Ok fit_oh ->
  fit_obs_future self obs_future = Ok fit_of ->
  fit_between self cm_hist = Ok fit_ch ->
  exists sorted_output,
    step6_sorted_output argsort cdf_threshold self obs_hist obs_future cm_hist
                        cm_future (ml, mu) = Ok sorted_output.
Proof.
  intros La Ll Lu F1 F2 F3 F4. unfold step6_sorted_output.
  unfold fit_cm_future, mapped_cm_future, fit_obs_future, fit_between in *.
  cbn [fst snd] in *.
  destruct (adjust_total _ _ _ _ _ _ _ _ F1 F2 F3 F4) as [v Hv].
  rewrite Hv. cbn [bind].
  destruct (adjust_inversion _ _ _ _ _ Hv) as (_ & _ & _ & _ & _ & _ & _ & _ & Lv & _).
  destruct (mapped_mask_length cm_future ml mu La Ll Lu) as [Lm L2].
  unfold mask_assign.
  rewrite Lv, (mask_select_length _ _ Lm), Nat.eqb_refl.
  eexists. reflexivity.
Qed.

(** The sorted output, when there is one: its length, the fits behind
    it, and its entries when every entry is mapped on its own. *)
Lemma sorted_output_inversion
    (obs_hist obs_future cm_hist cm_future : list fl) ml mu sorted_output :
  length (argsort cm_future) = length cm_future ->
  length ml = length cm_future -> length mu = length cm_future ->
  step6_sorted_output argsort cdf_threshold self obs_hist obs_future cm_hist
                      cm_future (ml, mu) = Ok sorted_output ->
  length sorted_output = length cm_future
  /\ exists fit_cf fit_of,
       fit_cm_future argsort self cm_future (ml, mu) = Ok fit_cf
       /\ fit_obs_future self obs_future = Ok fit_of
       /\ (event_likelihood_adjustment self = false ->
           forall r, (r < length cm_future)%nat ->
                     nth r (not_set_to_either_bound (ml, mu)) false = true ->
                     nth r sorted_output NaN
                     = quantile_map cdf_threshold self fit_cf fit_of
                         (nth r (take NaN cm_future (argsort cm_future)) NaN)).
Proof.
  intros La Ll Lu. unfold step6_sorted_output.
  unfold fit_cm_future, mapped_cm_future, fit_obs_future, fit_between.
  cbn [fst snd].
  destruct (_step6_adjust_values_between_thresholds _ _ _ _ _ _) as [v |] eqn:Hv;
    [| discriminate].
  cbn [bind].
  destruct (adjust_inversion _ _ _ _ _ Hv)
    as (fcf & foh & fof & fch & F1 & _ & F3 & _ & Lv & Pw).
  destruct (mapped_mask_length cm_future ml mu La Ll Lu) as [Lm L2].
  set (s := take NaN cm_future (argsort cm_future)) in *.
  set (s2 := mask_fill mu (upper_bound self) (mask_fill ml (lower_bound self) s)) in *.
  set (mask := not_set_to_either_bound (ml, mu)) in *.
  assert (Ls : length s = length cm_future) by (apply sorted_cm_future_length, La).
  unfold mask_assign.
  rewrite Lv, (mask_select_length mask s2 Lm), Nat.eqb_refl.
  intros [= <-]. split; [rewrite scatter_length by exact Lm; exact L2 |].
  exists fcf, fof. split; [exact F1 |]. split; [exact F3 |].
  intros He r Hr Hm. rewrite (Pw He).
  rewrite scatter_map_select by exact Lm.
  rewrite (nth_map2 _ mask s2 false NaN NaN) by lia.
  rewrite Hm. f_equal.
  unfold mask, not_set_to_either_bound in Hm. cbn [fst snd] in Hm.
  rewrite (nth_map2 _ ml mu false false false) in Hm by lia.
  apply andb_true_iff in Hm. destruct Hm as [Hl Hu].
  apply negb_true_iff in Hl, Hu.
  unfold s2. rewrite nth_mask_fill by (rewrite ?mask_fill_length; lia).
  rewrite Hu.
  rewrite nth_mask_fill by lia. rewrite Hl. reflexivity.
Qed.

Lemma quantile_map_monotone (fit_cf fit_of : params D) (a b : fl) :
  0 <= cdf_threshold -> cdf_threshold <= 1 - cdf_threshold ->
  monotone (cdf D fit_cf) -> monotone_on_unit (ppf D fit_of) ->
  (a <? b)%fl = true ->
  (quantile_map cdf_threshold self fit_cf fit_of a
   <=? quantile_map cdf_threshold self fit_cf fit_of b)%fl = true.
Proof.
  intros H0 H1 Hc Hp Hab. unfold quantile_map.
  destruct (clamp_monotone cdf_threshold _ _ H1 (Hc a b Hab))
    as (p & q & -> & -> & Hp1 & Hpq & Hq1).
  apply Hp; lra.
Qed.

(** C1, as amended.  On non-empty series the counts of step 6 are
    defined and give the two masks of the entries set to a bound.  As
    soon as the four fits of the quantile mapping return, step 6
    returns a sequence of the length of [cm_future].  It is the sorted
    output scattered back through the saved sort permutation
    [np.argsort(cm_future)], whichever order that gives to equal values:
    the value computed for the sorted rank [k] is returned at the
    position [argsort[k]] that the entry of rank [k] has in
    [cm_future].  With the event likelihood adjustment off, and with a
    monotone cdf of the [cm_future] fit and a monotone ppf of the
    [obs_future] fit, the rank order of [cm_future] is kept among the
    entries that are quantile-mapped, that is not set to a bound;
    without thresholds these are all entries. *)
Theorem step6_scatters_back_and_keeps_mapped_order
    (obs_hist obs_future cm_hist cm_future : list fl) :
  keeps_unit_interval rnd ->
  is_argsort cm_future (argsort cm_future) = true ->
  obs_hist <> [] -> cm_hist <> [] -> cm_future <> [] ->
  exists masks,
    step6_bound_masks rnd argsort self obs_hist cm_hist cm_future = Ok masks
    /\ Permutation (argsort cm_future) (seq 0 (length cm_future))
    /\ (has_lower_threshold self = false -> has_upper_threshold self = false ->
        forall k, (k < length cm_future)%nat ->
                  nth k (not_set_to_either_bound masks) false = true)
    /\ forall fit_cf fit_oh fit_of fit_ch : params D,
         fit_cm_future argsort self cm_future masks = Ok fit_cf ->
         fit_between self obs_hist = Ok fit_oh ->
         fit_obs_future self obs_future = Ok fit_of ->
         fit_between self cm_hist = Ok fit_ch ->
         exists sorted_output out,
           step6_sorted_output argsort cdf_threshold self obs_hist obs_future
                               cm_hist cm_future masks = Ok sorted_output
           /\ step6 rnd argsort cdf_threshold self obs_hist (Some obs_future)
                    cm_hist cm_future = Ok out
           /\ length out = length cm_future
           /\ (forall k, (k < length cm_future)%nat ->
                         nth (nth k (argsort cm_future) 0%nat) out NaN
                         = nth k sorted_output NaN)
           /\ (event_likelihood_adjustment self = false ->
               0 <= cdf_threshold -> cdf_threshold <= 1 - cdf_threshold ->
               monotone (cdf D fit_cf) ->
               monotone_on_unit (ppf D fit_of) ->
               forall i j,
                 (i < length cm_future)%nat -> (j < length cm_future)%nat ->
                 nth (rank_of argsort cm_future i)
                     (not_set_to_either_bound masks) false = true ->
                 nth (rank_of argsort cm_future j)
                     (not_set_to_either_bound masks) false = true ->
                 (nth i cm_future NaN <? nth j cm_future NaN)%fl = true ->
                 (nth i out NaN <=? nth j out NaN)%fl = true).
Proof.
  intros R Ha Ho Hh Hf.
  pose proof (is_argsort_perm _ _ Ha) as Pa.
  pose proof (is_argsort_length _ _ Ha) as La.
  destruct (bound_masks_total obs_hist cm_hist cm_future R La Ho Hh Hf)
    as (ml & mu & Hm).
  destruct (bound_masks_length _ _ _ _ _ La Hm) as [Ll Lu].
  set (p := argsort cm_future) in *.
  set (q := argsort_idx p).
  assert (Pp : Permutation p (seq 0 (length p))) by (rewrite La; exact Pa).
  assert (Lq : length q = length cm_future).
  { unfold q, argsort_idx. rewrite argsort_by_length. exact La. }
  exists (ml, mu).
  split; [exact Hm |]. split; [exact Pa |]. split.
  - intros Hl Hu k Hk. revert Hm. unfold step6_bound_masks.
    rewrite Hl, Hu. cbn [bind]. intros [= <- <-].
    unfold not_set_to_either_bound. cbn [fst snd]. fold p.
    rewrite (nth_map2 _ _ _ false false false)
      by (rewrite ?repeat_length, ?take_length; lia).
    rewrite nth_repeat_lt by (rewrite take_length; lia).
    reflexivity.
  - intros fit_cf fit_oh fit_of fit_ch F1 F2 F3 F4.
    destruct (sorted_output_total obs_hist obs_future cm_hist cm_future ml mu
                _ _ _ _ La Ll Lu F1 F2 F3 F4) as (final & Hfin).
    destruct (sorted_output_inversion obs_hist obs_future cm_hist cm_future
                ml mu final La Ll Lu Hfin)
      as (Lf & fcf & fof & F1' & F3' & Pw).
    fold p in Pw.
    rewrite F1 in F1'. injection F1' as <-.
    rewrite F3 in F3'. injection F3' as <-.
    assert (Out : forall i, (i < length cm_future)%nat ->
                            nth i (take NaN final q) NaN
                            = nth (rank_of argsort cm_future i) final NaN).
    { intros i Hi. rewrite nth_take by lia. reflexivity. }
    exists final, (take NaN final q).
    split; [exact Hfin |].
    split; [rewrite step6_in_two_parts, Hm; cbn [bind]; rewrite Hfin;
            reflexivity |].
    split; [rewrite take_length; exact Lq |].
    split.
    + intros k Hk.
      assert (Bk : (nth k p 0 < length cm_future)%nat).
      { assert (I : In (nth k p 0%nat) p) by (apply nth_In; lia).
        eapply Permutation_in in I; [| exact Pa]. apply in_seq in I. lia. }
      rewrite nth_take by lia.
      unfold q. rewrite argsort_idx_left_inverse; [reflexivity | exact Pp | lia].
    + intros He H0 H1 Hc Hp i j Hi Hj Mi Mj Hlt.
      assert (Ri : forall i, (i < length cm_future)%nat ->
                             (rank_of argsort cm_future i < length cm_future)%nat).
      { intros i' Hi'. unfold rank_of. fold p. rewrite <- La.
        unfold argsort_idx. apply argsort_by_bound. lia. }
      assert (Val : forall i, (i < length cm_future)%nat ->
                 nth (rank_of argsort cm_future i) (take NaN cm_future p) NaN
                 = nth i cm_future NaN).
      { intros i' Hi'. rewrite nth_take by (rewrite La; apply Ri; exact Hi').
        unfold rank_of. fold p.
        rewrite argsort_idx_right_inverse; [reflexivity | exact Pp | lia]. }
      rewrite !Out by assumption.
      rewrite (Pw He _ (Ri i Hi) Mi), (Pw He _ (Ri j Hj) Mj).
      rewrite !Val by assumption.
      apply quantile_map_monotone; assumption.
Qed.

End Step6.

(** ** The uniform distribution of the examples *)

Lemma uniform_ppf_monotone (loc scale : Q) :
  0 <= scale -> monotone_on_unit (Instances.uniform_ppf (Fin loc, Fin scale)).
Proof.
  intros Hs p q H0 Hpq H1. unfold Instances.uniform_ppf. cbn [fle fst snd].
  assert (Ep : Qle_bool 0 p && Qle_bool p 1 = true).
  { apply andb_true_iff. split; apply Qle_bool_iff; lra. }
  assert (Eq : Qle_bool 0 q && Qle_bool q 1 = true).
  { apply andb_true_iff. split; apply Qle_bool_iff; lra. }
  rewrite Ep, Eq. cbn [fadd fmul fle]. apply Qle_bool_iff. nra.
Qed.

Lemma uniform_cdf_finite (loc scale v : Q) :
  0 < scale ->
  Instances.uniform_cdf (Fin loc, Fin scale) (Fin v)
  = if Qltb ((v - loc) / scale) 0 then Fin 0
    else if Qltb 1 ((v - loc) / scale) then Fin 1
    else Fin ((v - loc) / scale).
Proof.
  intros Hs. unfold Instances.uniform_cdf. cbn [fst snd fsub fdiv].
  assert (N : Qeq_bool scale 0 = false) by (apply Qeq_bool_false; lra).
  rewrite N. reflexivity.
Qed.

Lemma uniform_cdf_monotone (loc scale : Q) :
  0 < scale -> monotone (Instances.uniform_cdf (Fin loc, Fin scale)).
Proof.
  intros Hs a b Hab.
  assert (P : Qle_bool 0 scale = true) by (apply Qle_bool_iff; lra).
  assert (Inf1 : Instances.uniform_cdf (Fin loc, Fin scale) NInf = Fin 0).
  { unfold Instances.uniform_cdf. cbn [fst snd fsub fdiv]. rewrite P. reflexivity. }
  assert (Inf2 : Instances.uniform_cdf (Fin loc, Fin scale) PInf = Fin 1).
  { unfold Instances.uniform_cdf. cbn [fst snd fsub fdiv]. rewrite P. reflexivity. }
  assert (K : 0 < / scale) by (apply Qinv_lt_0_compat; exact Hs).
  destruct a as [| | x |], b as [| | y |]; try discriminate;
    rewrite ?Inf1, ?Inf2, ?uniform_cdf_finite by exact Hs;
    try reflexivity; cbn [flt] in Hab; unfold Qdiv;
    repeat match goal with
           | |- context [Qltb ?u ?v] => destruct (Qltb u v) eqn:?
           end;
    cbn [fle]; apply Qle_bool_iff; bool_to_Q; nra.
Qed.

(** ** Step 6: rank order on examples *)

Lemma step6_scatters_back_and_keeps_mapped_order_witness :
  let cm_future := [Fin 2; Fin 0; Fin 10; Fin 1] in
  exists out,
    step6 binary64 stable_argsort Instances.cdf_threshold Examples.unbounded
          [Fin 0; Fin (1 # 2); Fin (1 # 2); Fin 1]
          (Some [Fin 0; Fin 1; Fin 2; Fin 3])
          [Fin 0; Fin 1; Fin 9; Fin 10] cm_future
    = Ok out
    /\ length out = length cm_future
    /\ rank_order_preserved cm_future out.
Proof.
  intros cm_future.
  destruct (step6_scatters_back_and_keeps_mapped_order
              binary64 stable_argsort Instances.cdf_threshold Examples.unbounded
              [Fin 0; Fin (1 # 2); Fin (1 # 2); Fin 1]
              [Fin 0; Fin 1; Fin 2; Fin 3]
              [Fin 0; Fin 1; Fin 9; Fin 10]
              [Fin 2; Fin 0; Fin 10; Fin 1])
    as (masks & Hm & _ & Hall & Hfits);
    try discriminate; [exact binary64_keeps_unit_interval | reflexivity |].
  vm_compute in Hm. injection Hm as <-.
  destruct (Hfits (Fin 0, Fin 10) (Fin 0, Fin 1) (Fin 0, Fin 3) (Fin 0, Fin 10))
    as (sorted_output & out & _ & Hout & Hlen & _ & Hrank);
    try reflexivity.
  exists out. split; [exact Hout |]. split; [exact Hlen |].
  intros i j Hi Hj Hlt.
  apply Hrank; try assumption; try reflexivity; try discriminate.
  - apply (uniform_cdf_monotone 0 10). reflexivity.
  - apply (uniform_ppf_monotone 0 3). discriminate.
  - do 4 (destruct i as [| i]; [reflexivity |]). cbn in Hi. lia.
  - do 4 (destruct j as [| j]; [reflexivity |]). cbn in Hj. lia.
Defined.

(** C1, against the property as the specification states it.  An unbounded variable fitted with
    [scipy.stats.uniform], with the event likelihood adjustment on:
    the fitted ppf is monotone, and step 6 maps
    [cm_future = [2, 0, 10, 1]] to [[3/11, eps, 3 - eps, 3/2]].  The
    entry 1 lies below the entry 2, and its image 3/2 above 3/11.  The
    series has no equal values, and every fit is of a finite sample. *)
Lemma step6_rank_order_counterexample :
  ~ step6_keeps_rank_order binary64 stable_argsort Instances.cdf_threshold
      Examples.likelihood_adjusted
      [Fin 0; Fin (1 # 2); Fin (1 # 2); Fin 1]
      [Fin 0; Fin 1; Fin 2; Fin 3]
      [Fin 0; Fin 1; Fin 9; Fin 10]
      [Fin 2; Fin 0; Fin 10; Fin 1].
Proof.
  intros H. destruct H as (out & Hout & _ & Hrank).
  - intros fit_of E. vm_compute in E. injection E as <-.
    apply (uniform_ppf_monotone 0 3). discriminate.
  - vm_compute in Hout. injection Hout as <-.
    specialize (Hrank 3%nat 0%nat). cbn [length] in Hrank.
    assert (F : false = true)
      by (apply Hrank; [lia | lia | reflexivity]).
    discriminate.
Qed.

(** The same on the side of the bounds, with the adjustment off: lower
    bound 7/4, lower threshold 9/5, and a uniform model centred at the
    sample mean (its cdf and ppf are monotone).  Step 6 maps
    [cm_future = [11, 1, 3, 11]] to [[11/3, 7/4, 5/3, 11/3]]: the entry
    1 is set to the bound 7/4, and the entry 3 is mapped below it. *)
Lemma step6_bound_entry_out_of_order :
  ~ step6_keeps_rank_order binary64 stable_argsort Instances.cdf_threshold
      Examples.bounded_below
      [Fin 1; Fin 2; Fin 4; Fin 4]
      [Fin 1; Fin 2; Fin 4]
      [Fin 1; Fin 3; Fin 5; Fin 5]
      [Fin 11; Fin 1; Fin 3; Fin 11].
Proof.
  intros H. destruct H as (out & Hout & _ & Hrank).
  - intros fit_of E. vm_compute in E. injection E as <-.
    apply uniform_ppf_monotone. discriminate.
  - vm_compute in Hout. injection Hout as <-.
    specialize (Hrank 1%nat 2%nat). cbn [length] in Hrank.
    assert (F : false = true)
      by (apply Hrank; [lia | lia | reflexivity]).
    discriminate.
Qed.

(** * Further properties of the methods *)

(** ** The masks of the thresholds *)

Lemma fl_trichotomy (v lt ut : fl) :
  isnan v = false -> (lt <? ut)%fl = true ->
  ((v <=? lt)%fl = true /\ ((v >? lt) && (v <? ut))%fl = false
   /\ (v >=? ut)%fl = false)
  \/ ((v <=? lt)%fl = false /\ ((v >? lt) && (v <? ut))%fl = true
      /\ (v >=? ut)%fl = false)
  \/ ((v <=? lt)%fl = false /\ ((v >? lt) && (v <? ut))%fl = false
      /\ (v >=? ut)%fl = true).
Proof.
  intros Hv Hlt. unfold fgt, fge.
  destruct v as [| | x |], lt as [| | l |], ut as [| | u |];
    try discriminate; cbn [fle flt andb] in *; auto;
    repeat match goal with
           | |- context [Qle_bool ?a ?b] => destruct (Qle_bool a b) eqn:?
           | |- context [Qltb ?a ?b] => destruct (Qltb a b) eqn:?
           end;
    cbn [andb]; auto; exfalso; bool_to_Q; lra.
Qed.

(** Between ordered thresholds every sample that is not NaN is counted
    once: beyond the lower threshold, between the thresholds, or
    beyond the upper threshold. *)
Theorem threshold_masks_partition (self : ISIMIP) (x : list fl) :
  (lower_threshold self <? upper_threshold self)%fl = true ->
  Forall (fun v => isnan v = false) x ->
  (count_true (_get_mask_for_values_beyond_lower_threshold self x)
   + count_true (_get_mask_for_values_between_thresholds self x)
   + count_true (_get_mask_for_values_beyond_upper_threshold self x)
   = length x)%nat
  /\ length (_get_values_between_thresholds self x)
     = count_true (_get_mask_for_values_between_thresholds self x).
Proof.
  intros Hlt Hx. split.
  - unfold _get_mask_for_values_beyond_lower_threshold,
      _get_mask_for_values_between_thresholds,
      _get_mask_for_values_beyond_upper_threshold, count_true.
    induction Hx as [| v x Hv _ IH]; [reflexivity |].
    cbn [map filter length].
    destruct (fl_trichotomy v _ _ Hv Hlt)
      as [(-> & -> & ->) | [(-> & -> & ->) | (-> & -> & ->)]];
      cbn [id length]; lia.
  - unfold _get_values_between_thresholds. apply mask_select_length.
    unfold _get_mask_for_values_between_thresholds. apply length_map.
Qed.

Lemma threshold_masks_partition_witness :
  let x := [Fin 0; Fin 1; Fin 5; Fin 9; Fin 10; PInf] in
  (count_true (_get_mask_for_values_beyond_lower_threshold Examples.bounded_both x)
   + count_true (_get_mask_for_values_between_thresholds Examples.bounded_both x)
   + count_true (_get_mask_for_values_beyond_upper_threshold Examples.bounded_both x)
   = length x)%nat
  /\ length (_get_values_between_thresholds Examples.bounded_both x)
     = count_true (_get_mask_for_values_between_thresholds Examples.bounded_both x).
Proof.
  apply (threshold_masks_partition Examples.bounded_both
           [Fin 0; Fin 1; Fin 5; Fin 9; Fin 10; PInf]).
  - reflexivity.
  - repeat constructor.
Defined.

(** A NaN sample is in none of the three masks. *)
Lemma nan_in_no_mask (self : ISIMIP) :
  _get_mask_for_values_beyond_lower_threshold self [NaN] = [false]
  /\ _get_mask_for_values_between_thresholds self [NaN] = [false]
  /\ _get_mask_for_values_beyond_upper_threshold self [NaN] = [false].
Proof.
  unfold _get_mask_for_values_beyond_lower_threshold,
    _get_mask_for_values_between_thresholds,
    _get_mask_for_values_beyond_upper_threshold, fgt, fge.
  cbn [map]. destruct (lower_threshold self), (upper_threshold self);
    repeat split; reflexivity.
Qed.

(** ** The check of the physical range *)

Lemma existsb_false_Forall {A} (f : A -> bool) (l : list A) :
  existsb f l = false <-> Forall (fun v => f v = false) l.
Proof.
  induction l as [| a l IH]; cbn.
  - split; [constructor | reflexivity].
  - rewrite orb_false_iff, IH. split.
    + intros [Ha Hl]. constructor; assumption.
    + intros H. inversion H; subst. split; assumption.
Qed.

Lemma inside_range_iff (lo hi v : fl) :
  isnan lo = false -> isnan hi = false ->
  (outside_range lo hi v = false
   <-> isnan v = true \/ ((lo <=? v) && (v <=? hi))%fl = true).
Proof.
  intros Hlo Hhi. unfold outside_range, fgt.
  destruct v as [| | x |], lo as [| | l |], hi as [| | h |];
    try discriminate; cbn [flt fle isnan orb andb];
    repeat match goal with
           | |- context [Qle_bool ?a ?b] => destruct (Qle_bool a b) eqn:?
           | |- context [Qltb ?a ?b] => destruct (Qltb a b) eqn:?
           end;
    cbn [orb andb];
    try (split; [intros _; try (left; reflexivity); right; reflexivity
                | reflexivity]);
    try (split; [discriminate | intros [? | ?]; discriminate]);
    exfalso; bool_to_Q; lra.
Qed.

(** With a range [lo, hi] configured, the three series pass the check
    exactly when each value is NaN or lies in [lo, hi]: a missing value
    is never reported. *)
Theorem range_check_passes_iff
    (self : ISIMIP) (obs_hist cm_hist cm_future : list fl) (lo hi : fl) :
  reasonable_physical_range self = Some (lo, hi) ->
  isnan lo = false -> isnan hi = false ->
  (_check_reasonable_physical_range self obs_hist cm_hist cm_future = Ok tt
   <-> Forall (fun v => isnan v = true \/ ((lo <=? v) && (v <=? hi))%fl = true)
              (obs_hist ++ cm_hist ++ cm_future)).
Proof.
  intros Hr Hlo Hhi.
  rewrite (check_ok_iff self obs_hist cm_hist cm_future lo hi Hr).
  rewrite existsb_false_Forall.
  split; intros H; (eapply Forall_impl; [| exact H]); intros v Hv;
    apply (inside_range_iff lo hi v Hlo Hhi); exact Hv.
Qed.

Lemma range_check_passes_iff_witness :
  _check_reasonable_physical_range Examples.unbounded
    [Fin 1; NaN] [NaN; Fin 100] [Fin 0; NaN] = Ok tt
  <-> Forall (fun v => isnan v = true
                       \/ ((Fin 0 <=? v) && (v <=? Fin 100))%fl = true)
             ([Fin 1; NaN] ++ [NaN; Fin 100] ++ [Fin 0; NaN]).
Proof.
  apply (range_check_passes_iff Examples.unbounded
           [Fin 1; NaN] [NaN; Fin 100] [Fin 0; NaN] (Fin 0) (Fin 100));
    reflexivity.
Defined.

(** ** Step 6: more on the target fraction *)

Lemma Qdiv_le_compat (a b c : Q) : 0 < c -> a <= b -> a / c <= b / c.
Proof.
  intros Hc Hab. unfold Qdiv. apply Qmult_le_compat_r; [exact Hab |].
  apply Qlt_le_weak, Qinv_lt_0_compat, Hc.
Qed.

Lemma P_obs_future_rule_monotone (o h f1 f2 : Q) :
  0 <= o <= 1 -> 0 <= h <= 1 -> 0 <= f1 -> f1 <= f2 -> f2 <= 1 ->
  P_obs_future_rule o h f1 <= P_obs_future_rule o h f2.
Proof.
  intros Ho Hh H0 H12 H1. unfold P_obs_future_rule, approximately_equal.
  destruct (Qle_bool (Qabs (h - o)) (atol + rtol * Qabs o)); [exact H12 |].
  destruct (Qle_bool f1 h && Qltb o h) eqn:A1;
    destruct (Qle_bool f2 h && Qltb o h) eqn:A2;
    destruct (Qle_bool h f1 && Qltb h o) eqn:B1;
    destruct (Qle_bool h f2 && Qltb h o) eqn:B2;
    bool_to_Q;
    repeat match goal with
           | H : _ \/ _ |- _ => destruct H
           end;
    bool_to_Q; try lra.
  all: first
    [ apply Qdiv_le_compat; [lra | nra]
    | assert (o * f1 / h <= o * h / h)
        by (apply Qdiv_le_compat; [lra | nra]);
      assert (o * h / h == o) by (field; lra); lra
    | assert ((1 - o) * (1 - f2) / (1 - h) <= (1 - o) * (1 - f1) / (1 - h))
        by (apply Qdiv_le_compat; [lra | nra]);
      lra
    | assert ((1 - o) * (1 - f2) / (1 - h) <= (1 - o) * (1 - h) / (1 - h))
        by (apply Qdiv_le_compat; [lra | nra]);
      assert ((1 - o) * (1 - h) / (1 - h) == 1 - o) by (field; lra); lra ].
Qed.

(** The target fraction grows with the fraction of [cm_future]: for
    fixed [P_obs_hist] and [P_cm_hist], more values beyond the
    threshold in [cm_future] never give a smaller [P_obs_future]. *)
Theorem step6_P_obs_future_monotone (P_obs_hist P_cm_hist f1 f2 : Q) :
  0 <= P_obs_hist <= 1 -> 0 <= P_cm_hist <= 1 ->
  0 <= f1 -> f1 <= f2 -> f2 <= 1 ->
  exists p1 p2,
    _step6_get_P_obs_future exact (Fin P_obs_hist) (Fin P_cm_hist) (Fin f1) = Fin p1
    /\ _step6_get_P_obs_future exact (Fin P_obs_hist) (Fin P_cm_hist) (Fin f2) = Fin p2
    /\ p1 <= p2.
Proof.
  intros Ho Hh H0 H12 H1.
  exists (P_obs_future_rule P_obs_hist P_cm_hist f1),
         (P_obs_future_rule P_obs_hist P_cm_hist f2).
  split; [apply P_obs_future_is_rule; lra |].
  split; [apply P_obs_future_is_rule; lra |].
  apply P_obs_future_rule_monotone; assumption.
Qed.

Lemma step6_P_obs_future_monotone_witness :
  exists p1 p2,
    _step6_get_P_obs_future exact (Fin (1 # 4)) (Fin (1 # 2)) (Fin (1 # 3)) = Fin p1
    /\ _step6_get_P_obs_future exact (Fin (1 # 4)) (Fin (1 # 2)) (Fin (3 # 4)) = Fin p2
    /\ p1 <= p2.
Proof.
  apply (step6_P_obs_future_monotone (1 # 4) (1 # 2) (1 # 3) (3 # 4));
    try split; discriminate.
Defined.

(** When the model fractions do not change between the historical and
    the future period, the target fraction is the observed one, up to
    the tolerance of the comparison of the first branch. *)
Theorem step6_P_obs_future_without_change (P_obs_hist P_cm_hist : Q) :
  0 <= P_obs_hist <= 1 -> 0 <= P_cm_hist <= 1 ->
  exists p,
    _step6_get_P_obs_future exact (Fin P_obs_hist) (Fin P_cm_hist) (Fin P_cm_hist)
    = Fin p
    /\ Qabs (p - P_obs_hist) <= atol + rtol * Qabs P_obs_hist.
Proof.
  intros Ho Hh. exists (P_obs_future_rule P_obs_hist P_cm_hist P_cm_hist).
  split; [apply P_obs_future_is_rule; assumption |].
  assert (Tol : 0 <= atol + rtol * Qabs P_obs_hist).
  { pose proof (Qabs_nonneg P_obs_hist). unfold atol, rtol. lra. }
  assert (Z : forall p, p == P_obs_hist ->
                        Qabs (p - P_obs_hist) <= atol + rtol * Qabs P_obs_hist).
  { intros p ->. setoid_replace (P_obs_hist - P_obs_hist) with 0 by ring.
    exact Tol. }
  unfold P_obs_future_rule, approximately_equal.
  destruct (Qle_bool (Qabs (P_cm_hist - P_obs_hist))
                     (atol + rtol * Qabs P_obs_hist)) eqn:B1.
  - apply Qle_bool_iff. exact B1.
  - destruct (Qle_bool P_cm_hist P_cm_hist && Qltb P_obs_hist P_cm_hist) eqn:B2.
    + bool_to_Q. apply Z. field. lra.
    + destruct (Qle_bool P_cm_hist P_cm_hist && Qltb P_cm_hist P_obs_hist) eqn:B3.
      * bool_to_Q. apply Z. field. lra.
      * apply Z. ring.
Qed.

Lemma step6_P_obs_future_without_change_witness :
  exists p,
    _step6_get_P_obs_future exact (Fin (1 # 4)) (Fin (1 # 2)) (Fin (1 # 2)) = Fin p
    /\ Qabs (p - (1 # 4)) <= atol + rtol * Qabs (1 # 4).
Proof.
  apply (step6_P_obs_future_without_change (1 # 4) (1 # 2)); split; discriminate.
Defined.

(** ** Step 6 on an empty series *)

Lemma P_obs_future_nan (rnd : Q -> Q) (o h f : fl) :
  isnan o = true \/ isnan h = true \/ isnan f = true ->
  _step6_get_P_obs_future rnd o h f = NaN.
Proof.
  unfold _step6_get_P_obs_future, rounded, fge, fgt.
  intros [H | [H | H]]; destruct o, h, f; try discriminate;
    cbn [isclose_rounded fle flt andb fadd fsub fmul fdiv round_fl];
    repeat match goal with
           | |- context [Qle_bool ?a ?b] => destruct (Qle_bool a b)
           end;
    reflexivity.
Qed.

Lemma percent_of_empty (rnd : Q -> Q) :
  _step6_calculate_percent_values_beyond_threshold rnd [] = NaN.
Proof. reflexivity. Qed.

Lemma nr_of_entries_on_empty (rnd : Q -> Q) (mo mh mf : list bool) :
  mo = [] \/ mh = [] \/ mf = [] ->
  _step6_get_nr_of_entries_to_set_to_bound rnd mo mh mf
  = Raise NanToIntegerError.
Proof.
  intros H. unfold _step6_get_nr_of_entries_to_set_to_bound.
  rewrite P_obs_future_nan.
  - unfold of_nat, rounded. reflexivity.
  - destruct H as [-> | [-> | ->]]; rewrite percent_of_empty; auto.
Qed.

Lemma np_sort_nil : np_sort [] = [].
Proof. reflexivity. Qed.

(** With a threshold configured, step 6 on an empty [obs_hist],
    [cm_hist] or [cm_future] raises, whatever the other two series
    hold: the fraction of an empty mask is NaN, the target fraction is
    then NaN in every branch, and the count cannot be rounded.  This
    holds for every rounding, and for every [np.argsort] that returns
    one index per entry. *)
Theorem step6_on_empty_series
    (rnd : Q -> Q) (argsort : list fl -> list nat)
    (cdf_threshold : Q) (self : ISIMIP)
    (obs_hist obs_future cm_hist cm_future : list fl) :
  length (argsort cm_future) = length cm_future ->
  obs_hist = [] \/ cm_hist = [] \/ cm_future = [] ->
  has_lower_threshold self || has_upper_threshold self = true ->
  step6 rnd argsort cdf_threshold self obs_hist (Some obs_future) cm_hist cm_future
  = Raise NanToIntegerError.
Proof.
  intros La He Ht. rewrite step6_in_two_parts.
  unfold step6_bound_masks, _step6_get_mask_for_entries_to_set_to_lower_bound,
    _step6_get_mask_for_entries_to_set_to_upper_bound,
    _get_mask_for_values_beyond_lower_threshold,
    _get_mask_for_values_beyond_upper_threshold.
  assert (E : forall f : fl -> bool,
             map f (np_sort obs_hist) = [] \/ map f (np_sort cm_hist) = []
             \/ map f (take NaN cm_future (argsort cm_future)) = []).
  { intros f. destruct He as [-> | [-> | ->]]; auto.
    right; right. destruct (argsort []); [reflexivity | discriminate]. }
  rewrite !nr_of_entries_on_empty by apply E.
  destruct (has_lower_threshold self); [reflexivity |].
  destruct (has_upper_threshold self); [reflexivity | discriminate].
Qed.

Lemma step6_on_empty_series_witness :
  step6 binary64 stable_argsort Instances.cdf_threshold Examples.bounded_both
        [Fin 1; Fin 2] (Some [Fin 1; Fin 2]) [] [Fin 1; Fin 2]
  = Raise NanToIntegerError.
Proof.
  apply (step6_on_empty_series binary64 stable_argsort Instances.cdf_threshold
           Examples.bounded_both [Fin 1; Fin 2] [Fin 1; Fin 2] [] [Fin 1; Fin 2]);
    [reflexivity | right; left; reflexivity | reflexivity].
Defined.

(** ** Step 6: the entries set to a bound *)

Lemma nth_scatter_unmasked {A} (m : list bool) (v x : list A) (d : A) (k : nat) :
  length m = length x -> nth k m false = false ->
  nth k (scatter m v x) d = nth k x d.
Proof.
  revert v x k. induction m as [| b m IH]; intros v [| a x] k L Hk;
    cbn in *; try lia; try reflexivity.
  destruct k as [| k].
  - subst b. reflexivity.
  - destruct b; [destruct v |]; cbn; apply IH; auto; lia.
Qed.



Section Step6Bounds.
Variable rnd : Q -> Q.
Variable argsort : list fl -> list nat.
Variable cdf_threshold : Q.
Variable self : ISIMIP.




End Step6Bounds.



(** ** Step 6 without values between the thresholds *)

Lemma mask_select_none (f : fl -> bool) (x : list fl) :
  Forall (fun v => f v = false) x -> mask_select (map f x) x = [].
Proof.
  unfold mask_select. induction 1 as [| v x Hv _ IH]; [reflexivity |].
  cbn [map combine filter fst]. rewrite Hv. exact IH.
Qed.

Lemma values_between_of_none (self : ISIMIP) (x : list fl) :
  none_between_thresholds self x ->
  _get_values_between_thresholds self (np_sort x) = [].
Proof.
  intros H.
  unfold _get_values_between_thresholds, _get_mask_for_values_between_thresholds.
  apply mask_select_none.
  eapply Permutation_Forall; [symmetry; apply isort_perm | exact H].
Qed.

(** A series without values between the thresholds makes step 6
    raise, when the [fit] of the distribution raises on an empty
    sample: lines 512 to 517 fit the distribution to the values between
    the thresholds of [obs_hist], [obs_future] and [cm_hist], whatever
    the counts are.  With the defaults of the class for the thresholds
    ([lower_threshold = inf], [upper_threshold = -inf]) no value lies
    between them. *)
Theorem step6_raises_without_values_between_thresholds
    (rnd : Q -> Q) (argsort : list fl -> list nat)
    (cdf_threshold : Q) (self : ISIMIP)
    (obs_hist obs_future cm_hist cm_future : list fl) :
  fit (distribution self) [] = None ->
  none_between_thresholds self obs_hist
  \/ none_between_thresholds self obs_future
  \/ none_between_thresholds self cm_hist ->
  exists e,
    step6 rnd argsort cdf_threshold self obs_hist (Some obs_future) cm_hist
          cm_future = Raise e.
Proof.
  intros Hfit Hnone. rewrite step6_in_two_parts.
  destruct (step6_bound_masks rnd argsort self obs_hist cm_hist cm_future)
    as [masks | e]; [| exists e; reflexivity].
  cbn [bind]. unfold step6_sorted_output.
  rewrite adjust_raises; [exists FitError; reflexivity |].
  right.
  destruct Hnone as [H | [H | H]];
    rewrite (values_between_of_none self _ H); auto.
Qed.

Lemma step6_raises_without_values_between_thresholds_witness :
  exists e,
    step6 binary64 stable_argsort Instances.cdf_threshold Examples.class_defaults
          [Fin 1; Fin 2] (Some [Fin 1; Fin 2]) [Fin 3; Fin 4]
          [Fin 7; Fin 5; Fin 6]
    = Raise e.
Proof.
  apply (step6_raises_without_values_between_thresholds binary64 stable_argsort
           Instances.cdf_threshold Examples.class_defaults
           [Fin 1; Fin 2] [Fin 1; Fin 2] [Fin 3; Fin 4] [Fin 7; Fin 5; Fin 6]);
    [reflexivity | left; repeat constructor].
Defined.

Lemma take_perm {A} (d : A) (l : list A) (q : list nat) :
  Permutation q (seq 0 (length l)) -> Permutation (take d l q) l.
Proof.
  intros H. unfold take. rewrite (Permutation_map _ H).
  assert (E : forall (x : list A) pre,
             map (fun i => nth i (pre ++ x) d) (seq (length pre) (length x)) = x).
  { induction x as [| a x IH]; intros pre; cbn; [reflexivity |].
    rewrite app_nth2, Nat.sub_diag by lia. cbn. f_equal.
    specialize (IH (pre ++ [a])). rewrite <- app_assoc, length_app in IH.
    cbn in IH. rewrite Nat.add_1_r in IH. exact IH. }
  specialize (E l []). cbn in E. rewrite E. reflexivity.
Qed.

(** ** The order of a sort *)

Lemma sort_le_total (a b : fl) : sort_le a b = false -> sort_le b a = true.
Proof.
  destruct a as [| | x |], b as [| | y |]; cbn; try reflexivity;
    try discriminate.
  intros H. bool_to_Q. apply Qle_bool_iff. lra.
Qed.

Lemma sort_le_trans (a b c : fl) :
  sort_le a b = true -> sort_le b c = true -> sort_le a c = true.
Proof.
  destruct a as [| | x |], b as [| | y |], c as [| | z |]; cbn;
    try reflexivity; try discriminate.
  intros H1 H2. bool_to_Q. apply Qle_bool_iff. lra.
Qed.

Lemma flt_not_sort_le (a b : fl) : (a <? b)%fl = true -> sort_le b a = false.
Proof.
  destruct a as [| | x |], b as [| | y |]; cbn; try reflexivity;
    try discriminate.
  intros H. bool_to_Q. apply Qle_bool_gt. exact H.
Qed.

Lemma flt_irrefl (a : fl) : (a <? a)%fl = false.
Proof.
  destruct a as [| | x |]; cbn; try reflexivity. apply Qltb_ge. lra.
Qed.

Lemma strongly_sorted_nth {A} (R : A -> A -> Prop) (l : list A) (d : A) (i j : nat) :
  StronglySorted R l -> (i < j)%nat -> (j < length l)%nat ->
  R (nth i l d) (nth j l d).
Proof.
  intros H. revert i j. induction H as [| a l Hs IH Ha]; intros i j Hij Hj;
    cbn in *; [lia |].
  destruct j as [| j]; [lia |]. destruct i as [| i].
  - apply (proj1 (Forall_forall _ _) Ha). apply nth_In. lia.
  - apply IH; lia.
Qed.

Lemma np_sort_sorted (x : list fl) :
  StronglySorted (fun a b => sort_le a b = true) (np_sort x).
Proof. apply isort_sorted; [exact sort_le_total | exact sort_le_trans]. Qed.

Lemma strongly_sorted_impl {A} (R S : A -> A -> Prop) (l : list A) :
  (forall a b, R a b -> S a b) -> StronglySorted R l -> StronglySorted S l.
Proof.
  intros H. induction 1 as [| a l Hs IH Ha]; constructor; [exact IH |].
  eapply Forall_impl; [| exact Ha]. intros b. apply H.
Qed.

Lemma strongly_sorted_map {A B} (g : A -> B) (R : B -> B -> Prop) (l : list A) :
  StronglySorted (fun a b => R (g a) (g b)) l -> StronglySorted R (map g l).
Proof.
  induction 1 as [| a l Hs IH Ha]; cbn; constructor; [exact IH |].
  apply Forall_map. exact Ha.
Qed.

Lemma sortedb_of_sorted (l : list fl) :
  StronglySorted (fun a b => sort_le a b = true) l -> sortedb l = true.
Proof.
  induction 1 as [| a l Hs IH Ha]; [reflexivity |].
  destruct l as [| b l]; [reflexivity |].
  change (sort_le a b && sortedb (b :: l) = true).
  rewrite IH. inversion Ha as [| ? ? Hab _]; subst. rewrite Hab. reflexivity.
Qed.

Lemma nat_list_eqb_refl (l : list nat) : nat_list_eqb l l = true.
Proof.
  induction l as [| i l IH]; [reflexivity |].
  cbn. rewrite Nat.eqb_refl. exact IH.
Qed.

(** The stable sort is an argsort: [is_argsort] holds of a function. *)
Lemma stable_argsort_is_argsort (x : list fl) :
  is_argsort x (stable_argsort x) = true.
Proof.
  unfold is_argsort. apply andb_true_iff. split.
  - replace (isort Nat.leb (stable_argsort x)) with (seq 0 (length x));
      [apply nat_list_eqb_refl |].
    symmetry. apply sorted_perm_unique.
    + apply (strongly_sorted_impl (fun a b => Nat.leb a b = true)).
      * intros a b H. apply Nat.leb_le. exact H.
      * apply isort_sorted.
        -- intros a b. rewrite Nat.leb_gt, Nat.leb_le. lia.
        -- intros a b c. rewrite !Nat.leb_le. lia.
    + apply seq_strongly_sorted.
    + rewrite isort_perm. apply argsort_by_perm.
  - unfold stable_argsort, argsort_by.
    set (P := isort (fun a b : fl * nat => sort_le (fst a) (fst b))
                    (combine x (seq 0 (length x)))).
    rewrite map_map.
    rewrite (map_ext_in _ fst).
    + apply sortedb_of_sorted.
      apply (strongly_sorted_map fst (fun a b => sort_le a b = true)).
      apply isort_sorted.
      * intros a b. apply sort_le_total.
      * intros a b c. apply sort_le_trans.
    + intros [v j] I.
      eapply Permutation_in in I; [| apply isort_perm].
      apply (combine_seq_In NaN) in I. destruct I as [_ Hv]. exact Hv.
Qed.

(** The rank of a smaller value is smaller. *)
Lemma rank_of_monotone (y : list fl) (i j : nat) :
  (i < length y)%nat -> (j < length y)%nat ->
  (nth i y NaN <? nth j y NaN)%fl = true ->
  (rank_of stable_argsort y i < rank_of stable_argsort y j)%nat.
Proof.
  intros Hi Hj Hlt. unfold rank_of.
  set (p := stable_argsort y). set (q := argsort_idx p).
  assert (Lp : length p = length y) by apply argsort_by_length.
  assert (Pp : Permutation p (seq 0 (length p))).
  { unfold p, stable_argsort. rewrite argsort_by_length. apply argsort_by_perm. }
  assert (Bq : forall k, (k < length y)%nat -> (nth k q 0 < length y)%nat).
  { intros k Hk. rewrite <- Lp. unfold q, argsort_idx.
    apply argsort_by_bound. lia. }
  assert (Inv : forall k, (k < length y)%nat -> nth (nth k q 0%nat) p 0%nat = k).
  { intros k Hk. apply argsort_idx_right_inverse; [exact Pp | lia]. }
  set (P := isort (fun a b : fl * nat => sort_le (fst a) (fst b))
                  (combine y (seq 0 (length y)))).
  assert (SP : StronglySorted (fun a b : fl * nat => sort_le (fst a) (fst b) = true) P).
  { apply isort_sorted.
    - intros a b. apply sort_le_total.
    - intros a b c. apply sort_le_trans. }
  assert (LP : length P = length y).
  { unfold P. rewrite isort_length, length_combine, length_seq. lia. }
  assert (Val : forall k, (k < length y)%nat ->
                          fst (nth k P (NaN, 0%nat)) = nth (nth k p 0%nat) y NaN).
  { intros k Hk.
    assert (I : In (nth k P (NaN, 0%nat)) (combine y (seq 0 (length y)))).
    { assert (I0 : In (nth k P (NaN, 0%nat)) P) by (apply nth_In; lia).
      eapply Permutation_in; [apply isort_perm | exact I0]. }
    destruct (nth k P (NaN, 0%nat)) as [v m] eqn:E.
    apply (combine_seq_In NaN) in I. destruct I as [_ Hv].
    assert (Em : nth k p 0%nat = m).
    { unfold p, stable_argsort, argsort_by. fold P.
      change 0%nat with (snd (NaN, 0%nat)) at 1. rewrite map_nth, E. reflexivity. }
    rewrite Em. cbn. symmetry. exact Hv. }
  destruct (Nat.lt_ge_cases (nth i q 0%nat) (nth j q 0%nat)) as [L | L];
    [exact L | exfalso].
  apply Nat.le_lteq in L. destruct L as [L | L].
  - pose proof (strongly_sorted_nth _ P (NaN, 0%nat) _ _ SP L
                  ltac:(rewrite LP; apply Bq; exact Hi)) as S.
    cbn beta in S.
    rewrite !Val in S by (apply Bq; assumption).
    rewrite !Inv in S by assumption.
    rewrite (flt_not_sort_le _ _ Hlt) in S. discriminate.
  - assert (E : i = j) by (rewrite <- (Inv i Hi), <- (Inv j Hj), L; reflexivity).
    subst j. rewrite flt_irrefl in Hlt. discriminate.
Qed.

(** Sorting [x] like [y]: a permutation of [x] in the rank order of
    [y]. *)
Lemma sort_like_spec (x y : list fl) :
  length x = length y ->
  length (sort_array_like_another_one x y) = length y
  /\ Permutation (sort_array_like_another_one x y) x
  /\ (forall i j, (i < length y)%nat -> (j < length y)%nat ->
                  (nth i y NaN <? nth j y NaN)%fl = true ->
                  sort_le (nth i (sort_array_like_another_one x y) NaN)
                          (nth j (sort_array_like_another_one x y) NaN) = true).
Proof.
  intros L. unfold sort_array_like_another_one.
  set (p := stable_argsort y).
  assert (Lp : length p = length y) by apply argsort_by_length.
  assert (Lq : length (argsort_idx p) = length y).
  { unfold argsort_idx. rewrite argsort_by_length. exact Lp. }
  split; [rewrite take_length; exact Lq |]. split.
  - transitivity (np_sort x); [| apply isort_perm].
    apply take_perm. rewrite np_sort_length, L, <- Lp.
    unfold argsort_idx. apply argsort_by_perm.
  - intros i j Hi Hj Hlt. rewrite !nth_take by lia.
    apply (strongly_sorted_nth (fun a b => sort_le a b = true) (np_sort x) NaN);
      [apply np_sort_sorted | |].
    + apply rank_of_monotone; assumption.
    + rewrite np_sort_length, L, <- Lp. unfold argsort_idx.
      apply argsort_by_bound. lia.
Qed.

(** ** Step 4: the lower side *)

Lemma select_scatter {A} (m : list bool) (v x : list A) :
  length m = length x -> length v = count_true m ->
  mask_select m (scatter m v x) = v.
Proof.
  unfold mask_select, count_true. revert v x.
  induction m as [| b m IH]; intros v [| a x] L Lv; cbn in *; try lia.
  - destruct v; [reflexivity | discriminate].
  - destruct b; cbn in *.
    + destruct v as [| w v]; [discriminate |]. cbn [length] in Lv. cbn.
      f_equal. apply IH; lia.
    + apply IH; lia.
Qed.

(** With a lower bound and threshold and no upper ones, step 4
    re-assigns exactly the positions holding values beyond the lower
    threshold: the other positions keep their value, the selected
    positions receive the drawn samples, each once, and in the rank
    order that the selected values had. *)
Theorem step4_lower_side
    (Rng : Type) (uniform : Rng -> fl -> fl -> nat -> list fl * Rng)
    (self : ISIMIP) (rng : Rng) (cm_future : list fl) :
  let mask := _get_mask_for_values_beyond_lower_threshold self cm_future in
  let draw :=
    uniform rng (lower_bound self) (lower_threshold self) (count_true mask) in
  has_lower_bound self && has_lower_threshold self = true ->
  has_upper_bound self && has_upper_threshold self = false ->
  length (fst draw) = count_true mask ->
  exists out,
    step4 Rng uniform self rng cm_future = Ok (out, snd draw)
    /\ length out = length cm_future
    /\ (forall k, nth k mask false = false ->
                  nth k out NaN = nth k cm_future NaN)
    /\ Permutation (mask_select mask out) (fst draw)
    /\ (forall i j,
           (i < count_true mask)%nat -> (j < count_true mask)%nat ->
           (nth i (mask_select mask cm_future) NaN
            <? nth j (mask_select mask cm_future) NaN)%fl = true ->
           sort_le (nth i (mask_select mask out) NaN)
                   (nth j (mask_select mask out) NaN) = true).
Proof.
  intros mask draw Hl Hu Hd. unfold step4. rewrite Hl, Hu.
  fold mask. fold draw. destruct draw as [u rng'] eqn:Ed. cbn [fst snd] in *.
  assert (Lm : length mask = length cm_future) by apply length_map.
  assert (Ly : length (mask_select mask cm_future) = count_true mask)
    by (apply mask_select_length; exact Lm).
  destruct (sort_like_spec (np_sort u) (mask_select mask cm_future))
    as (Ls & Ps & Rs); [rewrite np_sort_length; lia |].
  unfold mask_assign. rewrite Ls, Ly, Nat.eqb_refl. cbn [bind].
  eexists. split; [reflexivity |].
  split; [apply scatter_length; exact Lm |].
  split; [| split].
  - intros k Hk. apply nth_scatter_unmasked; assumption.
  - rewrite select_scatter by lia.
    rewrite Ps. apply isort_perm.
  - intros i j Hi Hj Hlt. rewrite select_scatter by lia.
    apply Rs; [lia | lia | exact Hlt].
Qed.

Lemma step4_lower_side_witness :
  exists out,
    step4 (list Q) Instances.tape_uniform Examples.bounded_below_only
          Instances.tape [Fin (1 # 2); Fin 5; Fin (1 # 5); Fin 3; Fin 0]
    = Ok (out, [5 # 8; 1 # 2; 1 # 3])
    /\ length out = 5%nat
    /\ Permutation (mask_select [true; false; true; false; true] out)
                   [Fin (1 # 4); Fin (3 # 4); Fin (1 # 8)].
Proof.
  destruct (step4_lower_side (list Q) Instances.tape_uniform
              Examples.bounded_below_only Instances.tape
              [Fin (1 # 2); Fin 5; Fin (1 # 5); Fin 3; Fin 0])
    as (out & Hout & Hlen & _ & Hperm & _); try reflexivity.
  exists out. split; [exact Hout |]. split; [exact Hlen |].
  etransitivity; [exact Hperm |].
  vm_compute. repeat constructor.
Defined.

(** ** Step 2: imputation *)

Lemma impute_keeps_known {B} (g : B -> fl) (x : list fl) (u : list B) :
  length u = length x ->
  Forall2 (fun old new => isnan old = false -> new = old)
          x (map2 (fun v p => if isnan v then g p else v) x u).
Proof.
  revert u. induction x as [| v x IH]; intros [| p u] L; cbn in *;
    try discriminate; constructor.
  - intros H. rewrite H. reflexivity.
  - apply IH. lia.
Qed.

(** Step 2 changes missing values only: whatever the variable, each
    series comes back with its length and with every value that is not
    NaN in place; for a variable other than [prsnratio] nothing is
    drawn and nothing changes. *)
Theorem step2_keeps_known_values
    (iecdf : option string -> list fl -> fl -> fl)
    (Rng : Type) (uniform : Rng -> fl -> fl -> nat -> list fl * Rng)
    (self : ISIMIP) (rng : Rng) (obs_hist cm_hist cm_future : list fl) :
  (forall r low high size, length (fst (uniform r low high size)) = size) ->
  let '(obs_hist', cm_hist', cm_future', rng') :=
    step2 iecdf Rng uniform self rng obs_hist cm_hist cm_future in
  Forall2 (fun old new => isnan old = false -> new = old) obs_hist obs_hist'
  /\ Forall2 (fun old new => isnan old = false -> new = old) cm_hist cm_hist'
  /\ Forall2 (fun old new => isnan old = false -> new = old) cm_future cm_future'
  /\ (String.eqb (variable self) "prsnratio" = false ->
      (obs_hist', cm_hist', cm_future', rng')
      = (obs_hist, cm_hist, cm_future, rng)).
Proof.
  intros Hu. unfold step2, impute.
  assert (Same : forall x : list fl,
             Forall2 (fun old new => isnan old = false -> new = old) x x).
  { induction x; constructor; auto. }
  destruct (String.eqb (variable self) "prsnratio").
  - pose proof (Hu rng (Fin 0) (Fin 1) (length obs_hist)) as L1.
    destruct (uniform rng (Fin 0) (Fin 1) (length obs_hist)) as [u1 r1].
    pose proof (Hu r1 (Fin 0) (Fin 1) (length cm_hist)) as L2.
    destruct (uniform r1 (Fin 0) (Fin 1) (length cm_hist)) as [u2 r2].
    pose proof (Hu r2 (Fin 0) (Fin 1) (length cm_future)) as L3.
    destruct (uniform r2 (Fin 0) (Fin 1) (length cm_future)) as [u3 r3].
    cbn [fst] in *.
    repeat split; try (apply impute_keeps_known; assumption).
    discriminate.
  - repeat split; auto.
Qed.

Lemma step2_keeps_known_values_witness :
  let '(obs_hist', cm_hist', cm_future', rng') :=
    step2 Instances.iecdf_inverted nat Instances.counter_uniform
          Examples.snowfall_ratio 3%nat
          [Fin (1 # 2); NaN; Fin (1 # 4)] [NaN; Fin 1] [Fin 0; Fin (3 # 4)] in
  Forall2 (fun old new => isnan old = false -> new = old)
          [Fin (1 # 2); NaN; Fin (1 # 4)] obs_hist'
  /\ Forall2 (fun old new => isnan old = false -> new = old)
             [NaN; Fin 1] cm_hist'
  /\ Forall2 (fun old new => isnan old = false -> new = old)
             [Fin 0; Fin (3 # 4)] cm_future'
  /\ (String.eqb (variable Examples.snowfall_ratio) "prsnratio" = false ->
      (obs_hist', cm_hist', cm_future', rng')
      = ([Fin (1 # 2); NaN; Fin (1 # 4)], [NaN; Fin 1], [Fin 0; Fin (3 # 4)],
         3%nat)).
Proof.
  apply (step2_keeps_known_values Instances.iecdf_inverted nat
           Instances.counter_uniform Examples.snowfall_ratio 3%nat
           [Fin (1 # 2); NaN; Fin (1 # 4)] [NaN; Fin 1] [Fin 0; Fin (3 # 4)]).
  intros r low high size. unfold Instances.counter_uniform. cbn [fst].
  rewrite length_map. apply length_seq.
Defined.

(** ** Step 5: the trend transfer, sample by sample *)

Section OverOneList.
Context {B : Type}.
Variable Z : list B.

Lemma map2_map_same {X Y C} (f : X -> Y -> C) (h1 : B -> X) (h2 : B -> Y) :
  map2 f (map h1 Z) (map h2 Z) = map (fun z => f (h1 z) (h2 z)) Z.
Proof. induction Z as [| z l IH]; cbn; [reflexivity | rewrite IH; reflexivity]. Qed.

Lemma combine_map_same {X Y} (h1 : B -> X) (h2 : B -> Y) :
  combine (map h1 Z) (map h2 Z) = map (fun z => (h1 z, h2 z)) Z.
Proof. induction Z as [| z l IH]; cbn; [reflexivity | rewrite IH; reflexivity]. Qed.

Lemma repeat_as_map {X} (v : X) : repeat v (length Z) = map (fun _ => v) Z.
Proof. induction Z as [| z l IH]; cbn; [reflexivity | rewrite IH; reflexivity]. Qed.

Lemma fill_map_same {X} (c : B -> bool) (v : X) (e : B -> X) :
  mask_fill (map c Z) v (map e Z) = map (fun z => if c z then v else e z) Z.
Proof.
  unfold mask_fill. rewrite combine_map_same, map_map. reflexivity.
Qed.

Lemma select_map_same {X} (c : B -> bool) (h : B -> X) :
  mask_select (map c Z) (map h Z) = map h (filter c Z).
Proof.
  unfold mask_select. induction Z as [| z l IH]; cbn; [reflexivity |].
  destruct (c z); cbn; rewrite IH; reflexivity.
Qed.

Lemma count_map_same (c : B -> bool) :
  count_true (map c Z) = length (filter c Z).
Proof.
  unfold count_true. induction Z as [| z l IH]; cbn; [reflexivity |].
  destruct (c z); cbn; rewrite IH; reflexivity.
Qed.

Lemma scatter_map_same {X} (c : B -> bool) (g e : B -> X) :
  scatter (map c Z) (map g (filter c Z)) (map e Z)
  = map (fun z => if c z then g z else e z) Z.
Proof.
  induction Z as [| z l IH]; cbn; [reflexivity |].
  destruct (c z); cbn; rewrite IH; reflexivity.
Qed.

Lemma assign_map_same {X} (c : B -> bool) (g e : B -> X) :
  mask_assign (map c Z) (map g (filter c Z)) (map e Z)
  = Ok (map (fun z => if c z then g z else e z) Z).
Proof.
  unfold mask_assign.
  rewrite length_map, count_map_same, Nat.eqb_refl, scatter_map_same.
  reflexivity.
Qed.
End OverOneList.

Lemma zip3 (x y z : list fl) :
  length y = length x -> length z = length x ->
  exists Z : list (fl * (fl * fl)),
    x = map fst Z
    /\ y = map (fun t => fst (snd t)) Z
    /\ z = map (fun t => snd (snd t)) Z
    /\ combine x (combine y z) = Z.
Proof.
  intros Ly Lz. exists (combine x (combine y z)).
  revert y z Ly Lz. induction x as [| a x IH]; intros [| b y] [| c z] Ly Lz;
    cbn in *; try discriminate; [repeat split; reflexivity |].
  destruct (IH y z ltac:(lia) ltac:(lia)) as (E1 & E2 & E3 & _).
  repeat split; f_equal; assumption.
Qed.

Section TransferTrend.
Variable ecdf : string -> list fl -> fl -> fl.
Variable iecdf : option string -> list fl -> fl -> fl.
Variable cos : fl -> fl.
Variable pi : fl.
Variable self : ISIMIP.

Lemma transfer_quantiles_length (obs_hist cm : list fl) :
  length (transfer_quantiles ecdf iecdf self obs_hist cm) = length obs_hist.
Proof. unfold transfer_quantiles. rewrite !length_map. reflexivity. Qed.

(** The vectorised code computes [transfer_one] at every sample. *)
Lemma transfer_trend_samplewise (obs_hist cm_hist cm_future : list fl) :
  _step5_transfer_trend ecdf iecdf cos pi self obs_hist cm_hist cm_future
  = Ok (map (fun t => transfer_one cos pi self (fst t) (fst (snd t)) (snd (snd t)))
            (combine obs_hist
                     (combine (transfer_quantiles ecdf iecdf self obs_hist cm_hist)
                              (transfer_quantiles ecdf iecdf self obs_hist cm_future)))).
Proof.
  unfold _step5_transfer_trend, delta_mult_of.
  fold (transfer_quantiles ecdf iecdf self obs_hist cm_hist).
  fold (transfer_quantiles ecdf iecdf self obs_hist cm_future).
  destruct (zip3 obs_hist _ _
              (transfer_quantiles_length obs_hist cm_hist)
              (transfer_quantiles_length obs_hist cm_future))
    as (Z & E1 & E2 & E3 & ->).
  rewrite E2, E3. clear E2 E3. rewrite E1. clear E1.
  unfold transfer_one, delta_mult_one.
  destruct (trend_preservation_method self); cbv zeta;
    repeat (rewrite ?length_map, ?repeat_as_map, ?map2_map_same,
              ?combine_map_same, ?fill_map_same, ?select_map_same, ?map_map,
              ?assign_map_same;
            cbn [bind fst snd]);
    reflexivity.
Qed.

End TransferTrend.

Lemma Forall_combine3 {A} (P Q R : A -> Prop) (x y z : list A) :
  Forall P x -> Forall Q y -> Forall R z ->
  Forall (fun t => P (fst t) /\ Q (fst (snd t)) /\ R (snd (snd t)))
         (combine x (combine y z)).
Proof.
  intros Hx. revert y z. induction Hx as [| a x Ha _ IH]; intros y z Hy Hz;
    [constructor |].
  destruct Hy as [| b y Hb Hy]; [constructor |].
  destruct Hz as [| c z Hc Hz]; [constructor |].
  cbn. constructor; [cbn; auto | apply IH; assumption].
Qed.

Lemma delta_mult_one_clamped (h f : fl) :
  isnan (delta_mult_one h f) = true
  \/ exists q, delta_mult_one h f = Fin q /\ (1 # 100) <= q <= 100.
Proof.
  unfold delta_mult_one.
  destruct (if (h ==? Fin 0)%fl then Fin 1 else (f / h)%fl) as [| | x |];
    cbn [fmin fmax fle isnan]; auto; right;
    repeat match goal with
           | |- context [Qle_bool ?a ?b] => destruct (Qle_bool a b) eqn:?
           end;
    cbn [fmin fmax fle]; eexists; (split; [reflexivity |]); bool_to_Q;
    split; lra.
Qed.

Lemma delta_mult_one_finite (h f : Q) :
  isnan (delta_mult_one (Fin h) (Fin f)) = false.
Proof.
  unfold delta_mult_one. cbn [feq fdiv].
  destruct (Qeq_bool h 0); cbn [fmin fmax fle isnan];
    repeat match goal with
           | |- context [Qle_bool ?a ?b] => destruct (Qle_bool a b) eqn:?
           end;
    reflexivity.
Qed.

Lemma delta_mult_one_same (q : Q) :
  exists d, delta_mult_one (Fin q) (Fin q) = Fin d /\ d == 1.
Proof.
  unfold delta_mult_one. cbn [feq fdiv].
  destruct (Qeq_bool q 0) eqn:E0.
  - exists 1. split; reflexivity.
  - bool_to_Q. assert (E : q / q == 1) by (field; exact E0).
    cbn [fmin fle].
    assert (L1 : Qle_bool 100 (q / q) = false)
      by (apply Qle_bool_gt; rewrite E; reflexivity).
    rewrite L1. cbn [fmax fle].
    assert (L2 : Qle_bool (1 # 100) (q / q) = true)
      by (apply Qle_bool_iff; rewrite E; discriminate).
    rewrite L2. exists (q / q). split; [reflexivity | exact E].
Qed.

Lemma delta_mult_of_pointwise (qh qf : list fl) :
  delta_mult_of qh qf = map2 delta_mult_one qh qf.
Proof.
  unfold delta_mult_of, delta_mult_one. revert qf.
  induction qh as [| h qh IH]; intros [| f qf]; cbn [map map2];
    try reflexivity.
  rewrite IH. reflexivity.
Qed.

Lemma delta_mult_all_clamped (qh qf : list fl) :
  Forall (fun d => isnan d = true
                   \/ exists q, d = Fin q /\ (1 # 100) <= q <= 100)
         (map2 delta_mult_one qh qf).
Proof.
  revert qf. induction qh as [| h qh IH]; intros [| f qf]; cbn [map2];
    constructor; [apply delta_mult_one_clamped | apply IH].
Qed.

Lemma delta_mult_all_finite (qh qf : list fl) :
  Forall (fun v => isfinite v = true) qh ->
  Forall (fun v => isfinite v = true) qf ->
  Forall (fun d => isnan d = false) (map2 delta_mult_one qh qf).
Proof.
  intros Fh. revert qf.
  induction Fh as [| h qh Hh _ IH]; intros qf Ff; [constructor |].
  destruct Ff as [| f qf Hf Ff]; cbn [map2]; constructor; [| apply IH; exact Ff].
  destruct h, f; try discriminate. apply delta_mult_one_finite.
Qed.

Section TransferTrendProperties.
Variable ecdf : string -> list fl -> fl -> fl.
Variable iecdf : option string -> list fl -> fl -> fl.
Variable cos : fl -> fl.
Variable pi : fl.
Variable self : ISIMIP.

Local Abbreviation transfer :=
  (_step5_transfer_trend ecdf iecdf cos pi self).
Local Abbreviation quantiles := (transfer_quantiles ecdf iecdf self).

(** With [trend_transfer_only_for_values_within_threshold = True],
    step 5 returns, for every trend preservation method, one value per
    observation, computed from the observation and from the quantiles
    of [cm_hist] and [cm_future] at its own probability; it raises
    nothing and leaves [obs_hist] as it is. *)
Theorem step5_transfers_sample_by_sample (obs_hist cm_hist cm_future : list fl) :
  trend_transfer_only_for_values_within_threshold self = true ->
  exists obs_future,
    step5 ecdf iecdf cos pi self obs_hist cm_hist cm_future
    = Ok (Some obs_future, obs_hist)
    /\ length obs_future = length obs_hist
    /\ forall k, (k < length obs_hist)%nat ->
         nth k obs_future NaN
         = transfer_one cos pi self
             (nth k obs_hist NaN)
             (nth k (quantiles obs_hist cm_hist) NaN)
             (nth k (quantiles obs_hist cm_future) NaN).
Proof.
  intros Hf. unfold step5. rewrite Hf, transfer_trend_samplewise. cbn [bind].
  eexists. split; [reflexivity |].
  assert (L : length (combine obs_hist
                       (combine (quantiles obs_hist cm_hist)
                                (quantiles obs_hist cm_future)))
              = length obs_hist).
  { rewrite !length_combine, !transfer_quantiles_length. lia. }
  split; [rewrite length_map; exact L |].
  intros k Hk.
  rewrite (nth_indep _ NaN
             (transfer_one cos pi self (fst (NaN, (NaN, NaN)))
                (fst (snd (NaN, (NaN, NaN)))) (snd (snd (NaN, (NaN, NaN))))))
    by (rewrite length_map, L; exact Hk).
  rewrite (map_nth (fun t => transfer_one cos pi self (fst t) (fst (snd t))
                               (snd (snd t)))).
  rewrite !combine_nth
    by (rewrite ?length_combine, ?transfer_quantiles_length; lia).
  reflexivity.
Qed.

(** The multiplicative method multiplies every observation by a factor
    clamped to [0.01, 100]; the factor is NaN only if a quantile is not
    finite. *)
Theorem multiplicative_factor_is_clamped (obs_hist cm_hist cm_future : list fl) :
  trend_preservation_method self = multiplicative ->
  exists delta,
    transfer obs_hist cm_hist cm_future = Ok (map2 fmul obs_hist delta)
    /\ length delta = length obs_hist
    /\ Forall (fun d => isnan d = true
                        \/ exists q, d = Fin q /\ (1 # 100) <= q <= 100) delta
    /\ (Forall (fun v => isfinite v = true) (quantiles obs_hist cm_hist) ->
        Forall (fun v => isfinite v = true) (quantiles obs_hist cm_future) ->
        Forall (fun d => isnan d = false) delta).
Proof.
  intros Hm. unfold _step5_transfer_trend. rewrite Hm.
  fold (quantiles obs_hist cm_hist). fold (quantiles obs_hist cm_future).
  set (qh := quantiles obs_hist cm_hist).
  set (qf := quantiles obs_hist cm_future).
  assert (Lh : length qh = length obs_hist) by apply transfer_quantiles_length.
  assert (Lf : length qf = length obs_hist) by apply transfer_quantiles_length.
  exists (delta_mult_of qh qf). split; [reflexivity |].
  rewrite delta_mult_of_pointwise.
  split; [rewrite map2_length; lia |].
  split; [apply delta_mult_all_clamped | apply delta_mult_all_finite].
Qed.

(** The bounded method keeps values between the bounds: for
    observations and quantiles in [lower_bound, upper_bound], every
    pseudo future observation lies in [lower_bound, upper_bound]. *)
Theorem bounded_transfer_stays_in_bounds
    (a b : Q) (obs_hist cm_hist cm_future : list fl) :
  trend_preservation_method self = bounded ->
  lower_bound self = Fin a -> upper_bound self = Fin b ->
  Forall (fun v => exists q, v = Fin q /\ a <= q <= b) obs_hist ->
  Forall (fun v => exists q, v = Fin q /\ a <= q <= b) (quantiles obs_hist cm_hist) ->
  Forall (fun v => exists q, v = Fin q /\ a <= q <= b) (quantiles obs_hist cm_future) ->
  exists obs_future,
    transfer obs_hist cm_hist cm_future = Ok obs_future
    /\ length obs_future = length obs_hist
    /\ Forall (fun v => exists q, v = Fin q /\ a <= q <= b) obs_future.
Proof.
  intros Hm Ha Hb Fo Fh Ff. rewrite transfer_trend_samplewise.
  eexists. split; [reflexivity |]. split.
  - rewrite length_map, !length_combine, !transfer_quantiles_length. lia.
  - apply Forall_map.
    eapply Forall_impl; [| apply (Forall_combine3 _ _ _ _ _ _ Fo Fh Ff)].
    intros [o [h f]]. cbn [fst snd].
    intros ((qo & -> & Ro) & (qh & -> & Rh) & (qf & -> & Rf)).
    unfold transfer_one. rewrite Hm, Ha, Hb. cbv zeta.
    cbn [isclose fgt flt fsub fmul].
    destruct (Qle_bool (Qabs (qh - qf)) (atol + rtol * Qabs qf)) eqn:C;
      [exists qo; split; [reflexivity | exact Ro] |].
    assert (Ne : ~ qh == qf).
    { intros E. revert C. rewrite E.
      setoid_replace (qf - qf) with 0 by ring. cbn [Qabs Z.abs Qnum Qden].
      pose proof (Qabs_nonneg qf). unfold atol, rtol.
      intros C. bool_to_Q. lra. }
    destruct (Qltb qf qh) eqn:G; bool_to_Q.
    + cbn [fdiv fadd].
      assert (N : Qeq_bool (qh - a) 0 = false) by (apply Qeq_bool_false; lra).
      rewrite N. eexists. split; [reflexivity |].
      assert (0 <= (qo - a) * (qf - a) / (qh - a) <= qo - a).
      { split.
        - apply Qle_shift_div_l; [lra | nra].
        - apply Qle_shift_div_r; [lra | nra]. }
      lra.
    + assert (Lt : qh < qf).
      { apply Qle_lteq in G. destruct G as [G | G]; [exact G |].
        exfalso. apply Ne. exact G. }
      cbn [fdiv fsub].
      assert (N : Qeq_bool (b - qh) 0 = false) by (apply Qeq_bool_false; lra).
      rewrite N. eexists. split; [reflexivity |].
      assert (0 <= (b - qo) * (b - qf) / (b - qh) <= b - qo).
      { split.
        - apply Qle_shift_div_l; [lra | nra].
        - apply Qle_shift_div_r; [lra | nra]. }
      lra.
Qed.

End TransferTrendProperties.

Lemma step5_transfers_sample_by_sample_witness :
  exists obs_future,
    step5 Instances.ecdf_step Instances.iecdf_inverted Instances.cos_poly
          Instances.pi_approx (Examples.with_method mixed)
          [Fin 1; Fin 5; Fin 9] [Fin 2; Fin 4; Fin 6] [Fin 3; Fin 5; Fin 8]
    = Ok (Some obs_future, [Fin 1; Fin 5; Fin 9])
    /\ length obs_future = 3%nat.
Proof.
  destruct (step5_transfers_sample_by_sample Instances.ecdf_step
              Instances.iecdf_inverted Instances.cos_poly Instances.pi_approx
              (Examples.with_method mixed)
              [Fin 1; Fin 5; Fin 9] [Fin 2; Fin 4; Fin 6] [Fin 3; Fin 5; Fin 8])
    as (obs_future & H & L & _); [reflexivity |].
  exists obs_future. split; assumption.
Defined.

Lemma multiplicative_factor_is_clamped_witness :
  exists delta,
    _step5_transfer_trend Instances.ecdf_step Instances.iecdf_inverted
      Instances.cos_poly Instances.pi_approx (Examples.with_method multiplicative)
      [Fin 1; Fin 5; Fin 9] [Fin 0; Fin (1 # 1000); Fin 6] [Fin 3; Fin 5; Fin 8]
    = Ok (map2 fmul [Fin 1; Fin 5; Fin 9] delta)
    /\ Forall (fun d => isnan d = true
                        \/ exists q, d = Fin q /\ (1 # 100) <= q <= 100) delta.
Proof.
  destruct (multiplicative_factor_is_clamped Instances.ecdf_step
              Instances.iecdf_inverted Instances.cos_poly Instances.pi_approx
              (Examples.with_method multiplicative)
              [Fin 1; Fin 5; Fin 9] [Fin 0; Fin (1 # 1000); Fin 6]
              [Fin 3; Fin 5; Fin 8])
    as (delta & H & _ & C & _); [reflexivity |].
  exists delta. split; assumption.
Defined.

Lemma bounded_transfer_stays_in_bounds_witness :
  exists obs_future,
    _step5_transfer_trend Instances.ecdf_step Instances.iecdf_inverted
      Instances.cos_poly Instances.pi_approx (Examples.with_method bounded)
      [Fin 1; Fin 5; Fin 9] [Fin 2; Fin 4; Fin 6] [Fin 3; Fin 5; Fin 8]
    = Ok obs_future
    /\ length obs_future = 3%nat
    /\ Forall (fun v => exists q, v = Fin q /\ 0 <= q <= 10) obs_future.
Proof.
  apply (bounded_transfer_stays_in_bounds Instances.ecdf_step
           Instances.iecdf_inverted Instances.cos_poly Instances.pi_approx
           (Examples.with_method bounded) 0 10
           [Fin 1; Fin 5; Fin 9] [Fin 2; Fin 4; Fin 6] [Fin 3; Fin 5; Fin 8]);
    try reflexivity;
    match goal with
    | |- Forall _ ?l =>
        let t := eval vm_compute in l in
        change l with t;
        repeat constructor; eexists; (split; [reflexivity |]);
        split; discriminate
    end.
Defined.

(** When the model output does not change, [cm_future = cm_hist], the
    additive, the multiplicative and the bounded method return the
    observations themselves (for finite observations and quantiles). *)
Theorem transfer_without_change_is_identity
    (ecdf : string -> list fl -> fl -> fl)
    (iecdf : option string -> list fl -> fl -> fl)
    (cos : fl -> fl) (pi : fl) (self : ISIMIP) (obs_hist cm : list fl) :
  trend_preservation_method self <> mixed ->
  Forall (fun v => isfinite v = true) obs_hist ->
  Forall (fun v => isfinite v = true)
         (transfer_quantiles ecdf iecdf self obs_hist cm) ->
  exists obs_future,
    _step5_transfer_trend ecdf iecdf cos pi self obs_hist cm cm = Ok obs_future
    /\ Forall2 fequiv obs_future obs_hist.
Proof.
  intros Hm Fo Fq. rewrite transfer_trend_samplewise.
  eexists. split; [reflexivity |].
  pose proof (transfer_quantiles_length ecdf iecdf self obs_hist cm) as L.
  revert Fq L. generalize (transfer_quantiles ecdf iecdf self obs_hist cm).
  intros q Fq. revert Fo. revert obs_hist.
  induction Fq as [| h q Hh _ IH]; intros [| o obs] Fo L; cbn in L;
    try discriminate; [constructor |].
  inversion Fo as [| ? ? Ho Fo']; subst.
  cbn [combine map fst snd]. constructor; [| apply IH; [exact Fo' | lia]].
  destruct o as [| | x |], h as [| | y |]; try discriminate.
  unfold transfer_one.
  destruct (trend_preservation_method self); [| | congruence |].
  - cbn. ring.
  - destruct (delta_mult_one_same y) as (d & -> & Ed). cbn. rewrite Ed. ring.
  - cbv zeta. cbn [isclose].
    assert (C : Qle_bool (Qabs (y - y)) (atol + rtol * Qabs y) = true).
    { apply Qle_bool_iff. setoid_replace (y - y) with 0 by ring.
      cbn [Qabs Z.abs Qnum Qden]. pose proof (Qabs_nonneg y).
      unfold atol, rtol. lra. }
    rewrite C. cbn. reflexivity.
Qed.

Lemma transfer_without_change_is_identity_witness :
  exists obs_future,
    _step5_transfer_trend Instances.ecdf_step Instances.iecdf_inverted
      Instances.cos_poly Instances.pi_approx (Examples.with_method multiplicative)
      [Fin 1; Fin 5; Fin 9] [Fin 2; Fin 4; Fin 6] [Fin 2; Fin 4; Fin 6]
    = Ok obs_future
    /\ Forall2 fequiv obs_future [Fin 1; Fin 5; Fin 9].
Proof.
  apply (transfer_without_change_is_identity Instances.ecdf_step
           Instances.iecdf_inverted Instances.cos_poly Instances.pi_approx
           (Examples.with_method multiplicative)
           [Fin 1; Fin 5; Fin 9] [Fin 2; Fin 4; Fin 6]).
  - discriminate.
  - repeat constructor.
  - vm_compute. repeat constructor.
Defined.

(** ** The pipeline on one window *)

Section Pipeline.
Variable ecdf : string -> list fl -> fl -> fl.
Variable iecdf : option string -> list fl -> fl -> fl.
Variable cos : fl -> fl.
Variable pi : fl.
Variable linregress : list fl -> list fl -> LinregressResult.
Variable Rng : Type.
Variable uniform : Rng -> fl -> fl -> nat -> list fl * Rng.
Variable Time : Type.
Variable month : Time -> Z.
Variable year : Time -> Z.
Variable rnd : Q -> Q.
Variable argsort : list fl -> list nat.
Variable cdf_threshold : Q.
Variable self : ISIMIP.

Local Abbreviation on_window :=
  (_apply_on_window ecdf iecdf cos pi linregress Rng uniform
    rnd argsort cdf_threshold self).
Local Abbreviation on_location :=
  (apply_location ecdf iecdf cos pi linregress Rng uniform Time month year
                  rnd argsort cdf_threshold self).

Lemma apply_on_window_raises_without_flag rng oh ch cf y1 y2 y3 :
  trend_transfer_only_for_values_within_threshold self = false ->
  exists e, on_window rng oh ch cf y1 y2 y3 = Raise e.
Proof.
  intros Hf. unfold _apply_on_window, step1.
  destruct (step2 iecdf Rng uniform self rng oh ch cf) as [[[oh' ch'] cf'] rng'].
  destruct (step3 linregress self oh' ch' cf' y1 y2 y3)
    as [[[[oh3 ch3] cf3] tr] | e]; [| eexists; reflexivity].
  cbn [bind].
  destruct (step4 Rng uniform self rng' cf3) as [[cf4 rng4] | e];
    [| eexists; reflexivity].
  cbn [bind].
  destruct (step5 ecdf iecdf cos pi self oh3 ch3 cf4) as [[ret oh5] | e] eqn:E5;
    [| eexists; reflexivity].
  cbn [bind].
  pose proof (step5_returns_none _ _ _ _ _ _ _ _ _ Hf E5) as N.
  cbn [fst] in N. subst ret. unfold step6. cbn [bind].
  eexists. reflexivity.
Qed.

Lemma fold_months_raise (step : result (list fl * Rng) -> Z -> result (list fl * Rng))
    (months : list Z) (e : error) :
  (forall m, step (Raise e) m = Raise e) ->
  fold_left step months (Raise e) = Raise e.
Proof.
  intros H. induction months as [| m months IH]; cbn; [reflexivity |].
  rewrite H. exact IH.
Qed.

(** Outside running-window mode, with
    [trend_transfer_only_for_values_within_threshold = False], the
    entry point returns no result: every call raises. *)
Theorem apply_location_monthly_without_flag_raises
    rng obs_hist cm_hist cm_future t1 t2 t3 :
  running_window_mode self = false ->
  trend_transfer_only_for_values_within_threshold self = false ->
  exists e,
    apply_location ecdf iecdf cos pi linregress Rng uniform Time month year
                  
                   rnd argsort cdf_threshold self rng obs_hist cm_hist cm_future t1 t2 t3
    = Raise e.
Proof.
  intros Hm Hf. unfold apply_location.
  destruct (_check_reasonable_physical_range self obs_hist cm_hist cm_future)
    as [[] | e]; [| eexists; reflexivity].
  cbn [bind]. rewrite Hm.
  destruct t1 as [t1 |], t2 as [t2 |], t3 as [t3 |];
    try (eexists; reflexivity).
  change (map Z.of_nat (seq 1 12))
    with (1%Z :: map Z.of_nat (seq 2 11)).
  cbn [fold_left bind].
  destruct (apply_on_window_raises_without_flag rng
              (mask_select (month_mask Time month 1 t1) obs_hist)
              (mask_select (month_mask Time month 1 t2) cm_hist)
              (mask_select (month_mask Time month 1 t3) cm_future)
              (Some (map year (mask_select (month_mask Time month 1 t1) t1)))
              (Some (map year (mask_select (month_mask Time month 1 t2) t2)))
              (Some (map year (mask_select (month_mask Time month 1 t3) t3)))
              Hf) as [e He].
  rewrite He. cbn [bind]. exists e.
  apply fold_months_raise. reflexivity.
Qed.

(** Outside running-window mode the entry point needs all three time
    arrays: with one of them missing, input that passes the range check
    is answered by the mode error. *)
Theorem apply_location_requires_time_information
    rng obs_hist cm_hist cm_future t1 t2 t3 :
  running_window_mode self = false ->
  _check_reasonable_physical_range self obs_hist cm_hist cm_future = Ok tt ->
  t1 = None \/ t2 = None \/ t3 = None ->
  apply_location ecdf iecdf cos pi linregress Rng uniform Time month year
                 rnd argsort cdf_threshold self rng obs_hist cm_hist cm_future t1 t2 t3
  = Raise ModeError.
Proof.
  intros Hm Hc Ht. unfold apply_location. rewrite Hc, Hm. cbn [bind].
  destruct Ht as [-> | [-> | ->]]; [| destruct t1 | destruct t1, t2];
    reflexivity.
Qed.

(** In monthly mode a result, when there is one, has the length of
    [cm_future] (for time labels that come one per sample). *)
Theorem apply_location_monthly_length
    rng obs_hist cm_hist cm_future t1 t2 t3 out rng' :
  running_window_mode self = false ->
  length t3 = length cm_future ->
  apply_location ecdf iecdf cos pi linregress Rng uniform Time month year
                 rnd argsort cdf_threshold self rng obs_hist cm_hist cm_future
                 (Some t1) (Some t2) (Some t3)
  = Ok (out, rng') ->
  length out = length cm_future.
Proof.
  intros Hm Lt. unfold apply_location.
  destruct (_check_reasonable_physical_range self obs_hist cm_hist cm_future)
    as [[] | e]; [| discriminate].
  cbn [bind]. rewrite Hm.
  assert (G : forall months (acc : result (list fl * Rng)),
             (forall d r, acc = Ok (d, r) -> length d = length cm_future) ->
             forall d r,
               fold_left
                 (fun (acc : result (list fl * Rng)) (i_month : Z) =>
                    '(debiased_cm_future, rng) <- acc ;;
                    '(window, rng) <-
                      on_window rng
                        (mask_select (month_mask Time month i_month t1) obs_hist)
                        (mask_select (month_mask Time month i_month t2) cm_hist)
                        (mask_select (month_mask Time month i_month t3) cm_future)
                        (Some (map year (mask_select (month_mask Time month i_month t1) t1)))
                        (Some (map year (mask_select (month_mask Time month i_month t2) t2)))
                        (Some (map year (mask_select (month_mask Time month i_month t3) t3))) ;;
                    debiased_cm_future <-
                      mask_assign (month_mask Time month i_month t3) window
                                  debiased_cm_future ;;
                    Ok (debiased_cm_future, rng))
                 months acc = Ok (d, r) ->
               length d = length cm_future).
  { induction months as [| m months IH]; intros acc Hacc d r; cbn [fold_left].
    - apply Hacc.
    - apply IH. intros d' r'.
      destruct acc as [[d0 r0] | e]; [| discriminate]. cbn [bind].
      destruct (on_window _ _ _ _ _ _ _) as [[w r1] | e]; [| discriminate].
      cbn [bind].
      destruct (mask_assign (month_mask Time month m t3) w d0) as [d1 |] eqn:Ea;
        [| discriminate].
      cbn [bind]. intros [= <- <-].
      rewrite (mask_assign_length _ _ _ _ ltac:(
                 unfold month_mask; rewrite length_map, Lt;
                 symmetry; exact (Hacc d0 r0 eq_refl)) Ea).
      exact (Hacc d0 r0 eq_refl). }
  apply G. intros d r [= <- <-]. apply repeat_length.
Qed.

End Pipeline.

(** Two years of monthly values: every month has two samples in each
    series. *)
Lemma apply_location_monthly_length_witness :
  let t := flat_map (fun y => map (fun m => (y, Z.of_nat m)) (seq 1 12))
                    [2000; 2001]%Z in
  let obs_hist := map (fun i => Fin (inject_Z (Z.of_nat i))) (seq 1 24) in
  let cm_hist := map (fun i => Fin (inject_Z (Z.of_nat (2 * i)))) (seq 1 24) in
  let cm_future := map (fun i => Fin (inject_Z (Z.of_nat (3 * i + 1)))) (seq 1 24) in
  exists out rng',
    apply_location Instances.ecdf_step Instances.iecdf_inverted
      Instances.cos_poly Instances.pi_approx Instances.linregress_two_points
      (list Q) Instances.tape_uniform Instances.Time Instances.month
      Instances.year binary64 stable_argsort Instances.cdf_threshold
      (Examples.monthly true) Instances.tape
      obs_hist cm_hist cm_future (Some t) (Some t) (Some t)
    = Ok (out, rng')
    /\ length out = 24%nat.
Proof.
  intros t obs_hist cm_hist cm_future.
  destruct (apply_location Instances.ecdf_step Instances.iecdf_inverted
      Instances.cos_poly Instances.pi_approx Instances.linregress_two_points
      (list Q) Instances.tape_uniform Instances.Time Instances.month
      Instances.year binary64 stable_argsort Instances.cdf_threshold
      (Examples.monthly true) Instances.tape
      obs_hist cm_hist cm_future (Some t) (Some t) (Some t))
    as [[out rng'] | e] eqn:E.
  - exists out, rng'. split; [reflexivity |].
    apply (apply_location_monthly_length Instances.ecdf_step
             Instances.iecdf_inverted Instances.cos_poly Instances.pi_approx
             Instances.linregress_two_points (list Q) Instances.tape_uniform
             Instances.Time Instances.month Instances.year
             binary64 stable_argsort Instances.cdf_threshold
             (Examples.monthly true)) in E;
      [exact E | reflexivity | reflexivity].
  - vm_compute in E. discriminate.
Defined.

(** A month without samples: in the third month the distribution is
    fitted to an empty sample, and [scipy.stats.uniform] raises. *)
Lemma monthly_mode_month_without_samples :
  let t := [(2000, 1); (2000, 2); (2001, 1); (2001, 2)]%Z in
  apply_location Instances.ecdf_step Instances.iecdf_inverted
    Instances.cos_poly Instances.pi_approx Instances.linregress_two_points
    (list Q) Instances.tape_uniform Instances.Time Instances.month
    Instances.year binary64 stable_argsort Instances.cdf_threshold
    (Examples.monthly true) Instances.tape
    [Fin 1; Fin 2; Fin 3; Fin 4] [Fin 2; Fin 3; Fin 5; Fin 7]
    [Fin 3; Fin 4; Fin 6; Fin 9] (Some t) (Some t) (Some t)
  = Raise FitError.
Proof. vm_compute. reflexivity. Qed.

Lemma apply_location_monthly_without_flag_raises_witness :
  let t := [(2000, 1); (2000, 2); (2001, 1); (2001, 2)]%Z in
  exists e,
    apply_location Instances.ecdf_step Instances.iecdf_inverted
      Instances.cos_poly Instances.pi_approx Instances.linregress_two_points
      (list Q) Instances.tape_uniform Instances.Time Instances.month
      Instances.year
      binary64 stable_argsort Instances.cdf_threshold (Examples.monthly false)
      Instances.tape
      [Fin 1; Fin 2; Fin 3; Fin 4] [Fin 2; Fin 3; Fin 5; Fin 7]
      [Fin 3; Fin 4; Fin 6; Fin 9] (Some t) (Some t) (Some t)
    = Raise e.
Proof.
  intros t.
  apply (apply_location_monthly_without_flag_raises Instances.ecdf_step
           Instances.iecdf_inverted Instances.cos_poly Instances.pi_approx
           Instances.linregress_two_points (list Q) Instances.tape_uniform
           Instances.Time Instances.month Instances.year
           binary64 stable_argsort Instances.cdf_threshold
           (Examples.monthly false));
    reflexivity.
Defined.

Lemma apply_location_requires_time_information_witness :
  apply_location Instances.ecdf_step Instances.iecdf_inverted
    Instances.cos_poly Instances.pi_approx Instances.linregress_two_points
    (list Q) Instances.tape_uniform Instances.Time Instances.month
    Instances.year
    binary64 stable_argsort Instances.cdf_threshold (Examples.monthly true)
    Instances.tape [Fin 1] [Fin 2] [Fin 3] (Some [(2000, 1)%Z]) None
    (Some [(2000, 1)%Z])
  = Raise ModeError.
Proof.
  apply (apply_location_requires_time_information Instances.ecdf_step
           Instances.iecdf_inverted Instances.cos_poly Instances.pi_approx
           Instances.linregress_two_points (list Q) Instances.tape_uniform
           Instances.Time Instances.month Instances.year
           binary64 stable_argsort Instances.cdf_threshold
           (Examples.monthly true));
    [reflexivity | reflexivity | right; left; reflexivity].
Defined.

(** ** Step 3 without year labels, and the plain pipeline *)

Section PlainPipeline.
Variable ecdf : string -> list fl -> fl -> fl.
Variable iecdf : option string -> list fl -> fl -> fl.
Variable cos : fl -> fl.
Variable pi : fl.
Variable linregress : list fl -> list fl -> LinregressResult.
Variable Rng : Type.
Variable uniform : Rng -> fl -> fl -> nat -> list fl * Rng.
Variable rnd : Q -> Q.
Variable argsort : list fl -> list nat.
Variable cdf_threshold : Q.
Variable self : ISIMIP.

Lemma step3_remove_trend_lengths (x : list fl) :
  exists x' trend,
    _step3_remove_trend linregress self x None = Ok (x', trend)
    /\ length x' = length x /\ length trend = length x.
Proof.
  destruct (step3_remove_trend_unfold linregress self x None)
    as (at_ & Hlen & _ & _ & ->).
  pose proof (chunked_trend_length self x at_ Hlen) as HL.
  unfold broadcast. rewrite HL, Nat.eqb_refl. cbn [bind].
  eexists _, _. split; [reflexivity |].
  split; [rewrite map2_length, HL; apply Nat.min_id | exact HL].
Qed.

(** Without year labels step 3 raises nothing of its own: whatever
    slope and p-value the regression reports, the three series come
    back with their lengths, and the trend of [cm_future] has one entry
    per sample, so that the subtraction never fails on shapes.  (The
    regression is a total function here; [get_chunked_mean] is the
    chunk mean described for [utils].) *)
Theorem step3_without_labels_returns (obs_hist cm_hist cm_future : list fl) :
  exists obs_hist' cm_hist' cm_future' trend_cm_future,
    step3 linregress self obs_hist cm_hist cm_future None None None
    = Ok (obs_hist', cm_hist', cm_future', trend_cm_future)
    /\ length obs_hist' = length obs_hist
    /\ length cm_hist' = length cm_hist
    /\ length cm_future' = length cm_future
    /\ length trend_cm_future = length cm_future.
Proof.
  unfold step3. destruct (detrending self).
  - destruct (step3_remove_trend_lengths obs_hist) as (oh & t1 & -> & L1 & _).
    destruct (step3_remove_trend_lengths cm_hist) as (ch & t2 & -> & L2 & _).
    destruct (step3_remove_trend_lengths cm_future) as (cf & t3 & -> & L3 & L4).
    cbn [bind]. eexists _, _, _, _. repeat split; assumption.
  - eexists _, _, _, _. repeat split. apply repeat_length.
Qed.

Lemma nonempty_of_length {A B} (x : list A) (y : list B) :
  length x = length y -> y <> [] -> x <> [].
Proof. destruct x, y; cbn; congruence. Qed.

(** The quantile mapping raises nothing but the error of a fit. *)
Lemma adjust_raises_fit_error (oh ofut ch sub : list fl) (e : error) :
  _step6_adjust_values_between_thresholds cdf_threshold self oh ofut ch sub
  = Raise e ->
  e = FitError.
Proof.
  unfold _step6_adjust_values_between_thresholds, distribution_fit. cbv zeta.
  destruct (fit (distribution self) sub); [| intros [= <-]; reflexivity].
  cbn [bind].
  destruct (fit (distribution self) oh); [| intros [= <-]; reflexivity].
  cbn [bind].
  destruct (fit (distribution self) ofut); [| intros [= <-]; reflexivity].
  cbn [bind].
  destruct (fit (distribution self) ch); [| intros [= <-]; reflexivity].
  cbn [bind].
  destruct (negb (event_likelihood_adjustment self)); discriminate.
Qed.

Lemma sorted_output_raises_fit_error
    (obs_hist obs_future cm_hist cm_future : list fl) ml mu (e : error) :
  length (argsort cm_future) = length cm_future ->
  length ml = length cm_future -> length mu = length cm_future ->
  step6_sorted_output argsort cdf_threshold self obs_hist obs_future cm_hist
                      cm_future (ml, mu) = Raise e ->
  e = FitError.
Proof.
  intros La Ll Lu. unfold step6_sorted_output. cbn [fst snd].
  destruct (_step6_adjust_values_between_thresholds _ _ _ _ _ _) as [v | e']
    eqn:Hv.
  - cbn [bind].
    destruct (adjust_inversion _ _ _ _ _ _ _ Hv)
      as (_ & _ & _ & _ & _ & _ & _ & _ & Lv & _).
    destruct (mapped_mask_length argsort self cm_future ml mu La Ll Lu) as [Lm _].
    unfold mask_assign.
    rewrite Lv, (mask_select_length _ _ Lm), Nat.eqb_refl. discriminate.
  - cbn [bind]. intros [= <-]. exact (adjust_raises_fit_error _ _ _ _ _ Hv).
Qed.

(** The plain case: for a variable other than [prsnratio], with step 4
    not applying on either side, the trend transfer flag on and no year
    labels, the eight steps fit together on non-empty input.  None
    raises an error of its own: either a fit of the distribution raises
    in step 6, or the call returns a series of the length of
    [cm_future], having drawn nothing from the generator.  (The
    regression and the empirical distribution functions are total
    functions here; [np.argsort] returns one index per entry.) *)
Theorem apply_on_window_returns_or_fit_raises
    (rng : Rng) (obs_hist cm_hist cm_future : list fl) :
  keeps_unit_interval rnd ->
  (forall x, length (argsort x) = length x) ->
  String.eqb (variable self) "prsnratio" = false ->
  has_lower_bound self && has_lower_threshold self = false ->
  has_upper_bound self && has_upper_threshold self = false ->
  trend_transfer_only_for_values_within_threshold self = true ->
  obs_hist <> [] -> cm_hist <> [] -> cm_future <> [] ->
  (exists out,
      _apply_on_window ecdf iecdf cos pi linregress Rng uniform rnd argsort
                       cdf_threshold self rng obs_hist cm_hist cm_future
                       None None None
      = Ok (out, rng)
      /\ length out = length cm_future)
  \/ _apply_on_window ecdf iecdf cos pi linregress Rng uniform rnd argsort
                      cdf_threshold self rng obs_hist cm_hist cm_future
                      None None None
     = Raise FitError.
Proof.
  intros R La Hv Hl Hu Hf Ho Hh Hc.
  unfold _apply_on_window, step1, step2. rewrite Hv.
  destruct (step3_without_labels_returns obs_hist cm_hist cm_future)
    as (oh & ch & cf & tr & -> & Lo & Lh & Lc & Lt).
  cbn [bind]. unfold step4. rewrite Hl, Hu. cbn [bind].
  unfold step5. rewrite Hf, transfer_trend_samplewise. cbn [bind].
  pose proof (nonempty_of_length _ _ Lo Ho) as No.
  pose proof (nonempty_of_length _ _ Lh Hh) as Nh.
  pose proof (nonempty_of_length _ _ Lc Hc) as Nc.
  match goal with
  | |- context [step6 _ _ _ _ _ (Some ?o) _ _] => set (obs_future := o)
  end.
  rewrite step6_in_two_parts.
  destruct (bound_masks_total rnd argsort self oh ch cf R (La cf) No Nh Nc)
    as (ml & mu & Hm).
  destruct (bound_masks_length rnd argsort self _ _ _ _ _ (La cf) Hm) as [Ll Lu].
  rewrite Hm. cbn [bind].
  destruct (step6_sorted_output argsort cdf_threshold self oh obs_future ch cf
              (ml, mu)) as [final | e] eqn:Hfin.
  - left. cbn [bind].
    destruct (sorted_output_inversion argsort cdf_threshold self oh obs_future
                ch cf ml mu final (La cf) Ll Lu Hfin) as [Lf _].
    assert (Lout : length (take NaN final (argsort_idx (argsort cf)))
                   = length cf).
    { rewrite take_length. unfold argsort_idx.
      rewrite argsort_by_length. apply La. }
    unfold step7, step8, broadcast.
    destruct (detrending self).
    + rewrite Lout, Lt, Lc, Nat.eqb_refl. cbn [bind].
      eexists. split; [reflexivity |].
      rewrite map2_length, Lout, Lt, Lc. apply Nat.min_id.
    + cbn [bind]. eexists. split; [reflexivity |]. rewrite Lout. exact Lc.
  - right. cbn [bind].
    rewrite (sorted_output_raises_fit_error oh obs_future ch cf ml mu e
               (La cf) Ll Lu Hfin).
    reflexivity.
Qed.

End PlainPipeline.

Lemma apply_on_window_returns_or_fit_raises_witness :
  exists out,
    _apply_on_window Instances.ecdf_step Instances.iecdf_inverted
      Instances.cos_poly Instances.pi_approx Instances.linregress_two_points
      (list Q) Instances.tape_uniform binary64 stable_argsort
      Instances.cdf_threshold (Examples.detrended true 2) Instances.tape
      [Fin 1; Fin 2; Fin 3; Fin 5] [Fin 2; Fin 3; Fin 5; Fin 8]
      [Fin 3; Fin 4; Fin 6; Fin 9] None None None
    = Ok (out, Instances.tape)
    /\ length out = 4%nat.
Proof.
  destruct (apply_on_window_returns_or_fit_raises
              Instances.ecdf_step Instances.iecdf_inverted
              Instances.cos_poly Instances.pi_approx
              Instances.linregress_two_points
              (list Q) Instances.tape_uniform binary64 stable_argsort
              Instances.cdf_threshold (Examples.detrended true 2) Instances.tape
              [Fin 1; Fin 2; Fin 3; Fin 5] [Fin 2; Fin 3; Fin 5; Fin 8]
              [Fin 3; Fin 4; Fin 6; Fin 9]
              binary64_keeps_unit_interval stable_argsort_length
              eq_refl eq_refl eq_refl eq_refl
              ltac:(discriminate) ltac:(discriminate) ltac:(discriminate))
    as [H | H].
  - exact H.
  - vm_compute in H. discriminate.
Defined.
